(** * InformationV3: conversation trees, response segmentation and context
      reconstruction

    A shallow embedding of [src/backend/node.py], [src/backend/tree.py] and
    the script [src/backend/main.py].

    Conventions of the embedding.
    - Python text is a Rocq [string]; the character [c : ascii] stands for
      the code point of the same number (U+0000 to U+00FF), and the
      character classes below are those of Python on that range.
    - Python integers are [Z].
    - Objects of class [Node] live in an arena ([heap]); a reference to a
      node is its index in the arena, so object identity is index equality.
      A [ResponseSegment] is held by one segment list only and is kept as a
      value inside its node.
    - An instance attribute that was never assigned is [None] in the
      record; reading it raises [AttributeError], as in Python.  Methods are
      called on objects that exist; on an index outside the arena a read
      raises [AttributeError] and a write does nothing.
    - A mutating method maps a state to the state it leaves and an outcome,
      also when it raises.
    - The [while] loops that follow parent links carry fuel, one unit more
      than the number of nodes; running out of fuel is the outcome
      [OutOfFuel], kept apart from Python's exceptions.
    - The recursive helpers of the tree take the number of frames the
      interpreter has left and raise [RecursionError] when there is none;
      the public methods are modelled as called from the top level of a
      script, under the default recursion limit.
    - The output of [print] is not modelled. *)

From Stdlib Require Import ZArith Lia Bool Ascii String.
From stdpp Require Import base option list strings.

(** ** Characters *)

Definition code (c : ascii) : nat := nat_of_ascii c.

Definition between (lo hi n : nat) : bool := Nat.leb lo n && Nat.leb n hi.

(** [str.isspace] on one character; the class used by [str.strip],
    [str.split] and the regular expression [\s]. *)
Definition isspace (c : ascii) : bool :=
  let n := code c in
  between 9 13 n || between 28 32 n || Nat.eqb n 133 || Nat.eqb n 160.

(** The regular expression class [\w]: alphanumeric or underscore. *)
Definition isword (c : ascii) : bool :=
  let n := code c in
  between 48 57 n || between 65 90 n || between 97 122 n || Nat.eqb n 95
  || Nat.eqb n 170 || Nat.eqb n 178 || Nat.eqb n 179 || Nat.eqb n 181
  || Nat.eqb n 185 || Nat.eqb n 186 || between 188 190 n
  || between 192 214 n || between 216 246 n || between 248 255 n.

(** [str.lower] on one character. *)
Definition lower (c : ascii) : ascii :=
  let n := code c in
  if between 65 90 n || between 192 214 n || between 216 222 n
  then ascii_of_nat (n + 32) else c.

Definition NL : ascii := "010"%char.

(** ** Strings: the methods of [str] the program calls *)

Fixpoint str_lower (s : string) : string :=
  match s with
  | EmptyString => EmptyString
  | String c s' => String (lower c) (str_lower s')
  end.

Fixpoint lstrip (s : string) : string :=
  match s with
  | EmptyString => EmptyString
  | String c s' => if isspace c then lstrip s' else s
  end.

Fixpoint rstrip (s : string) : string :=
  match s with
  | EmptyString => EmptyString
  | String c s' =>
      match rstrip s' with
      | EmptyString => if isspace c then EmptyString else String c EmptyString
      | r => String c r
      end
  end.

(** [s.strip()] *)
Definition strip (s : string) : string := rstrip (lstrip s).

(** Prepend a character to the first piece of a list of pieces. *)
Definition push (c : ascii) (pieces : list string) : list string :=
  match pieces with
  | [] => [String c EmptyString]
  | p :: ps => String c p :: ps
  end.

(** [s.split(sep)] for a one-character separator. *)
Fixpoint split_on (sep : ascii) (s : string) : list string :=
  match s with
  | EmptyString => [EmptyString]
  | String c s' =>
      if Ascii.eqb c sep then EmptyString :: split_on sep s'
      else push c (split_on sep s')
  end.

(** [s.split()]: the maximal runs of non-whitespace characters. *)
Fixpoint split (s : string) : list string :=
  match s with
  | EmptyString => []
  | String c s' =>
      if isspace c then split s'
      else match s' with
           | EmptyString => [String c EmptyString]
           | String d _ =>
               if isspace d then String c EmptyString :: split s'
               else push c (split s')
           end
  end.

(** [s.startswith(p)] *)
Fixpoint startswith (p s : string) : bool :=
  match p, s with
  | EmptyString, _ => true
  | String a p', String b s' => Ascii.eqb a b && startswith p' s'
  | String _ _, EmptyString => false
  end.

(** [s.endswith(p)] *)
Fixpoint endswith (p s : string) : bool :=
  String.eqb s p ||
  match s with
  | EmptyString => false
  | String _ s' => endswith p s'
  end.

(** [c in s] for a one-character needle. *)
Fixpoint contains (c : ascii) (s : string) : bool :=
  match s with
  | EmptyString => false
  | String d s' => Ascii.eqb d c || contains c s'
  end.

(** [s.count(c)] for a one-character needle. *)
Fixpoint count (c : ascii) (s : string) : Z :=
  match s with
  | EmptyString => 0%Z
  | String d s' => ((if Ascii.eqb d c then 1 else 0) + count c s')%Z
  end.

(** ** The fragment of [re] the program uses *)

Inductive regex : Type :=
| Eps
| Bol                                  (* ^ *)
| Chr (c : ascii)                      (* a literal character *)
| WordB                                (* \b *)
| Star (cls : ascii -> bool)           (* [cls]*, greedy *)
| Plus (cls : ascii -> bool)           (* [cls]+, greedy *)
| LookBehind (cls : ascii -> bool)     (* (?<=[cls]) *)
| Seq (r1 r2 : regex)
| Alt (r1 r2 : regex).

(** The literal text [w]. *)
Fixpoint lit (w : string) : regex :=
  match w with
  | EmptyString => Eps
  | String c w' => Seq (Chr c) (lit w')
  end.

(** ["|".join(patterns)] *)
Fixpoint alternation (rs : list regex) : regex :=
  match rs with
  | [] => Eps
  | [r] => r
  | r :: rs' => Alt r (alternation rs')
  end.

Definition isword_opt (o : option ascii) : bool :=
  match o with Some c => isword c | None => false end.

Definition first_char (s : string) : option ascii :=
  match s with EmptyString => None | String c _ => Some c end.

Section Matcher.
(** [ignorecase]: the flag [re.IGNORECASE].  A position in the subject is
    the character before it ([None] at the start) and the text after it.
    The matcher is a backtracking one in continuation-passing style: [k]
    is what remains to be matched. *)
Variable ignorecase : bool.
Context {A : Type}.

Definition chr_eq (p c : ascii) : bool :=
  if ignorecase then Ascii.eqb (lower p) (lower c) else Ascii.eqb p c.

Fixpoint star (cls : ascii -> bool) (k : option ascii -> string -> option A)
    (prev : option ascii) (s : string) : option A :=
  match s with
  | String c s' =>
      if cls c then
        match star cls k (Some c) s' with
        | Some a => Some a
        | None => k prev s
        end
      else k prev s
  | EmptyString => k prev s
  end.

Fixpoint rmatch (r : regex) (k : option ascii -> string -> option A)
    (prev : option ascii) (s : string) : option A :=
  match r with
  | Eps => k prev s
  | Bol => match prev with None => k prev s | Some _ => None end
  | Chr p =>
      match s with
      | String c s' => if chr_eq p c then k (Some c) s' else None
      | EmptyString => None
      end
  | WordB =>
      if xorb (isword_opt prev) (isword_opt (first_char s)) then k prev s
      else None
  | Star cls => star cls k prev s
  | Plus cls =>
      match s with
      | String c s' => if cls c then star cls k (Some c) s' else None
      | EmptyString => None
      end
  | LookBehind cls =>
      match prev with
      | Some p => if cls p then k prev s else None
      | None => None
      end
  | Seq r1 r2 => rmatch r1 (rmatch r2 k) prev s
  | Alt r1 r2 =>
      match rmatch r1 k prev s with
      | Some a => Some a
      | None => rmatch r2 k prev s
      end
  end.
End Matcher.

(** Does [r] match at the position [(prev, s)]? *)
Definition matches_at (ic : bool) (r : regex) (prev : option ascii) (s : string) : bool :=
  match rmatch ic r (fun _ _ => Some tt) prev s with Some _ => true | None => false end.

(** [r.match(s)]: a match at the start of [s]. *)
Definition re_match (ic : bool) (r : regex) (s : string) : bool :=
  matches_at ic r None s.

Fixpoint search_from (ic : bool) (r : regex) (prev : option ascii) (s : string) : bool :=
  matches_at ic r prev s ||
  match s with
  | EmptyString => false
  | String c s' => search_from ic r (Some c) s'
  end.

(** [r.search(s)]: a match at some position of [s]. *)
Definition re_search (ic : bool) (r : regex) (s : string) : bool :=
  search_from ic r None s.

(** The end of the match of [r] at a position, when it is not empty. *)
Definition match_end (ic : bool) (r : regex) (prev : option ascii) (s : string)
    : option (option ascii * string) :=
  match rmatch ic r (fun p rest => Some (p, rest)) prev s with
  | Some (p, rest) =>
      if Nat.ltb (String.length rest) (String.length s) then Some (p, rest) else None
  | None => None
  end.

Fixpoint split_from (fuel : nat) (ic : bool) (r : regex) (prev : option ascii) (s : string)
    : list string :=
  match fuel with
  | O => [s]
  | S fuel' =>
      match match_end ic r prev s with
      | Some (p, rest) => EmptyString :: split_from fuel' ic r p rest
      | None =>
          match s with
          | EmptyString => [EmptyString]
          | String c s' => push c (split_from fuel' ic r (Some c) s')
          end
      end
  end.

(** [re.split(r, s)] for a pattern without groups whose matches are never
    empty: the pieces of [s] between the successive leftmost matches. *)
Definition re_split (ic : bool) (r : regex) (s : string) : list string :=
  split_from (S (String.length s)) ic r None s.

(** ** The role classifier ([Node.is_probable_system_heuristic]) *)

Definition _IMPERATIVE_VERBS : list string :=
  ["ensure"; "sanitize"; "never"; "always"; "make"; "avoid"; "validate";
   "check"; "reject"; "allow"; "deny"; "use"; "require"; "respond"].

Definition _SYSTEM_PATTERNS : list regex :=
  [ Seq Bol (Seq (lit "you are") WordB);
    Seq Bol (Seq (lit "you should") WordB);
    Seq Bol (Seq (lit "always") WordB);
    Seq Bol (Seq (lit "never") WordB);
    Seq WordB (Seq (lit "make sure") WordB) ].

Definition _META_TAGS : regex :=
  Seq Bol (Seq (Star isspace)
    (Alt (lit "[SYSTEM]") (Alt (lit "##SYSTEM##") (lit "(system)")))).

Definition _system_regex : regex := alternation _SYSTEM_PATTERNS.

(** [w in words] *)
Definition str_in (w : string) (words : list string) : bool :=
  existsb (String.eqb w) words.

(** [s.startswith((p1, p2, ...))] *)
Definition startswith_any (ps : list string) (s : string) : bool :=
  existsb (fun p => startswith p s) ps.

(** [stripped.split()[0].lower()] when [stripped] is not empty, the empty
    text otherwise.  The index [0] is in range whenever the trimmed text is
    not empty (lemma [split_strip_nonempty]), so the default of [nth] is
    never used. *)
Definition first_word_of (stripped : string) : string :=
  match stripped with
  | EmptyString => EmptyString
  | _ => str_lower (nth 0 (split stripped) EmptyString)
  end.

Definition is_probable_system_heuristic (text : string) (is_before_first_user : bool) : bool :=
  let stripped := strip text in
  if re_search true _system_regex (strip text) then true
  else
    if re_match true _META_TAGS stripped then true
    else
      let first_word := first_word_of stripped in
      if str_in first_word _IMPERATIVE_VERBS then true
      else
        if (contains NL text && (1 <=? count NL text)%Z) || contains ";" text then true
        else
          if is_before_first_user then
            if negb (endswith "?" stripped)
               && negb (startswith_any ["hi"; "hello"; "hey"] (str_lower stripped))
            then true
            else false
          else false.

(** ** Outcomes and the state monad of the mutating methods *)

Inductive exn : Type := AttributeError | IndexError | ValueError | RecursionError.

Definition exn_eqb (a b : exn) : bool :=
  match a, b with
  | AttributeError, AttributeError | IndexError, IndexError | ValueError, ValueError
  | RecursionError, RecursionError => true
  | _, _ => false
  end.

Inductive result (A : Type) : Type :=
| Ok (a : A)
| Raise (e : exn)
| OutOfFuel.
Arguments Ok {A} a.
Arguments Raise {A} e.
Arguments OutOfFuel {A}.

(** A method run on a state [S]: the state it leaves and how it ended.  The
    state is returned also when the method raises, so that what a failed
    call has mutated can be observed. *)
Definition M (S A : Type) : Type := S -> S * result A.

Definition ret {S A} (a : A) : M S A := fun s => (s, Ok a).
Definition raise {S A} (e : exn) : M S A := fun s => (s, Raise e).
Definition bind {S A B} (m : M S A) (f : A -> M S B) : M S B :=
  fun s =>
    match m s with
    | (s', Ok a) => f a s'
    | (s', Raise e) => (s', Raise e)
    | (s', OutOfFuel) => (s', OutOfFuel)
    end.

Notation "'let*' x := c 'in' k" := (bind c (fun x => k))
  (at level 10, x name, c at level 100, k at level 200).
Notation "c ';;;' k" := (bind c (fun _ => k))
  (at level 100, k at level 200, right associativity).

(** [try: m except e: handler] *)
Definition try_except {S A} (m : M S A) (e : exn) (handler : M S A) : M S A :=
  fun s =>
    match m s with
    | (s', Raise e') => if exn_eqb e e' then handler s' else (s', Raise e')
    | other => other
    end.

(** ** The entity model *)

(** A reference to a node: its index in the arena. *)
Abbreviation loc := nat.

Record ResponseSegment : Type := {
  seg_content : string;
  seg_index : Z;
  seg_children : list loc;
}.

(** A [Node] object.  [parent] is a class attribute with default [None], so
    it can always be read; the other attributes exist only once assigned. *)
Record Node : Type := {
  _id : option string;
  message : option string;
  response : option string;
  response_segments : option (list ResponseSegment);
  parent : option loc;
  children : option (list loc);
}.

Abbreviation heap := (list Node).

(** [Node()]: the class defines no [__init__] and is not a dataclass, so a
    new object has no instance attribute at all. *)
Definition blank : Node :=
  {| _id := None; message := None; response := None;
     response_segments := None; parent := None; children := None |}.

Definition set__id (v : string) (n : Node) : Node :=
  {| _id := Some v; message := message n; response := response n;
     response_segments := response_segments n; parent := parent n;
     children := children n |}.
Definition set_message (v : string) (n : Node) : Node :=
  {| _id := _id n; message := Some v; response := response n;
     response_segments := response_segments n; parent := parent n;
     children := children n |}.
Definition set_response (v : string) (n : Node) : Node :=
  {| _id := _id n; message := message n; response := Some v;
     response_segments := response_segments n; parent := parent n;
     children := children n |}.
Definition set_response_segments (v : list ResponseSegment) (n : Node) : Node :=
  {| _id := _id n; message := message n; response := response n;
     response_segments := Some v; parent := parent n;
     children := children n |}.
Definition set_parent (v : option loc) (n : Node) : Node :=
  {| _id := _id n; message := message n; response := response n;
     response_segments := response_segments n; parent := v;
     children := children n |}.
Definition set_children (v : list loc) (n : Node) : Node :=
  {| _id := _id n; message := message n; response := response n;
     response_segments := response_segments n; parent := parent n;
     children := Some v |}.

(** [o.attr]: [AttributeError] when the attribute was never assigned. *)
Definition getattr {A} (attr : Node -> option A) (o : loc) : M heap A :=
  fun h =>
    match h !! o with
    | Some n => match attr n with Some a => (h, Ok a) | None => (h, Raise AttributeError) end
    | None => (h, Raise AttributeError)
    end.

(** [o.attr = v] *)
Definition setattr (assign : Node -> Node) (o : loc) : M heap unit :=
  fun h => (alter assign o h, Ok tt).

Definition Node_new : M heap loc :=
  fun h => (h ++ [blank], Ok (length h)).

(** ** The segmentation engine ([Node._segment_response]) *)

Definition nonempty (s : string) : bool :=
  match s with EmptyString => false | String _ _ => true end.

(** [[seg.strip() for seg in response.split('\n') if seg.strip()]] *)
Definition stripped_lines (rsp : string) : list string :=
  List.map strip (List.filter (fun seg => nonempty (strip seg)) (split_on NL rsp)).

Fixpoint enumerate_from {A} (i : Z) (l : list A) : list (Z * A) :=
  match l with
  | [] => []
  | x :: l' => (i, x) :: enumerate_from (i + 1)%Z l'
  end.

(** [enumerate(l)] *)
Definition enumerate {A} (l : list A) : list (Z * A) := enumerate_from 0%Z l.

(** [for x in l: body x] *)
Fixpoint for_each {S A} (l : list A) (body : A -> M S unit) : M S unit :=
  match l with
  | [] => ret tt
  | x :: l' => body x ;;; for_each l' body
  end.

(** [self.response_segments.append(segment)] *)
Definition append_segment (self : loc) (segment : ResponseSegment) : M heap unit :=
  let* segs := getattr response_segments self in
  setattr (set_response_segments (segs ++ [segment])) self.

Definition _segment_response (self : loc) : M heap unit :=
  setattr (set_response_segments []) self ;;;
  let* rsp := getattr response self in
  let segments := stripped_lines rsp in
  for_each (enumerate segments) (fun '(idx, text) =>
    append_segment self {| seg_content := text; seg_index := idx; seg_children := [] |}).

(** [Node.__post_init__]; [uuid] is the value [str(uuid.uuid4())] yields.
    Nothing calls this method: [Node] is a plain class, not a dataclass. *)
Definition __post_init__ (uuid : string) (self : loc) : M heap unit :=
  setattr (set__id uuid) self ;;;
  _segment_response self.

(** ** Branching operations of [Node] *)

Definition add_child (self : loc) (msg rsp : string) : M heap loc :=
  let* child := Node_new in
  setattr (set_message msg) child ;;;
  setattr (set_response rsp) child ;;;
  setattr (set_parent (Some self)) child ;;;
  getattr response child ;;;                       (* print(child.response) *)
  let* cs := getattr children self in
  setattr (set_children (cs ++ [child])) self ;;;
  ret child.

Definition append_seg_child (child : loc) (seg : ResponseSegment) : ResponseSegment :=
  {| seg_content := seg_content seg; seg_index := seg_index seg;
     seg_children := seg_children seg ++ [child] |}.

Definition add_segment_specific_child (self : loc) (segment_index : Z) (msg rsp : string)
    : M heap loc :=
  (* [0 <= segment_index < len(self.response_segments)]: a chained
     comparison, whose second half is not evaluated when the first fails *)
  let* in_range :=
    if (0 <=? segment_index)%Z then
      let* segs := getattr response_segments self in
      ret (segment_index <? Z.of_nat (length segs))%Z
    else ret false in
  if in_range then
    let* child := Node_new in
    setattr (set_message msg) child ;;;
    setattr (set_response rsp) child ;;;
    setattr (set_parent (Some self)) child ;;;
    let* segs := getattr response_segments self in
    match segs !! Z.to_nat segment_index with
    | Some seg =>
        setattr (set_response_segments
                   (<[Z.to_nat segment_index := append_seg_child child seg]> segs)) self ;;;
        ret child
    | None => raise IndexError
    end
  else raise IndexError.

(** ** The context builder ([Node.get_context]) *)

(** One transcript entry, [{"role": r, "content": c}]. *)
Record Entry : Type := { role : string; content : string }.

Definition entry (r c : string) : Entry := {| role := r; content := c |}.

(** [(?<=[.!?]) +] *)
Definition sentence_boundary : regex :=
  Seq (LookBehind (fun c => Ascii.eqb c "." || Ascii.eqb c "!" || Ascii.eqb c "?"))
      (Plus (fun c => Ascii.eqb c " ")).

Definition parent_of (h : heap) (o : loc) : option loc :=
  match h !! o with Some n => parent n | None => None end.

Section ContextBuilder.
(** The bound method [current.is_probable_system_heuristic]. *)
Variable classifier : string -> bool -> bool.

(** The loop [for element in context: ...] run for one sentence [idx].
    Each of its four branches ends in [break], so the body runs for the
    first element of [context] only, and not at all on an empty list. *)
Definition classify_unit (context : list Entry) (idx : string) : list Entry :=
  match context with
  | [] => context
  | element :: _ =>
      if String.eqb (role element) "user" then
        if classifier idx false
        then context ++ [entry "system" idx]
        else context ++ [entry "user" idx]
      else
        if classifier idx true
        then context ++ [entry "system" idx]
        else context ++ [entry "user" idx]
  end.

(** The loop [while current != None], returning [context] as it is just
    before the final [reversed]. *)
Fixpoint collect (fuel : nat) (h : heap) (current : option loc) (context : list Entry)
    : result (list Entry) :=
  match current with
  | None => Ok context
  | Some cur =>
      match fuel with
      | O => OutOfFuel
      | S fuel' =>
          match h !! cur ≫= response with
          | None => Raise AttributeError
          | Some rsp =>
              let context := context ++ [entry "assistant" rsp] in
              match h !! cur ≫= message with
              | None => Raise AttributeError
              | Some msg =>
                  let line := re_split false sentence_boundary msg in
                  let context := fold_left classify_unit (rev line) context in
                  collect fuel' h (parent_of h cur) context
              end
          end
      end
  end.

Definition get_context_with (h : heap) (self : loc) : result (list Entry) :=
  match collect (S (length h)) h (Some self) [] with
  | Ok context => Ok (rev context)
  | Raise e => Raise e
  | OutOfFuel => OutOfFuel
  end.
End ContextBuilder.

Definition get_context (h : heap) (self : loc) : result (list Entry) :=
  get_context_with is_probable_system_heuristic h self.

(** ** The tree ([tree.py]) *)

(** The fields of [Tree] that the operations below read or write; the
    identifier and the two timestamps are left out. *)
Record Tree : Type := {
  root_node : option loc;
  node_count : Z;
}.

Record World : Type := {
  tree : Tree;
  nodes : heap;
}.

(** [Tree()] *)
Definition Tree_new : Tree := {| root_node := None; node_count := 0%Z |}.

Definition init : World := {| tree := Tree_new; nodes := [] |}.

(** A method of [Node] run in a world. *)
Definition on_nodes {A} (m : M heap A) : M World A :=
  fun w =>
    let (h, r) := m (nodes w) in
    ({| tree := tree w; nodes := h |}, r).

Definition read_tree : M World Tree := fun w => (w, Ok (tree w)).

(** [self.root_node = r] *)
Definition set_root_node (r : option loc) : M World unit :=
  fun w => ({| tree := {| root_node := r; node_count := node_count (tree w) |};
               nodes := nodes w |}, Ok tt).

(** [self.node_count = c] *)
Definition set_node_count (c : Z) : M World unit :=
  fun w => ({| tree := {| root_node := root_node (tree w); node_count := c |};
               nodes := nodes w |}, Ok tt).

Definition create_root_node (user_message ai_response : string) : M World loc :=
  let* t := read_tree in
  match root_node t with
  | Some _ => raise ValueError
  | None =>
      let* root := on_nodes Node_new in
      on_nodes (setattr (set_message user_message) root) ;;;
      on_nodes (setattr (set_response ai_response) root) ;;;
      on_nodes (setattr (set_parent None) root) ;;;
      set_root_node (Some root) ;;;
      set_node_count 1 ;;;
      ret root
  end.

Definition has_id (n : Node) (node_id : string) : bool :=
  match _id n with
  | Some i => String.eqb i node_id      (* hasattr(node, '_id') and node._id == node_id *)
  | None => false
  end.

(** The interpreter allows [recursion_limit] nested frames
    ([sys.getrecursionlimit()], at its default); a call that needs one more
    raises [RecursionError].  Every call of a function or method runs in a
    frame of its own, and so does every comprehension (CPython before
    3.12). *)
Definition recursion_limit : nat := 1000.

(** The frames left to a call made below [callers] nested frames, the frame
    of the script that uses the tree being the first of them. *)
Definition frames_below (callers : nat) : nat := recursion_limit - callers.
Arguments frames_below : simpl never.

(** The recursive helpers take the number of frames left when they are
    called: each call uses one of them. *)
Fixpoint _search_node_recursive (frames : nat) (h : heap) (node : loc) (node_id : string)
    : result (option loc) :=
  match frames with
  | O => Raise RecursionError
  | S frames' =>
      match h !! node with
      | None => Raise AttributeError
      | Some n =>
          if has_id n node_id then Ok (Some node)
          else
            match children n with
            | None => Raise AttributeError
            | Some cs =>
                (fix search_children (cs : list loc) : result (option loc) :=
                   match cs with
                   | [] => Ok None
                   | child :: cs' =>
                       match _search_node_recursive frames' h child node_id with
                       | Ok None => search_children cs'
                       | other => other
                       end
                   end) cs
            end
      end
  end.

(** The body of [_find_node_by_id], which the public methods call: the
    search starts below the script, the public method and
    [_find_node_by_id]. *)
Definition find_node (w : World) (node_id : string) : result (option loc) :=
  match root_node (tree w) with
  | None => Ok None
  | Some root => _search_node_recursive (frames_below 3) (nodes w) root node_id
  end.

Definition _find_node_by_id (node_id : string) : M World (option loc) :=
  fun w => (w, find_node w node_id).

(** [Tree.get_node] *)
Definition get_node (node_id : string) : M World (option loc) :=
  _find_node_by_id node_id.

(** [self.node_count += 1] *)
Definition bump_node_count : M World unit :=
  let* t := read_tree in
  set_node_count (node_count t + 1).

Definition add_child_node (parent_node_id user_message ai_response : string)
    : M World (option loc) :=
  let* found := _find_node_by_id parent_node_id in
  match found with
  | None => ret None
  | Some parent_node =>
      let* child := on_nodes Node_new in
      on_nodes (setattr (set_message user_message) child) ;;;
      on_nodes (setattr (set_response ai_response) child) ;;;
      on_nodes (setattr (set_parent (Some parent_node)) child) ;;;
      let* cs := on_nodes (getattr children parent_node) in
      on_nodes (setattr (set_children (cs ++ [child])) parent_node) ;;;
      bump_node_count ;;;
      ret (Some child)
  end.

(** [Tree.add_segment_specific_child] *)
Definition Tree_add_segment_specific_child
    (parent_node_id : string) (segment_index : Z) (user_message ai_response : string)
    : M World (option loc) :=
  let* found := _find_node_by_id parent_node_id in
  match found with
  | None => ret None
  | Some parent_node =>
      try_except
        (let* child := on_nodes (add_segment_specific_child parent_node segment_index
                                   user_message ai_response) in
         bump_node_count ;;;
         ret (Some child))
        IndexError
        (ret None)
  end.

Fixpoint path_up (fuel : nat) (h : heap) (current : option loc) (path : list loc)
    : result (list loc) :=
  match current with
  | None => Ok path
  | Some cur =>
      match fuel with
      | O => OutOfFuel
      | S fuel' => path_up fuel' h (parent_of h cur) (cur :: path)   (* path.insert(0, current) *)
      end
  end.

Definition get_conversation_path (node_id : string) : M World (list loc) :=
  let* target_node := _find_node_by_id node_id in
  match target_node with
  | None => ret []
  | Some target => fun w => (w, path_up (S (length (nodes w))) (nodes w) (Some target) [])
  end.

Fixpoint _collect_nodes_recursive (frames : nat) (h : heap) (node : loc) (acc : list loc)
    : result (list loc) :=
  match frames with
  | O => Raise RecursionError
  | S frames' =>
      let acc := acc ++ [node] in
      match h !! node ≫= children with
      | None => Raise AttributeError
      | Some cs =>
          (fix collect_children (cs : list loc) (acc : list loc) : result (list loc) :=
             match cs with
             | [] => Ok acc
             | child :: cs' =>
                 match _collect_nodes_recursive frames' h child acc with
                 | Ok acc' => collect_children cs' acc'
                 | other => other
                 end
             end) cs acc
      end
  end.

(** [Tree.get_all_nodes]: the helper is called below the script and the
    method. *)
Definition get_all_nodes : M World (list loc) :=
  fun w =>
    match root_node (tree w) with
    | None => (w, Ok [])
    | Some root =>
        (w, _collect_nodes_recursive (frames_below 2) (nodes w) root [])
    end.


(** [Tree.get_subtree] *)
Definition get_subtree (node_id : string) : M World (option loc) :=
  _find_node_by_id node_id.

Fixpoint _calculate_depth_recursive (frames : nat) (h : heap) (node : loc) (current_depth : Z)
    : result Z :=
  match frames with
  | O => Raise RecursionError
  | S frames' =>
      match h !! node ≫= children with
      | None => Raise AttributeError
      | Some [] => Ok current_depth                      (* if not node.children *)
      | Some cs =>
          (fix over_children (cs : list loc) (max_child_depth : Z) : result Z :=
             match cs with
             | [] => Ok max_child_depth
             | child :: cs' =>
                 match _calculate_depth_recursive frames' h child (current_depth + 1) with
                 | Ok child_depth => over_children cs' (Z.max max_child_depth child_depth)
                 | other => other
                 end
             end) cs current_depth
      end
  end.

(** The body of [_calculate_max_depth], which [get_tree_stats] calls. *)
Definition max_depth_of (w : World) : result Z :=
  match root_node (tree w) with
  | None => Ok 0%Z
  | Some root => _calculate_depth_recursive (frames_below 3) (nodes w) root 1
  end.

Definition _calculate_max_depth : M World Z :=
  fun w => (w, max_depth_of w).

(** The entries of the mapping [get_tree_stats] returns, the identifier and
    the two timestamps left out. *)
Record TreeStats : Type := {
  stats_node_count : Z;
  stats_has_root : bool;
  stats_max_depth : Z;
}.

Definition get_tree_stats : M World TreeStats :=
  let* t := read_tree in
  let* depth := _calculate_max_depth in
  ret {| stats_node_count := node_count t;
         stats_has_root := match root_node t with Some _ => true | None => false end;
         stats_max_depth := depth |}.

(** The nested mapping of [_node_to_dict]. *)
#[warning="-register-all"]
Inductive NodeDict : Type :=
| node_dict (d_message d_response : string) (d_children : list NodeDict)
    (d_response_segments : list SegmentDict)
with SegmentDict : Type :=
| segment_dict (d_content : string) (d_index : Z) (d_seg_children : list NodeDict).

(** [[f(x) for x in l]], stopping at the first element on which [f] raises. *)
Fixpoint comprehension {A B} (f : A -> result B) (l : list A) : result (list B) :=
  match l with
  | [] => Ok []
  | x :: l' =>
      match f x with
      | Ok y =>
          match comprehension f l' with
          | Ok ys => Ok (y :: ys)
          | Raise e => Raise e
          | OutOfFuel => OutOfFuel
          end
      | Raise e => Raise e
      | OutOfFuel => OutOfFuel
      end
  end.

Fixpoint _node_to_dict (frames : nat) (h : heap) (node : loc) : result NodeDict :=
  match frames with
  | O => Raise RecursionError
  | S inside =>
      match h !! node ≫= message with
      | None => Raise AttributeError
      | Some msg =>
          match h !! node ≫= response with
          | None => Raise AttributeError
          | Some rsp =>
              match h !! node ≫= children with
              | None => Raise AttributeError
              | Some cs =>
                  match inside with
                  | O => Raise RecursionError         (* the frame of the comprehension *)
                  | S in_comp =>
                      match comprehension (_node_to_dict in_comp h) cs with
                      | Ok kids =>
                          match h !! node ≫= response_segments with
                          | None => Ok (node_dict msg rsp kids [])   (* not hasattr *)
                          | Some segs =>
                              match comprehension
                                      (fun seg =>
                                         match in_comp with
                                         | O => Raise RecursionError   (* the inner one *)
                                         | S in_inner =>
                                             match comprehension (_node_to_dict in_inner h)
                                                     (seg_children seg) with
                                             | Ok seg_kids =>
                                                 Ok (segment_dict (seg_content seg)
                                                       (seg_index seg) seg_kids)
                                             | Raise e => Raise e
                                             | OutOfFuel => OutOfFuel
                                             end
                                         end) segs with
                              | Ok seg_dicts => Ok (node_dict msg rsp kids seg_dicts)
                              | Raise e => Raise e
                              | OutOfFuel => OutOfFuel
                              end
                          end
                      | Raise e => Raise e
                      | OutOfFuel => OutOfFuel
                      end
                  end
              end
          end
      end
  end.

(** The entries of the mapping [to_dict] returns, the identifier and the two
    timestamps left out. *)
Record TreeDict : Type := {
  dict_node_count : Z;
  dict_root_node : option NodeDict;
}.

(** [Tree.to_dict]: the helper is called below the script and the method. *)
Definition to_dict : M World TreeDict :=
  fun w =>
    match root_node (tree w) with
    | None => (w, Ok {| dict_node_count := node_count (tree w); dict_root_node := None |})
    | Some root =>
        match _node_to_dict (frames_below 2) (nodes w) root with
        | Ok d => (w, Ok {| dict_node_count := node_count (tree w);
                            dict_root_node := Some d |})
        | Raise e => (w, Raise e)
        | OutOfFuel => (w, OutOfFuel)
        end
    end.

(** ** Vocabulary of the statements *)

(** A node as the three creating operations leave it: message, response
    and parent assigned, nothing else. *)
Definition fresh (msg rsp : string) (p : option loc) : Node :=
  {| _id := None; message := Some msg; response := Some rsp;
     response_segments := None; parent := p; children := None |}.

Definition mkseg (p : Z * string) : ResponseSegment :=
  {| seg_content := snd p; seg_index := fst p; seg_children := [] |}.

(** The segments [_segment_response] builds for a response string. *)
Definition segments_for (rsp : string) : list ResponseSegment :=
  List.map mkseg (enumerate (stripped_lines rsp)).

(** Joining the pieces of [s.split(sep)] with [sep] gives [s] back: the
    pieces are the lines of [s]. *)
Fixpoint join (sep : ascii) (pieces : list string) : string :=
  match pieces with
  | [] => EmptyString
  | [p] => p
  | p :: ps => p +:+ String sep (join sep ps)
  end.

Definition python_text : string :=
  "Python is a high-level programming language." +:+ String NL (String NL (String NL
  ("It's known for its simple syntax and readability." +:+ String NL (String NL
   "Python supports multiple programming paradigms.")))).

Definition python_root : Node :=
  {| _id := None; message := Some "Tell me about Python programming.";
     response := Some python_text; response_segments := None;
     parent := None; children := None |}.

(** The segmented root of [main.py], given an identifier. *)
Definition demo_root : Node :=
  set__id "root" (set_response_segments (segments_for python_text) python_root).

(** The script of [main.py]: a root, segmented by hand, and one child
    attached to its second segment. *)
Definition main_py : M heap (loc * loc) :=
  let* root := Node_new in
  setattr (set_message "Tell me about Python programming.") root ;;;
  setattr (set_response python_text) root ;;;
  _segment_response root ;;;
  let* child1 := add_segment_specific_child root 1
                   "You are an assistant. What makes Python's syntax simple?"
                   "Python's syntax is simple because it uses indentation..." in
  ret (root, child1).

Definition main_heap : heap := fst (main_py []).

(** A tree whose root has one child on its second segment, every node
    carrying an identifier and a list of children, as a client that
    initialises those attributes itself would have it. *)
Definition segment_child_world : World :=
  fst ((create_root_node "Tell me about Python programming." python_text ;;;
        on_nodes (__post_init__ "root" 0%nat) ;;;
        on_nodes (setattr (set_children []) 0%nat) ;;;
        Tree_add_segment_specific_child "root" 1 "Why is it simple?" "Indentation." ;;;
        on_nodes (__post_init__ "child" 1%nat) ;;;
        on_nodes (setattr (set_children []) 1%nat)) init).

(** The entry a sentence gets when the classifier is asked with the flag set. *)
Definition unit_entry (classifier : string -> bool -> bool) (idx : string) : Entry :=
  if classifier idx true then entry "system" idx else entry "user" idx.

(** The sentences of a message, [re.split(r'(?<=[.!?]) +', message)]. *)
Definition units (msg : string) : list string := re_split false sentence_boundary msg.


(** A context whose first entry is not a user entry. *)
Definition head_not_user (context : list Entry) : Prop :=
  exists e rest, context = e :: rest /\ String.eqb (role e) "user" = false.

(** The attribute [attr] of the object at [o], when both exist. *)
Definition attr_at {A} (h : heap) (o : loc) (attr : Node -> option A) : option A :=
  match h !! o with Some n => attr n | None => None end.

(** [o.response_segments[i].children] *)
Definition seg_children_at (h : heap) (o : loc) (i : nat) : option (list loc) :=
  match attr_at h o response_segments with
  | Some segs => match segs !! i with Some seg => Some (seg_children seg) | None => None end
  | None => None
  end.

(** A decidable form of [well_formed]. *)
Definition node_ok (l : nat) (n : Node) : bool :=
  match message n, response n with
  | Some _, Some _ => match parent n with Some p => Nat.ltb p l | None => true end
  | _, _ => false
  end.

Fixpoint well_formed_from (l : nat) (h : heap) : bool :=
  match h with
  | [] => true
  | n :: h' => node_ok l n && well_formed_from (S l) h'
  end.

(** What the walk from [current] to the root appends, in the order of
    appending: per node the response, then the sentences of the message from
    the last to the first, each classified with the flag set. *)
Inductive walk_out (classifier : string -> bool -> bool) (h : heap)
    : option loc -> list Entry -> Prop :=
| walk_done : walk_out classifier h None []
| walk_node cur n rsp msg out :
    h !! cur = Some n -> response n = Some rsp -> message n = Some msg ->
    walk_out classifier h (parent n) out ->
    walk_out classifier h (Some cur)
      (entry "assistant" rsp :: List.map (unit_entry classifier) (rev (units msg)) ++ out).

(** Text made of whitespace only (the empty text included). *)
Fixpoint whitespace_only (s : string) : bool :=
  match s with
  | EmptyString => true
  | String c s' => isspace c && whitespace_only s'
  end.

(** C4 as the specification states it, for one text: the classifier
    returns SYSTEM exactly when the flag is set. *)
Definition follows_flag_alone (text : string) : Prop :=
  forall flag, is_probable_system_heuristic text flag = flag.

(** ** The six rules of the classifier, stated on the text *)

Fixpoint last_char (s : string) : option ascii :=
  match s with
  | EmptyString => None
  | String c s' => match last_char s' with Some d => Some d | None => Some c end
  end.

(** [s] begins with the phrase [w], whatever the case of the letters, and
    the phrase ends at a word boundary. *)
Definition phrase_at_start (w s : string) : Prop :=
  exists p rest, s = p +:+ rest /\ str_lower p = str_lower w
                 /\ isword_opt (first_char rest) = false.

(** [s] contains the phrase [w], whatever the case, between word boundaries. *)
Definition phrase_inside (w s : string) : Prop :=
  exists pre p rest, s = pre +:+ p +:+ rest /\ str_lower p = str_lower w
                     /\ isword_opt (last_char pre) = false
                     /\ isword_opt (first_char rest) = false.

(** [s] begins with [w], whatever the case of the letters. *)
Definition prefix_ci (w s : string) : Prop :=
  exists p rest, s = p +:+ rest /\ str_lower p = str_lower w.

(** [w] is the first whitespace-delimited token of the trimmed text [s]. *)
Definition first_token (w s : string) : Prop :=
  exists rest, s = w +:+ rest /\ w <> EmptyString
               /\ (forall c, contains c w = true -> isspace c = false)
               /\ (rest = EmptyString \/ exists c r, rest = String c r /\ isspace c = true).

(** The character [c] occurs in [s]. *)
Definition occurs (c : ascii) (s : string) : Prop :=
  exists pre rest, s = pre +:+ String c rest.

Definition rule_phrase (s : string) : Prop :=
  phrase_at_start "you are" s \/ phrase_at_start "you should" s
  \/ phrase_at_start "always" s \/ phrase_at_start "never" s
  \/ phrase_inside "make sure" s.

Definition rule_meta_tag (s : string) : Prop :=
  prefix_ci "[SYSTEM]" s \/ prefix_ci "##SYSTEM##" s \/ prefix_ci "(system)" s.

Definition rule_imperative (s : string) : Prop :=
  exists w, first_token w s /\ In (str_lower w) _IMPERATIVE_VERBS.

Definition rule_structure (text : string) : Prop :=
  occurs NL text \/ occurs ";" text.

Definition rule_position (s : string) : Prop :=
  ~ (exists p, s = p +:+ "?")
  /\ ~ (prefix_ci "hi" s \/ prefix_ci "hello" s \/ prefix_ci "hey" s).

(** [sub in s] *)
Fixpoint has_substring (sub s : string) : bool :=
  startswith sub s ||
  match s with
  | EmptyString => false
  | String _ s' => has_substring sub s'
  end.

(** The classifier as C3 words it in the specification; [true] is SYSTEM.
    Where the wording leaves a choice (trimming, what a greeting token is)
    it follows the program. *)
Definition classify_as_claimed (text : string) (is_before_first_user : bool) : bool :=
  let t := str_lower (strip text) in
  if startswith_any ["you are"; "you should"; "always"; "never"] t
     || has_substring "make sure" t then true                          (* rule 1 *)
  else if startswith_any ["[system]:"; "##system##"; "(system)"] t then true   (* rule 2 *)
  else if str_in (first_word_of (strip text)) _IMPERATIVE_VERBS then true      (* rule 3 *)
  else if contains NL text || contains ";" text then true                      (* rule 4 *)
  else if is_before_first_user
          && negb (endswith "?" (strip text))
          && negb (startswith_any ["hi"; "hello"; "hey"] t) then true           (* rule 5 *)
  else false.                                                                  (* rule 6 *)

(** What [lit w] consumes at a position: the position after [w]. *)
Fixpoint eat (ic : bool) (w : string) (prev : option ascii) (s : string)
    : option (option ascii * string) :=
  match w with
  | EmptyString => Some (prev, s)
  | String p w' =>
      match s with
      | String c s' => if chr_eq ic p c then eat ic w' (Some c) s' else None
      | EmptyString => None
      end
  end.

(** A path whose consecutive elements are linked by the parent reference
    of the later one. *)
Inductive linked (h : heap) : list loc -> Prop :=
| linked_nil : linked h []
| linked_one x : linked h [x]
| linked_cons x y rest :
    parent_of h y = Some x -> linked h (y :: rest) -> linked h (x :: y :: rest).

(** The calls a client can make on a tree and on the nodes it holds. *)
Inductive call : Type :=
| CreateRoot (user_message ai_response : string)
| AddChildNode (parent_node_id user_message ai_response : string)
| TreeAddSegmentChild (parent_node_id : string) (segment_index : Z)
    (user_message ai_response : string)
| NodeAddChild (self : loc) (msg rsp : string)
| NodeAddSegmentChild (self : loc) (segment_index : Z) (msg rsp : string)
| SegmentResponse (self : loc)
| PostInit (uuid : string) (self : loc).

(** The world a call leaves, whether it returns or raises. *)
Definition exec (c : call) (w : World) : World :=
  match c with
  | CreateRoot u a => fst (create_root_node u a w)
  | AddChildNode pid u a => fst (add_child_node pid u a w)
  | TreeAddSegmentChild pid i u a => fst (Tree_add_segment_specific_child pid i u a w)
  | NodeAddChild self m r => fst (on_nodes (add_child self m r) w)
  | NodeAddSegmentChild self i m r => fst (on_nodes (add_segment_specific_child self i m r) w)
  | SegmentResponse self => fst (on_nodes (_segment_response self) w)
  | PostInit uuid self => fst (on_nodes (__post_init__ uuid self) w)
  end.

(** A client can only call a method on a node that exists. *)
Definition valid_call (c : call) (w : World) : Prop :=
  match c with
  | NodeAddChild self _ _ | NodeAddSegmentChild self _ _ _
  | SegmentResponse self | PostInit _ self => (self < length (nodes w))%nat
  | _ => True
  end.

(** The worlds that calls build from an empty tree. *)
Inductive reachable : World -> Prop :=
| reachable_init : reachable init
| reachable_step w c : reachable w -> valid_call c w -> reachable (exec c w).

(** Exactly the root has no parent. *)
Definition root_is_the_orphan (w : World) : Prop :=
  forall l n, nodes w !! l = Some n -> (parent n = None <-> root_node (tree w) = Some l).

(** Every node has its message and response, and a parent allocated before it. *)
Definition well_formed (h : heap) : Prop :=
  forall l n, h !! l = Some n ->
    is_Some (message n) /\ is_Some (response n)
    /\ forall p, parent n = Some p -> (p < l)%nat.

(** The position after a consumed text [p]. *)
Definition after (p : string) (prev : option ascii) : option ascii :=
  match last_char p with Some c => Some c | None => prev end.

(** The character, if any, is an ASCII letter once lowered. *)
Definition letter_opt (o : option ascii) : bool :=
  match o with Some c => between 97 122 (code (lower c)) | None => false end.

(** A prefix of [s] without whitespace that stops at whitespace or at the end. *)
Definition token_prefix (w s : string) : Prop :=
  exists rest, s = w +:+ rest
               /\ (forall c, contains c w = true -> isspace c = false)
               /\ (rest = EmptyString \/ exists c r, rest = String c r /\ isspace c = true).

(** How a call may change the arena: some existing node is altered without
    touching its message, response or parent, and at most one node, with a
    parent among the existing nodes, is appended. *)
Definition keeps_links (f : Node -> Node) : Prop :=
  forall n, message (f n) = message n /\ response (f n) = response n
            /\ parent (f n) = parent n.

Inductive node_step (h : heap) : heap -> Prop :=
| step_same : node_step h h
| step_alter f o : keeps_links f -> node_step h (alter f o h)
| step_new f o msg rsp p :
    keeps_links f -> (p < length h)%nat ->
    node_step h (alter f o (h ++ [fresh msg rsp (Some p)])).

(** What a call does to the world: the root changes only when
    [create_root_node] succeeds; otherwise the arena takes a [node_step]. *)
Inductive world_step (w w' : World) : Prop :=
| ws_nodes :
    root_node (tree w') = root_node (tree w) ->
    node_step (nodes w) (nodes w') -> world_step w w'
| ws_root u a :
    root_node (tree w) = None ->
    root_node (tree w') = Some (length (nodes w)) ->
    nodes w' = nodes w ++ [fresh u a None] -> world_step w w'.

(** The invariant of the reachable worlds. *)
Definition tree_invariant (w : World) : Prop :=
  root_is_the_orphan w
  /\ well_formed (nodes w)
  /\ forall r, root_node (tree w) = Some r -> (r < length (nodes w))%nat.


(** ** Vocabulary of the further properties *)

(** The attribute writes of [_segment_response] and [__post_init__]. *)
Inductive writes : (Node -> Node) -> Prop :=
| writes_nothing : writes (fun n => n)
| writes_segments v : writes (set_response_segments v)
| writes_id v : writes (set__id v)
| writes_both f g : writes f -> writes g -> writes (f ∘ g).

(** No node has a list of children. *)
Definition never_indexed (h : heap) : Prop :=
  forall l n, h !! l = Some n -> children n = None.

(** The count of a tree against its arena: zero and no node without a
    root; with a root, at least one and at most the number of nodes. *)
Definition count_in_bounds (w : World) : Prop :=
  match root_node (tree w) with
  | None => nodes w = [] /\ node_count (tree w) = 0%Z
  | Some r =>
      r = 0%nat /\ (1 <= node_count (tree w) <= Z.of_nat (length (nodes w)))%Z
  end.

(** The effect of one call on a world where no node has a list of children:
    some attribute writes on one node, after at most one node was appended;
    the tree keeps its fields, or counts one node more, or gets its root. *)
Inductive call_effect (w w' : World) : Prop :=
| effect_nodes f o extra :
    writes f -> nodes w' = alter f o (nodes w ++ extra) ->
    extra = []
    \/ (exists m r p, extra = [fresh m r (Some p)] /\ (p < length (nodes w))%nat) ->
    tree w' = tree w -> call_effect w w'
| effect_count f o m r p root :
    writes f -> nodes w' = alter f o (nodes w ++ [fresh m r (Some p)]) ->
    root_node (tree w) = Some root ->
    tree w' = {| root_node := root_node (tree w);
                 node_count := (node_count (tree w) + 1)%Z |} ->
    call_effect w w'
| effect_root m r :
    nodes w' = nodes w ++ [fresh m r None] ->
    root_node (tree w) = None ->
    tree w' = {| root_node := Some (length (nodes w)); node_count := 1 |} ->
    call_effect w w'.

(** Every node has a list of children, whose members are nodes allocated
    after it: the state of a tree whose client assigns [children] itself. *)
Definition indexed (h : heap) : Prop :=
  forall l n, h !! l = Some n ->
    exists cs, children n = Some cs /\ Forall (fun c => (l < c < length h)%nat) cs.

(** A decidable form of [indexed]. *)
Fixpoint indexed_from (l len : nat) (h : heap) : bool :=
  match h with
  | [] => true
  | n :: h' =>
      match children n with
      | Some cs => forallb (fun c => Nat.ltb l c && Nat.ltb c len) cs
      | None => false
      end && indexed_from (S l) len h'
  end.

(** The first node of a list that carries the identifier. *)
Definition first_with_id (h : heap) (node_id : string) (l : list loc) : option loc :=
  List.find (fun o => match h !! o with Some n => has_id n node_id | None => false end) l.

(** The loops over [node.children] of the three recursive helpers, given
    what the recursive call returns on a child. *)
Definition search_over (rec : loc -> result (option loc)) : list loc -> result (option loc) :=
  fix go (cs : list loc) : result (option loc) :=
    match cs with
    | [] => Ok None
    | child :: cs' => match rec child with Ok None => go cs' | other => other end
    end.

Definition collect_over (rec : loc -> list loc -> result (list loc))
    : list loc -> list loc -> result (list loc) :=
  fix go (cs : list loc) (acc : list loc) : result (list loc) :=
    match cs with
    | [] => Ok acc
    | child :: cs' => match rec child acc with Ok acc' => go cs' acc' | other => other end
    end.

Definition depth_over (rec : loc -> result Z) : list loc -> Z -> result Z :=
  fix go (cs : list loc) (max_child_depth : Z) : result Z :=
    match cs with
    | [] => Ok max_child_depth
    | child :: cs' =>
        match rec child with
        | Ok child_depth => go cs' (Z.max max_child_depth child_depth)
        | other => other
        end
    end.

(** A tree with a root, two children and a grandchild, in which the client
    has given every node an identifier and a list of children. *)
Definition family_world : World :=
  fst ((create_root_node "Tell me about Python programming." python_text ;;;
        on_nodes (__post_init__ "root" 0%nat) ;;;
        on_nodes (setattr (set_children []) 0%nat) ;;;
        add_child_node "root" "Is it fast?" "Fast enough." ;;;
        on_nodes (__post_init__ "kid" 1%nat) ;;;
        on_nodes (setattr (set_children []) 1%nat) ;;;
        add_child_node "kid" "Why? Show me." "Because." ;;;
        on_nodes (__post_init__ "grandkid" 2%nat) ;;;
        on_nodes (setattr (set_children []) 2%nat) ;;;
        add_child_node "root" "Hi. Is it old?" "Since 1991." ;;;
        on_nodes (__post_init__ "kid" 3%nat) ;;;
        on_nodes (setattr (set_children []) 3%nat)) init).

(** The entries one node contributes to a transcript: the sentences of its
    message in order, each classified with the flag set, then its response. *)
Definition turn (h : heap) (o : loc) : list Entry :=
  match attr_at h o message, attr_at h o response with
  | Some msg, Some rsp =>
      List.map (unit_entry is_probable_system_heuristic) (units msg)
      ++ [entry "assistant" rsp]
  | _, _ => []
  end.

(** The characters of the look-behind of [sentence_boundary]. *)
Definition ends_sentence (c : ascii) : bool :=
  Ascii.eqb c "." || Ascii.eqb c "!" || Ascii.eqb c "?".

Definition ends_sentence_opt (o : option ascii) : bool :=
  match o with Some c => ends_sentence c | None => false end.

(** [s] without its leading spaces. *)
Fixpoint drop_spaces (s : string) : string :=
  match s with
  | EmptyString => EmptyString
  | String c s' => if Ascii.eqb c " " then drop_spaces s' else s
  end.

(** [s] without any of its spaces. *)
Fixpoint without_spaces (s : string) : string :=
  match s with
  | EmptyString => EmptyString
  | String c s' => if Ascii.eqb c " " then without_spaces s' else String c (without_spaces s')
  end.

(** The pieces put end to end. *)
Definition flatten (pieces : list string) : string :=
  fold_right String.append EmptyString pieces.

(** No space of [s] follows a character that ends a sentence; [prev] is the
    character before [s]. *)
Fixpoint boundary_free (prev : option ascii) (s : string) : bool :=
  match s with
  | EmptyString => true
  | String c s' =>
      negb (ends_sentence_opt prev && Ascii.eqb c " ") && boundary_free (Some c) s'
  end.

(** Every node has its message, its response and a list of children, and
    the children of a node and of its segments are nodes allocated after
    it. *)
Definition exportable (h : heap) : Prop :=
  forall l n, h !! l = Some n ->
    is_Some (message n) /\ is_Some (response n)
    /\ (exists cs, children n = Some cs /\ Forall (fun c => (l < c < length h)%nat) cs)
    /\ forall segs, response_segments n = Some segs ->
         Forall (fun seg => Forall (fun c => (l < c < length h)%nat) (seg_children seg)) segs.

(** A decidable form of [exportable]. *)
Fixpoint exportable_from (l len : nat) (h : heap) : bool :=
  match h with
  | [] => true
  | n :: h' =>
      match message n, response n, children n with
      | Some _, Some _, Some cs =>
          forallb (fun c => Nat.ltb l c && Nat.ltb c len) cs
          && match response_segments n with
             | None => true
             | Some segs =>
                 forallb (fun seg => forallb (fun c => Nat.ltb l c && Nat.ltb c len)
                                       (seg_children seg)) segs
             end
      | _, _, _ => false
      end && exportable_from (S l) len h'
  end.

(** A mapping mirrors a node: it carries the node's message and response,
    one mapping per child in order, and one entry per segment with the
    segment's content, index and one mapping per child of the segment; no
    entry when the node has no segments attribute. *)
#[warning="-register-all"]
Inductive mirrors (h : heap) : loc -> NodeDict -> Prop :=
| mirrors_plain node n msg rsp cs kids :
    h !! node = Some n -> message n = Some msg -> response n = Some rsp ->
    children n = Some cs -> Forall2 (mirrors h) cs kids ->
    response_segments n = None ->
    mirrors h node (node_dict msg rsp kids [])
| mirrors_segmented node n msg rsp cs kids segs seg_dicts :
    h !! node = Some n -> message n = Some msg -> response n = Some rsp ->
    children n = Some cs -> Forall2 (mirrors h) cs kids ->
    response_segments n = Some segs ->
    Forall2 (mirrors_segment h) segs seg_dicts ->
    mirrors h node (node_dict msg rsp kids seg_dicts)
with mirrors_segment (h : heap) : ResponseSegment -> SegmentDict -> Prop :=
| mirrors_seg seg seg_kids :
    Forall2 (mirrors h) (seg_children seg) seg_kids ->
    mirrors_segment h seg (segment_dict (seg_content seg) (seg_index seg) seg_kids).

(** What the lookup by identifier gives on a tree whose root has no list
    of children: nothing without a root, the root when it carries the
    identifier, [AttributeError] otherwise. *)
Definition lookup_at_root (w : World) (node_id : string) : result (option loc) :=
  match root_node (tree w) with
  | None => Ok None
  | Some root =>
      match attr_at (nodes w) root _id with
      | Some i => if String.eqb i node_id then Ok (Some root) else Raise AttributeError
      | None => Raise AttributeError
      end
  end.

(** The path to the node a lookup gives. *)
Definition path_at_root (w : World) (node_id : string) : result (list loc) :=
  match lookup_at_root w node_id with
  | Ok (Some root) => Ok [root]
  | Ok None => Ok []
  | Raise e => Raise e
  | OutOfFuel => OutOfFuel
  end.

(** The lines of a text: the pieces between its line feeds. *)
Definition lines_of (text : string) (lines : list string) : Prop :=
  join NL lines = text /\ lines <> [] /\ Forall (fun l => contains NL l = false) lines.

(** [c] is [line] without the whitespace around it. *)
Definition trimmed_of (line c : string) : Prop :=
  exists pre post,
    line = pre +:+ c +:+ post
    /\ whitespace_only pre = true /\ whitespace_only post = true
    /\ match first_char c with Some x => isspace x = false | None => True end
    /\ match last_char c with Some x => isspace x = false | None => True end.

(** The lines that are not blank, each trimmed, in their order. *)
Inductive trimmed_lines : list string -> list string -> Prop :=
| trimmed_nil : trimmed_lines [] []
| trimmed_blank line lines cs :
    whitespace_only line = true -> trimmed_lines lines cs ->
    trimmed_lines (line :: lines) cs
| trimmed_keep line lines c cs :
    whitespace_only line = false -> c <> EmptyString -> trimmed_of line c ->
    trimmed_lines lines cs ->
    trimmed_lines (line :: lines) (c :: cs).

(** * Properties *)

(** ** The string functions on known values *)

Example strip_example : strip "  a b  " = "a b".
Proof. reflexivity. Qed.

Example strip_line_break_example : strip (String NL (String "009" "x" +:+ String NL EmptyString)) = "x".
Proof. reflexivity. Qed.

Example split_example : split "ab  c d" = ["ab"; "c"; "d"].
Proof. reflexivity. Qed.

Example split_on_example :
  split_on NL ("a" +:+ String NL (String NL ("b" +:+ String NL EmptyString)))
  = ["a"; EmptyString; "b"; EmptyString].
Proof. reflexivity. Qed.

Example re_split_example :
  re_split false sentence_boundary "Hi.  How are you? I'm ok! yes. "
  = ["Hi."; "How are you?"; "I'm ok!"; "yes."; EmptyString].
Proof. vm_compute. reflexivity. Qed.

Example re_split_needs_space :
  re_split false sentence_boundary "a.b . c" = ["a.b ."; "c"]
  /\ re_split false sentence_boundary ("Hi." +:+ String "009" "Bye.")
     = ["Hi." +:+ String "009" "Bye."].
Proof. split; vm_compute; reflexivity. Qed.

Example re_search_example :
  re_search true _system_regex "Please MAKE SURE it works" = true
  /\ re_search true _system_regex "remake surely" = false
  /\ re_search true _system_regex "Always reply" = true
  /\ re_search true _system_regex "I always reply" = false.
Proof. repeat split; vm_compute; reflexivity. Qed.

Example re_match_example :
  re_match true _META_TAGS "(System) be brief" = true
  /\ re_match true _META_TAGS "x [SYSTEM]" = false.
Proof. split; vm_compute; reflexivity. Qed.

(** ** Running the monad *)

Lemma frames_below_S (callers : nat) :
  (callers <? recursion_limit)%nat = true -> exists f, frames_below callers = S f.
Proof.
  intros H. apply Nat.ltb_lt in H. unfold frames_below.
  destruct (recursion_limit - callers)%nat as [|f] eqn:E; [lia | eauto].
Qed.

Lemma bind_ok {S A B} (m : M S A) (f : A -> M S B) s s' a :
  m s = (s', Ok a) -> bind m f s = f a s'.
Proof. intros H. unfold bind. rewrite H. reflexivity. Qed.

Lemma bind_raise {S A B} (m : M S A) (f : A -> M S B) s s' e :
  m s = (s', Raise e) -> bind m f s = (s', Raise e).
Proof. intros H. unfold bind. rewrite H. reflexivity. Qed.

Lemma getattr_ok {A} (attr : Node -> option A) o (h : heap) n a :
  h !! o = Some n -> attr n = Some a -> getattr attr o h = (h, Ok a).
Proof. intros Hn Ha. unfold getattr. rewrite Hn, Ha. reflexivity. Qed.

Lemma getattr_missing {A} (attr : Node -> option A) o (h : heap) n :
  h !! o = Some n -> attr n = None -> getattr attr o h = (h, Raise AttributeError).
Proof. intros Hn Ha. unfold getattr. rewrite Hn, Ha. reflexivity. Qed.

Lemma alter_at (f : Node -> Node) o (h : heap) n :
  h !! o = Some n -> alter f o h = <[o := f n]> h.
Proof.
  revert o. induction h as [|x h IH]; intros [|o] Hn; simpl in *; try discriminate.
  - inversion Hn. reflexivity.
  - f_equal. apply IH. exact Hn.
Qed.

Lemma setattr_ok (f : Node -> Node) o (h : heap) n :
  h !! o = Some n -> setattr f o h = (<[o := f n]> h, Ok tt).
Proof. intros Hn. unfold setattr. f_equal. apply alter_at. exact Hn. Qed.

Lemma alter_fresh (f : Node -> Node) (h : heap) x :
  alter f (length h) (h ++ [x]) = h ++ [f x].
Proof.
  replace (length h) with (length h + 0)%nat by lia.
  rewrite alter_app_r. reflexivity.
Qed.


Lemma construct_run {A} msg rsp p (k : loc -> M heap A) (h : heap) :
  (let* child := Node_new in
   setattr (set_message msg) child ;;;
   setattr (set_response rsp) child ;;;
   setattr (set_parent p) child ;;;
   k child) h
  = k (length h) (h ++ [fresh msg rsp p]).
Proof.
  unfold bind, Node_new, setattr. simpl.
  rewrite !alter_fresh. reflexivity.
Qed.

(** ** Segmentation *)



Lemma set_response_segments_twice a b n :
  set_response_segments a (set_response_segments b n) = set_response_segments a n.
Proof. reflexivity. Qed.

Lemma set_response_segments_same a n :
  response_segments n = Some a -> set_response_segments a n = n.
Proof. destruct n; simpl; intros ->; reflexivity. Qed.

Lemma append_segment_run self segment (h : heap) n acc :
  h !! self = Some n -> response_segments n = Some acc ->
  append_segment self segment h
  = (<[self := set_response_segments (acc ++ [segment]) n]> h, Ok tt).
Proof.
  intros Hn Hacc. unfold append_segment.
  rewrite (bind_ok _ _ _ _ _ (getattr_ok response_segments _ _ _ _ Hn Hacc)).
  apply setattr_ok. exact Hn.
Qed.

Lemma append_segments_run self (l : list (Z * string)) :
  forall (h : heap) n acc,
    h !! self = Some n -> response_segments n = Some acc ->
    for_each l (fun '(idx, text) =>
      append_segment self {| seg_content := text; seg_index := idx; seg_children := [] |}) h
    = (<[self := set_response_segments (acc ++ List.map mkseg l) n]> h, Ok tt).
Proof.
  induction l as [|[idx text] l IH]; intros h n acc Hn Hacc; simpl.
  - rewrite app_nil_r, (set_response_segments_same _ _ Hacc).
    rewrite list_insert_id by exact Hn. reflexivity.
  - rewrite (bind_ok _ _ _ _ _ (append_segment_run self _ h n acc Hn Hacc)).
    pose proof (lookup_lt_Some _ _ _ Hn) as Hlt.
    rewrite (IH _ (set_response_segments (acc ++ [mkseg (idx, text)]) n)
               (acc ++ [mkseg (idx, text)])).
    + rewrite list_insert_insert_eq, set_response_segments_twice.
      rewrite <- app_assoc. reflexivity.
    + apply list_lookup_insert_eq. exact Hlt.
    + reflexivity.
Qed.

Lemma _segment_response_run self (h : heap) n rsp :
  h !! self = Some n -> response n = Some rsp ->
  _segment_response self h
  = (<[self := set_response_segments (segments_for rsp) n]> h, Ok tt).
Proof.
  intros Hn Hr. unfold _segment_response.
  pose proof (lookup_lt_Some _ _ _ Hn) as Hlt.
  rewrite (bind_ok _ _ _ _ _ (setattr_ok _ _ _ _ Hn)).
  assert (H1 : <[self := set_response_segments [] n]> h !! self
               = Some (set_response_segments [] n))
    by (apply list_lookup_insert_eq; exact Hlt).
  rewrite (bind_ok _ _ _ _ _ (getattr_ok response _ _ _ rsp H1 Hr)).
  rewrite (append_segments_run self _ _ _ [] H1 eq_refl).
  rewrite list_insert_insert_eq, set_response_segments_twice. reflexivity.
Qed.

Lemma map_snd_enumerate_from {A} (l : list A) : forall i, List.map snd (enumerate_from i l) = l.
Proof. induction l as [|x l IH]; intros i; simpl; [reflexivity | rewrite IH; reflexivity]. Qed.

Lemma map_fst_enumerate_from {A} (l : list A) :
  forall i : nat,
    List.map fst (enumerate_from (Z.of_nat i) l) = List.map Z.of_nat (seq i (length l)).
Proof.
  induction l as [|x l IH]; intros i; simpl; [reflexivity|].
  f_equal. replace (Z.of_nat i + 1)%Z with (Z.of_nat (S i)) by lia. apply IH.
Qed.

Lemma map_strip_filter (lines : list string) :
  List.map strip (List.filter (fun seg => nonempty (strip seg)) lines)
  = List.filter nonempty (List.map strip lines).
Proof.
  induction lines as [|l lines IH]; simpl; [reflexivity|].
  destruct (nonempty (strip l)); simpl; rewrite IH; reflexivity.
Qed.

Lemma rstrip_head c s :
  isspace c = false -> exists r, rstrip (String c s) = String c r.
Proof.
  intros Hc. simpl. destruct (rstrip s); rewrite ?Hc; eauto.
Qed.

Lemma rstrip_idem s : rstrip (rstrip s) = rstrip s.
Proof.
  induction s as [|c s IH]; simpl; [reflexivity|].
  destruct (rstrip s) as [|d r] eqn:E.
  - destruct (isspace c) eqn:Hc; simpl; [reflexivity | rewrite Hc; reflexivity].
  - simpl in *. rewrite IH. reflexivity.
Qed.

Lemma lstrip_shape s :
  lstrip s = EmptyString \/ exists c r, lstrip s = String c r /\ isspace c = false.
Proof.
  induction s as [|c s IH]; simpl; [left; reflexivity|].
  destruct (isspace c) eqn:Hc; [exact IH | right; eauto].
Qed.

Lemma strip_idem s : strip (strip s) = strip s.
Proof.
  unfold strip. destruct (lstrip_shape s) as [-> | (c & r & -> & Hc)]; [reflexivity|].
  destruct (rstrip_head c r Hc) as [r' E]. rewrite E.
  simpl lstrip. rewrite Hc. rewrite <- E. apply rstrip_idem.
Qed.

Lemma segments_for_content rsp :
  List.map seg_content (segments_for rsp)
  = List.filter nonempty (List.map strip (split_on NL rsp)).
Proof.
  unfold segments_for, enumerate. rewrite List.map_map.
  rewrite (List.map_ext (fun p => seg_content (mkseg p)) snd) by reflexivity.
  rewrite map_snd_enumerate_from. apply map_strip_filter.
Qed.

Lemma segments_for_index rsp :
  List.map seg_index (segments_for rsp)
  = List.map Z.of_nat (seq 0 (length (segments_for rsp))).
Proof.
  unfold segments_for, enumerate. rewrite List.map_map.
  rewrite (List.map_ext (fun p => seg_index (mkseg p)) fst) by reflexivity.
  rewrite List.length_map.
  assert (L : forall (l : list string) i, length (enumerate_from i l) = length l).
  { induction l as [|x l IH]; intros i; simpl; [reflexivity | rewrite IH; reflexivity]. }
  rewrite L. apply (map_fst_enumerate_from _ 0%nat).
Qed.

Lemma segments_for_shape rsp :
  Forall (fun seg => seg_children seg = []
                     /\ seg_content seg <> EmptyString
                     /\ strip (seg_content seg) = seg_content seg)
         (segments_for rsp).
Proof.
  assert (C : Forall (fun c => c <> EmptyString /\ strip c = c)
                     (List.map seg_content (segments_for rsp))).
  { rewrite segments_for_content. apply List.Forall_forall. intros c Hc.
    apply List.filter_In in Hc. destruct Hc as [Hin Hne].
    apply List.in_map_iff in Hin. destruct Hin as (l & <- & _).
    split; [intros E; rewrite E in Hne; discriminate | apply strip_idem]. }
  rewrite List.Forall_map in C.
  assert (K : Forall (fun seg => seg_children seg = []) (segments_for rsp)).
  { unfold segments_for. rewrite List.Forall_map. apply List.Forall_forall. reflexivity. }
  rewrite List.Forall_forall in *. intros seg Hin. split; [apply K | apply C]; exact Hin.
Qed.

Lemma segments_for_blank rsp :
  Forall (fun line => strip line = EmptyString) (split_on NL rsp) ->
  segments_for rsp = [].
Proof.
  intros Hb. apply List.map_eq_nil with (f := seg_content).
  rewrite segments_for_content.
  induction (split_on NL rsp) as [|l ls IH]; simpl; [reflexivity|].
  inversion Hb as [|? ? Hl Hls]; subst. rewrite Hl. simpl. apply IH. exact Hls.
Qed.


Lemma split_on_nonempty sep s : split_on sep s <> [].
Proof.
  destruct s as [|c s]; simpl; [discriminate|].
  destruct (Ascii.eqb c sep); [discriminate|].
  unfold push. destruct (split_on sep s); discriminate.
Qed.

Lemma join_split_on sep s : join sep (split_on sep s) = s.
Proof.
  induction s as [|c s IH]; [reflexivity|]. simpl split_on.
  destruct (Ascii.eqb_spec c sep) as [->|Hne].
  - pose proof (split_on_nonempty sep s) as Hn.
    destruct (split_on sep s) as [|p ps] eqn:E; [contradiction|].
    change (join sep (EmptyString :: p :: ps)) with (String sep (join sep (p :: ps))).
    rewrite IH. reflexivity.
  - pose proof (split_on_nonempty sep s) as Hn.
    destruct (split_on sep s) as [|p ps] eqn:E; [contradiction|].
    simpl push. destruct ps as [|q ps]; simpl in *; rewrite <- IH; reflexivity.
Qed.

Lemma split_on_no_sep sep s : Forall (fun line => contains sep line = false) (split_on sep s).
Proof.
  induction s as [|c s IH]; simpl.
  - constructor; [reflexivity | constructor].
  - destruct (Ascii.eqb c sep) eqn:E.
    + constructor; [reflexivity | exact IH].
    + pose proof (split_on_nonempty sep s) as Hn.
      destruct (split_on sep s) as [|p ps]; [contradiction|]. simpl.
      inversion IH; subst. constructor; [simpl; rewrite E; assumption | assumption].
Qed.

Lemma lstrip_whitespace_only s : whitespace_only s = true -> lstrip s = EmptyString.
Proof.
  induction s as [|c s IH]; simpl; [reflexivity|].
  intros H. apply andb_prop in H. destruct H as [Hc Hs]. rewrite Hc. apply IH, Hs.
Qed.

Lemma strip_whitespace_only s : whitespace_only s = true -> strip s = EmptyString.
Proof. intros H. unfold strip. rewrite (lstrip_whitespace_only s H). reflexivity. Qed.

Lemma whitespace_only_app a b :
  whitespace_only (a +:+ b) = whitespace_only a && whitespace_only b.
Proof.
  induction a as [|c a IH]; [reflexivity|].
  change (String c a +:+ b) with (String c (a +:+ b)). simpl. rewrite IH.
  apply andb_assoc.
Qed.

Lemma lstrip_decompose s :
  exists pre, s = pre +:+ lstrip s /\ whitespace_only pre = true.
Proof.
  induction s as [|c s (pre & E & Hpre)]; [exists EmptyString; split; reflexivity|].
  simpl. destruct (isspace c) eqn:Hc.
  - exists (String c pre). split.
    + change (String c pre +:+ lstrip s) with (String c (pre +:+ lstrip s)).
      rewrite <- E. reflexivity.
    + simpl. rewrite Hc, Hpre. reflexivity.
  - exists EmptyString. split; reflexivity.
Qed.

Lemma rstrip_decompose s :
  exists post, s = rstrip s +:+ post /\ whitespace_only post = true.
Proof.
  induction s as [|c s (post & E & Hpost)]; [exists EmptyString; split; reflexivity|].
  simpl. destruct (rstrip s) as [|d r] eqn:Er.
  - change (EmptyString +:+ post) with post in E. subst post.
    destruct (isspace c) eqn:Hc.
    + exists (String c s). split; [reflexivity|]. simpl. rewrite Hc, Hpost. reflexivity.
    + exists s. split; [reflexivity | exact Hpost].
  - exists post. split; [|exact Hpost].
    change (String c (String d r) +:+ post) with (String c (String d r +:+ post)).
    rewrite <- E. reflexivity.
Qed.

(** C5.  Segmentation of a node's response.  Running [_segment_response] on
    a node whose response is [rsp] stores a segment list [segs] such that:
    the contents are exactly the non-empty trimmed lines of [rsp], in order
    -- the lines being the pieces of [rsp] between its line feeds, a line
    that is all whitespace giving no segment, and every other line giving
    the segment that is the line without the whitespace at its two ends;
    the indices are 0, 1, ..., k-1; every segment has no children, and a
    content that is non-empty and already trimmed; a response whose lines
    are all blank gives the empty list (and no error); and segmenting again
    yields the very same state. *)
Theorem segmentation_engine (h : heap) (self : loc) (n : Node) (rsp : string) :
  h !! self = Some n ->
  response n = Some rsp ->
  exists segs,
    _segment_response self h = (<[self := set_response_segments segs n]> h, Ok tt)
    /\ List.map seg_content segs
       = List.filter nonempty (List.map strip (split_on NL rsp))
    /\ (exists lines,
          lines_of rsp lines /\ trimmed_lines lines (List.map seg_content segs))
    /\ List.map seg_index segs = List.map Z.of_nat (seq 0 (length segs))
    /\ Forall (fun seg => seg_children seg = []
                          /\ seg_content seg <> EmptyString
                          /\ strip (seg_content seg) = seg_content seg) segs
    /\ (Forall (fun line => strip line = EmptyString) (split_on NL rsp) -> segs = [])
    /\ (forall lines, lines_of rsp lines ->
          Forall (fun line => whitespace_only line = true) lines -> segs = [])
    /\ _segment_response self (<[self := set_response_segments segs n]> h)
       = (<[self := set_response_segments segs n]> h, Ok tt).
Proof.
  intros Hn Hr. exists (segments_for rsp).
  split; [apply _segment_response_run; assumption|].
  split; [apply segments_for_content|].
  split.
  { exists (split_on NL rsp). split.
    - (* the pieces of [split_on] are the lines *)
      split; [apply join_split_on|]. split; [apply split_on_nonempty|].
      clear. induction rsp as [|c s IH]; simpl.
      + constructor; [reflexivity | constructor].
      + destruct (Ascii.eqb c NL) eqn:E; [constructor; [reflexivity | exact IH]|].
        pose proof (split_on_nonempty NL s) as Hne.
        destruct (split_on NL s) as [|p ps]; [contradiction|]. simpl.
        inversion IH; subst. constructor; [simpl; rewrite E; assumption | assumption].
    - (* [strip] removes the whitespace at both ends and leaves none there *)
      assert (Last : forall s,
                match last_char (rstrip s) with
                | Some x => isspace x = false
                | None => True
                end).
      { clear. induction s as [|c s IH]; simpl; [exact I|].
        destruct (rstrip s) as [|d r] eqn:Er.
        - destruct (isspace c) eqn:Hc; simpl; [exact I | exact Hc].
        - change (last_char (String c (String d r)))
            with (match last_char (String d r) with Some x => Some x | None => Some c end).
          destruct (last_char (String d r)) as [x|] eqn:El; [exact IH|].
          simpl in El. destruct (last_char r); discriminate. }
      assert (First : forall s,
                match first_char (rstrip (lstrip s)) with
                | Some x => isspace x = false
                | None => True
                end).
      { clear. induction s as [|c s IH]; simpl; [exact I|].
        destruct (isspace c) eqn:Hc; [exact IH|].
        simpl. destruct (rstrip s); [rewrite Hc|]; exact Hc. }
      assert (Trim : forall s, trimmed_of s (strip s)).
      { intros s. destruct (lstrip_decompose s) as (pre & E1 & Hpre).
        destruct (rstrip_decompose (lstrip s)) as (post & E2 & Hpost).
        exists pre, post. fold (strip s) in E2. split; [rewrite <- E2; exact E1|].
        split; [exact Hpre|]. split; [exact Hpost|]. split; [apply First | apply Last]. }
      rewrite segments_for_content, <- map_strip_filter.
      generalize (split_on NL rsp) as lines. clear - Trim.
      induction lines as [|line lines IH]; [constructor|]. simpl.
      destruct (strip line) as [|c r] eqn:E; simpl.
      + apply trimmed_blank; [|exact IH].
        destruct (Trim line) as (pre & post & Es & Hpre & Hpost & _).
        rewrite E in Es. change (EmptyString +:+ post) with post in Es.
        rewrite Es, whitespace_only_app, Hpre, Hpost. reflexivity.
      + rewrite E. apply trimmed_keep; [| discriminate | rewrite <- E; apply Trim | exact IH].
        destruct (whitespace_only line) eqn:Hw; [|reflexivity].
        rewrite (strip_whitespace_only line Hw) in E. discriminate. }
  split; [apply segments_for_index|].
  split; [apply segments_for_shape|].
  split; [apply segments_for_blank|].
  split.
  { intros lines (Hjoin & Hne & Hno) Hblank. apply segments_for_blank.
    assert (Plain : forall c, contains NL c = false -> split_on NL c = [c]).
    { induction c as [|x c IHc]; [reflexivity|]. simpl. intros Hc.
      apply orb_false_elim in Hc. destruct Hc as [Hx Hc]. rewrite Hx, (IHc Hc).
      reflexivity. }
    assert (App : forall c rest, contains NL c = false ->
              split_on NL (c +:+ String NL rest) = c :: split_on NL rest).
    { induction c as [|x c IHc]; intros rest Hc; [reflexivity|].
      simpl in Hc. apply orb_false_elim in Hc. destruct Hc as [Hx Hc].
      change (String x c +:+ String NL rest) with (String x (c +:+ String NL rest)).
      cbn [split_on]. rewrite Hx, (IHc rest Hc). reflexivity. }
    assert (El : split_on NL rsp = lines).
    { rewrite <- Hjoin. clear Hjoin Hblank.
      induction lines as [|c cs IH]; [contradiction|].
      inversion Hno as [|? ? Hc Hcs]; subst.
      destruct cs as [|d cs]; [apply Plain; exact Hc|].
      change (join NL (c :: d :: cs)) with (c +:+ String NL (join NL (d :: cs))).
      rewrite (App _ _ Hc), (IH ltac:(discriminate) Hcs). reflexivity. }
    rewrite El. eapply List.Forall_impl; [|exact Hblank].
    simpl. intros line Hw. apply strip_whitespace_only. exact Hw. }
  pose proof (lookup_lt_Some _ _ _ Hn) as Hlt.
  rewrite (_segment_response_run self _ (set_response_segments (segments_for rsp) n) rsp).
  - rewrite list_insert_insert_eq, set_response_segments_twice. reflexivity.
  - apply list_lookup_insert_eq. exact Hlt.
  - exact Hr.
Qed.

Lemma segmentation_engine_witness :
  exists segs,
    _segment_response 0 [python_root]
    = (<[0%nat := set_response_segments segs python_root]> [python_root], Ok tt)
    /\ List.map seg_content segs
       = List.filter nonempty (List.map strip (split_on NL python_text))
    /\ (exists lines,
          lines_of python_text lines /\ trimmed_lines lines (List.map seg_content segs))
    /\ List.map seg_index segs = List.map Z.of_nat (seq 0 (length segs))
    /\ Forall (fun seg => seg_children seg = []
                          /\ seg_content seg <> EmptyString
                          /\ strip (seg_content seg) = seg_content seg) segs
    /\ (Forall (fun line => strip line = EmptyString) (split_on NL python_text) -> segs = [])
    /\ (forall lines, lines_of python_text lines ->
          Forall (fun line => whitespace_only line = true) lines -> segs = [])
    /\ _segment_response 0 (<[0%nat := set_response_segments segs python_root]> [python_root])
       = (<[0%nat := set_response_segments segs python_root]> [python_root], Ok tt).
Proof.
  apply (segmentation_engine [python_root] 0 python_root python_text); reflexivity.
Defined.

(** The end-to-end scenario of the specification: three segments, indexed
    0, 1, 2, holding the three non-blank lines. *)
Example segments_of_python_text :
  segments_for python_text
  = [ {| seg_content := "Python is a high-level programming language.";
         seg_index := 0; seg_children := [] |};
      {| seg_content := "It's known for its simple syntax and readability.";
         seg_index := 1; seg_children := [] |};
      {| seg_content := "Python supports multiple programming paradigms.";
         seg_index := 2; seg_children := [] |} ].
Proof. vm_compute. reflexivity. Qed.

(** ** Segment-scoped children *)

Lemma add_segment_specific_child_out_of_range (h : heap) self n segs i msg rsp :
  h !! self = Some n ->
  response_segments n = Some segs ->
  (i < 0 \/ Z.of_nat (length segs) <= i)%Z ->
  add_segment_specific_child self i msg rsp h = (h, Raise IndexError).
Proof.
  intros Hn Hs Hout. unfold add_segment_specific_child.
  destruct (0 <=? i)%Z eqn:E1; [|reflexivity].
  unfold bind at 1.
  rewrite (bind_ok _ _ _ _ _ (getattr_ok response_segments _ _ _ _ Hn Hs)).
  unfold ret at 1.
  destruct (i <? Z.of_nat (length segs))%Z eqn:E2; [|reflexivity].
  apply Z.leb_le in E1. apply Z.ltb_lt in E2. lia.
Qed.

Lemma add_segment_specific_child_in_range (h : heap) self n segs i msg rsp :
  h !! self = Some n ->
  response_segments n = Some segs ->
  (0 <= i < Z.of_nat (length segs))%Z ->
  exists seg,
    segs !! Z.to_nat i = Some seg
    /\ add_segment_specific_child self i msg rsp h
       = (<[self := set_response_segments
                      (<[Z.to_nat i := append_seg_child (length h) seg]> segs) n]>
            (h ++ [fresh msg rsp (Some self)]),
          Ok (length h)).
Proof.
  intros Hn Hs Hin.
  destruct (lookup_lt_is_Some_2 segs (Z.to_nat i)) as [seg Hseg]; [lia|].
  exists seg. split; [exact Hseg|].
  unfold add_segment_specific_child.
  replace (0 <=? i)%Z with true by (symmetry; apply Z.leb_le; lia).
  unfold bind at 1.
  rewrite (bind_ok _ _ _ _ _ (getattr_ok response_segments _ _ _ _ Hn Hs)).
  unfold ret at 1.
  replace (i <? Z.of_nat (length segs))%Z with true by (symmetry; apply Z.ltb_lt; lia).
  rewrite construct_run.
  assert (Hn' : (h ++ [fresh msg rsp (Some self)]) !! self = Some n)
    by (apply lookup_app_l_Some; exact Hn).
  rewrite (bind_ok _ _ _ _ _ (getattr_ok response_segments _ _ _ _ Hn' Hs)).
  rewrite Hseg.
  rewrite (bind_ok _ _ _ _ _ (setattr_ok _ _ _ _ Hn')).
  reflexivity.
Qed.

Lemma find_node_run (w : World) pid r :
  find_node w pid = r -> _find_node_by_id pid w = (w, r).
Proof. intros <-. reflexivity. Qed.

Lemma add_segment_specific_child_missing self i msg rsp (h : heap) n :
  h !! self = Some n -> response_segments n = None ->
  add_segment_specific_child self i msg rsp h
  = (h, Raise (if (0 <=? i)%Z then AttributeError else IndexError)).
Proof.
  intros Hn Hs. unfold add_segment_specific_child.
  destruct (0 <=? i)%Z; [|reflexivity].
  unfold bind at 1.
  rewrite (bind_raise _ _ _ _ _ (getattr_missing response_segments _ _ _ Hn Hs)).
  reflexivity.
Qed.

(** C7.  [add_segment_specific_child] on a node of the arena.

    On a node that has no segments attribute, as every node is that the
    creating operations leave, no index is accepted: the call raises
    [AttributeError] for an index that is not negative and [IndexError] for
    a negative one, and leaves the arena as it was; through the tree the
    first propagates and the second gives [None].

    On a node that has segments, it raises [IndexError] exactly when the
    index lies outside [0, len(segments)), and then leaves the arena as it
    was; called through the tree, the failure leaves the whole world, node
    count included, as it was.  With an index in range it allocates one
    node (message, response and parent set) and returns it; the new node is
    appended to the children of the segment at that index; the other
    segments, the content and index of every segment, the other attributes
    of the parent and all other nodes are as before; through the tree the
    node count grows by one. *)
Theorem add_segment_child_contract (h : heap) (self : loc) (n : Node)
    (i : Z) (msg rsp : string) :
  h !! self = Some n ->
  match response_segments n with
  | None =>
      add_segment_specific_child self i msg rsp h
      = (h, Raise (if (0 <=? i)%Z then AttributeError else IndexError))
      /\ forall t pid,
           find_node {| tree := t; nodes := h |} pid = Ok (Some self) ->
           Tree_add_segment_specific_child pid i msg rsp {| tree := t; nodes := h |}
           = ({| tree := t; nodes := h |},
              if (0 <=? i)%Z then Raise AttributeError else Ok None)
  | Some segs =>
      (snd (add_segment_specific_child self i msg rsp h) = Raise IndexError
         <-> (i < 0 \/ Z.of_nat (length segs) <= i)%Z)
      /\ ((i < 0 \/ Z.of_nat (length segs) <= i)%Z ->
          add_segment_specific_child self i msg rsp h = (h, Raise IndexError)
          /\ forall t pid,
               find_node {| tree := t; nodes := h |} pid = Ok (Some self) ->
               Tree_add_segment_specific_child pid i msg rsp {| tree := t; nodes := h |}
               = ({| tree := t; nodes := h |}, Ok None))
      /\ ((0 <= i < Z.of_nat (length segs))%Z ->
          exists seg h' n' segs',
            segs !! Z.to_nat i = Some seg
            /\ add_segment_specific_child self i msg rsp h = (h', Ok (length h))
            /\ length h' = S (length h)
            /\ h' !! length h = Some (fresh msg rsp (Some self))
            /\ (forall l, l <> self -> (l < length h)%nat -> h' !! l = h !! l)
            /\ h' !! self = Some n'
            /\ _id n' = _id n /\ message n' = message n /\ response n' = response n
            /\ parent n' = parent n /\ children n' = children n
            /\ response_segments n' = Some segs'
            /\ length segs' = length segs
            /\ segs' !! Z.to_nat i
               = Some {| seg_content := seg_content seg; seg_index := seg_index seg;
                         seg_children := seg_children seg ++ [length h] |}
            /\ (forall j, j <> Z.to_nat i -> segs' !! j = segs !! j)
            /\ forall t pid,
                 find_node {| tree := t; nodes := h |} pid = Ok (Some self) ->
                 Tree_add_segment_specific_child pid i msg rsp {| tree := t; nodes := h |}
                 = ({| tree := {| root_node := root_node t;
                                  node_count := (node_count t + 1)%Z |};
                       nodes := h' |}, Ok (Some (length h))))
  end.
Proof.
  intros Hn. pose proof (lookup_lt_Some _ _ _ Hn) as Hlt.
  destruct (response_segments n) as [segs|] eqn:Hs.
  2:{ pose proof (add_segment_specific_child_missing self i msg rsp h n Hn Hs) as E.
      split; [exact E|]. intros t pid Hf. unfold Tree_add_segment_specific_child.
      rewrite (bind_ok _ _ _ _ _ (find_node_run _ _ _ Hf)).
      unfold try_except, bind, on_nodes. simpl. rewrite E.
      destruct (0 <=? i)%Z; reflexivity. }
  assert (Hout : (i < 0 \/ Z.of_nat (length segs) <= i)%Z ->
                 add_segment_specific_child self i msg rsp h = (h, Raise IndexError))
    by (apply add_segment_specific_child_out_of_range with (n := n); assumption).
  assert (Hin : (0 <= i < Z.of_nat (length segs))%Z -> _)
    by (apply add_segment_specific_child_in_range with (h := h) (self := self) (n := n)
          (msg := msg) (rsp := rsp); assumption).
  split; [|split].
  - split; [|intros Ho; rewrite (Hout Ho); reflexivity].
    intros Hr. destruct (Z_lt_dec i 0); [left; lia|].
    destruct (Z_le_dec (Z.of_nat (length segs)) i); [right; lia|].
    destruct Hin as (seg & _ & E); [lia|]. rewrite E in Hr. discriminate.
  - intros Ho. split; [apply Hout; exact Ho|].
    intros t pid Hf. unfold Tree_add_segment_specific_child.
    rewrite (bind_ok _ _ _ _ _ (find_node_run _ _ _ Hf)).
    unfold try_except, bind, on_nodes. simpl. rewrite (Hout Ho). reflexivity.
  - intros Hi. destruct (Hin Hi) as (seg & Hseg & E).
    pose proof (lookup_lt_Some _ _ _ Hseg) as Hk.
    exists seg,
      (<[self := set_response_segments
                   (<[Z.to_nat i := append_seg_child (length h) seg]> segs) n]>
         (h ++ [fresh msg rsp (Some self)])),
      (set_response_segments (<[Z.to_nat i := append_seg_child (length h) seg]> segs) n),
      (<[Z.to_nat i := append_seg_child (length h) seg]> segs).
    split; [exact Hseg|]. split; [exact E|].
    split; [rewrite length_insert, length_app; simpl; lia|].
    split; [rewrite list_lookup_insert_ne by lia; rewrite lookup_app_r by lia;
            rewrite Nat.sub_diag; reflexivity|].
    split; [intros l Hne Hl; rewrite list_lookup_insert_ne by
              (intros Eq; apply Hne; symmetry; exact Eq); apply lookup_app_l; exact Hl|].
    split; [apply list_lookup_insert_eq; rewrite length_app; simpl; lia|].
    repeat (split; [reflexivity|]).
    split; [apply length_insert|].
    split; [rewrite list_lookup_insert_eq by exact Hk; reflexivity|].
    split; [intros j Hj; apply list_lookup_insert_ne; intros Eq; apply Hj; symmetry;
            exact Eq|].
    intros t pid Hf. unfold Tree_add_segment_specific_child.
    rewrite (bind_ok _ _ _ _ _ (find_node_run _ _ _ Hf)).
    unfold try_except, bind, on_nodes, bump_node_count, read_tree, set_node_count, ret.
    simpl. rewrite E. reflexivity.
Qed.

Lemma add_segment_child_contract_witness :
  add_segment_specific_child 0 1 "Why?" "Because."
    (nodes (exec (CreateRoot "Tell me about Python programming." python_text) init))
  = (nodes (exec (CreateRoot "Tell me about Python programming." python_text) init),
     Raise AttributeError)
  /\ add_segment_specific_child 0 3 "Why?" "Because."
       (nodes (exec (SegmentResponse 0)
                 (exec (CreateRoot "Tell me about Python programming." python_text) init)))
     = (nodes (exec (SegmentResponse 0)
                 (exec (CreateRoot "Tell me about Python programming." python_text) init)),
        Raise IndexError)
  /\ exists h',
       add_segment_specific_child 0 1 "Why?" "Because."
         (nodes (exec (SegmentResponse 0)
                   (exec (CreateRoot "Tell me about Python programming." python_text) init)))
       = (h', Ok 1%nat)
       /\ h' !! 1%nat = Some (fresh "Why?" "Because." (Some 0%nat))
       /\ seg_children_at h' 0 1 = Some [1%nat]
       /\ seg_children_at h' 0 0 = Some []
       /\ seg_children_at h' 0 2 = Some [].
Proof.
  split; [|split].
  - apply (add_segment_child_contract
             (nodes (exec (CreateRoot "Tell me about Python programming." python_text) init))
             0%nat (fresh "Tell me about Python programming." python_text None)
             1 "Why?" "Because." eq_refl).
  - destruct (add_segment_child_contract
                (nodes (exec (SegmentResponse 0)
                          (exec (CreateRoot "Tell me about Python programming." python_text)
                             init)))
                0%nat
                (set_response_segments (segments_for python_text)
                   (fresh "Tell me about Python programming." python_text None))
                3 "Why?" "Because." eq_refl) as (_ & Hout & _).
    apply Hout. right. vm_compute. discriminate.
  - destruct (add_segment_child_contract
                (nodes (exec (SegmentResponse 0)
                          (exec (CreateRoot "Tell me about Python programming." python_text)
                             init)))
                0%nat
                (set_response_segments (segments_for python_text)
                   (fresh "Tell me about Python programming." python_text None))
                1 "Why?" "Because." eq_refl) as (_ & _ & Hin).
    destruct Hin as (seg & h' & n' & segs' & Hseg & Hrun & _ & Hnew & _ & Hself & _ & _ & _
                     & _ & _ & Hsegs & _ & Hk & Hother & _);
      [split; [lia | vm_compute; reflexivity]|].
    change (Z.to_nat 1) with 1%nat in Hseg, Hk, Hother.
    exists h'. split; [exact Hrun|]. split; [exact Hnew|].
    unfold seg_children_at, attr_at. rewrite Hself, Hsegs.
    split; [rewrite Hk; vm_compute in Hseg; inversion Hseg; subst seg; reflexivity|].
    split; [rewrite (Hother 0%nat) by discriminate; reflexivity
           | rewrite (Hother 2%nat) by discriminate; reflexivity].
Defined.

(** ** Root creation and the parent links *)

Lemma create_root_node_exists u a (w : World) r :
  root_node (tree w) = Some r ->
  create_root_node u a w = (w, Raise ValueError).
Proof.
  intros Hr. unfold create_root_node, bind, read_tree. rewrite Hr. reflexivity.
Qed.

Lemma create_root_node_fresh u a (w : World) :
  root_node (tree w) = None ->
  create_root_node u a w
  = ({| tree := {| root_node := Some (length (nodes w)); node_count := 1 |};
        nodes := nodes w ++ [fresh u a None] |},
     Ok (length (nodes w))).
Proof.
  intros Hr.
  unfold create_root_node, bind, read_tree, on_nodes, Node_new, setattr, set_root_node,
    set_node_count, ret.
  rewrite Hr. simpl. rewrite !alter_fresh. reflexivity.
Qed.

Lemma keeps_links_id : keeps_links (fun n => n).
Proof. intros n. auto. Qed.

Lemma keeps_links_compose f g : keeps_links f -> keeps_links g -> keeps_links (f ∘ g).
Proof.
  intros Hf Hg n. unfold compose.
  destruct (Hf (g n)) as (-> & -> & ->). apply Hg.
Qed.

Lemma keeps_links_segments v : keeps_links (set_response_segments v).
Proof. intros n. auto. Qed.

Lemma keeps_links_children v : keeps_links (set_children v).
Proof. intros n. auto. Qed.

Lemma keeps_links_id_attr v : keeps_links (set__id v).
Proof. intros n. auto. Qed.

Lemma step_append (h : heap) msg rsp p :
  (p < length h)%nat -> node_step h (h ++ [fresh msg rsp (Some p)]).
Proof.
  intros Hp.
  rewrite <- (list_alter_id (fun n => n) (h ++ [fresh msg rsp (Some p)]) 0) by reflexivity.
  apply step_new; [apply keeps_links_id | exact Hp].
Qed.

Lemma append_segment_alters self segment (h : heap) :
  exists f, keeps_links f /\ fst (append_segment self segment h) = alter f self h.
Proof.
  unfold append_segment, bind, getattr, setattr.
  destruct (h !! self) as [n|]; [destruct (response_segments n) as [segs|]|]; simpl.
  - eexists. split; [apply keeps_links_segments | reflexivity].
  - exists (fun n => n). split; [apply keeps_links_id|].
    rewrite list_alter_id by reflexivity. reflexivity.
  - exists (fun n => n). split; [apply keeps_links_id|].
    rewrite list_alter_id by reflexivity. reflexivity.
Qed.

Lemma for_each_alters self (l : list (Z * string)) :
  forall h : heap,
    exists f, keeps_links f /\
      fst (for_each l (fun '(idx, text) =>
             append_segment self
               {| seg_content := text; seg_index := idx; seg_children := [] |}) h)
      = alter f self h.
Proof.
  induction l as [|[idx text] l IH]; intros h; simpl.
  - exists (fun n => n). split; [apply keeps_links_id|].
    rewrite list_alter_id by reflexivity. reflexivity.
  - unfold bind at 1.
    destruct (append_segment_alters self
                {| seg_content := text; seg_index := idx; seg_children := [] |} h)
      as (g & Hg & E).
    destruct (append_segment self _ h) as [h' [[]|e|]]; simpl in E; subst h'.
    + destruct (IH (alter g self h)) as (f & Hf & E). rewrite E.
      exists (f ∘ g). split; [apply keeps_links_compose; assumption|].
      rewrite list_alter_alter_eq. reflexivity.
    + exists g. split; [exact Hg | reflexivity].
    + exists g. split; [exact Hg | reflexivity].
Qed.

Lemma _segment_response_alters self (h : heap) :
  exists f, keeps_links f /\ fst (_segment_response self h) = alter f self h.
Proof.
  unfold _segment_response. unfold bind at 1. unfold setattr at 1.
  unfold bind at 1. unfold getattr at 1.
  destruct (alter (set_response_segments []) self h !! self) as [n|] eqn:Hn.
  - destruct (response n) as [rsp|].
    + destruct (for_each_alters self (enumerate (stripped_lines rsp))
                  (alter (set_response_segments []) self h)) as (f & Hf & E).
      eexists. split; [|rewrite E; rewrite <- list_alter_alter_eq; reflexivity].
      apply keeps_links_compose; [exact Hf | apply keeps_links_segments].
    + exists (set_response_segments []). split; [apply keeps_links_segments | reflexivity].
  - exists (set_response_segments []). split; [apply keeps_links_segments | reflexivity].
Qed.

Lemma _segment_response_step self (h : heap) : node_step h (fst (_segment_response self h)).
Proof.
  destruct (_segment_response_alters self h) as (f & Hf & ->). apply step_alter, Hf.
Qed.

Lemma __post_init___step uuid self (h : heap) :
  node_step h (fst (__post_init__ uuid self h)).
Proof.
  unfold __post_init__. unfold bind at 1. unfold setattr at 1.
  destruct (_segment_response_alters self (alter (set__id uuid) self h)) as (f & Hf & E).
  destruct (_segment_response self (alter (set__id uuid) self h)) as [h' [|e|]];
    simpl in *; subst h'; rewrite list_alter_alter_eq;
    apply step_alter, keeps_links_compose; auto using keeps_links_id_attr.
Qed.

Lemma add_child_run self msg rsp (h : heap) n :
  h !! self = Some n ->
  add_child self msg rsp h
  = match children n with
    | Some cs =>
        (<[self := set_children (cs ++ [length h]) n]> (h ++ [fresh msg rsp (Some self)]),
         Ok (length h))
    | None => (h ++ [fresh msg rsp (Some self)], Raise AttributeError)
    end.
Proof.
  intros Hn. unfold add_child. rewrite construct_run.
  pose proof (lookup_lt_Some _ _ _ Hn) as Hlt.
  assert (Hc : (h ++ [fresh msg rsp (Some self)]) !! length h
               = Some (fresh msg rsp (Some self)))
    by (rewrite lookup_app_r by lia; rewrite Nat.sub_diag; reflexivity).
  rewrite (bind_ok _ _ _ _ _ (getattr_ok response _ _ _ rsp Hc eq_refl)).
  assert (Hn' : (h ++ [fresh msg rsp (Some self)]) !! self = Some n)
    by (apply lookup_app_l_Some; exact Hn).
  destruct (children n) as [cs|] eqn:Hcs.
  - rewrite (bind_ok _ _ _ _ _ (getattr_ok children _ _ _ _ Hn' Hcs)).
    rewrite (bind_ok _ _ _ _ _ (setattr_ok _ _ _ _ Hn')). reflexivity.
  - rewrite (bind_raise _ _ _ _ _ (getattr_missing children _ _ _ Hn' Hcs)). reflexivity.
Qed.

Lemma insert_as_alter (h : heap) o n (f : Node -> Node) :
  h !! o = Some n -> <[o := f n]> h = alter f o h.
Proof. intros Hn. symmetry. apply alter_at. exact Hn. Qed.

Lemma add_child_step self msg rsp (h : heap) :
  (self < length h)%nat -> node_step h (fst (add_child self msg rsp h)).
Proof.
  intros Hs. destruct (lookup_lt_is_Some_2 h self Hs) as [n Hn].
  rewrite (add_child_run self msg rsp h n Hn).
  destruct (children n) as [cs|]; simpl; [|apply step_append, Hs].
  rewrite insert_as_alter by (apply lookup_app_l_Some; exact Hn).
  apply step_new; [apply keeps_links_children | exact Hs].
Qed.

Lemma add_segment_specific_child_step self i msg rsp (h : heap) :
  (self < length h)%nat -> node_step h (fst (add_segment_specific_child self i msg rsp h)).
Proof.
  intros Hs. destruct (lookup_lt_is_Some_2 h self Hs) as [n Hn].
  destruct (response_segments n) as [segs|] eqn:Hsegs.
  - destruct (Z_lt_dec i 0) as [Hneg|Hnn];
      [rewrite (add_segment_specific_child_out_of_range h self n segs i msg rsp Hn Hsegs)
         by (left; exact Hneg); apply step_same|].
    destruct (Z_le_dec (Z.of_nat (length segs)) i) as [Hbig|Hsmall];
      [rewrite (add_segment_specific_child_out_of_range h self n segs i msg rsp Hn Hsegs)
         by (right; exact Hbig); apply step_same|].
    destruct (add_segment_specific_child_in_range h self n segs i msg rsp Hn Hsegs)
      as (seg & _ & ->); [lia|]. simpl.
    rewrite insert_as_alter by (apply lookup_app_l_Some; exact Hn).
    apply step_new; [apply keeps_links_segments | exact Hs].
  - rewrite (add_segment_specific_child_missing self i msg rsp h n Hn Hsegs).
    apply step_same.
Qed.

Lemma _search_node_recursive_valid fuel :
  forall (h : heap) node node_id l,
    _search_node_recursive fuel h node node_id = Ok (Some l) -> (l < length h)%nat.
Proof.
  induction fuel as [|fuel IH]; intros h node node_id l; simpl; [discriminate|].
  destruct (h !! node) as [n|] eqn:Hn; [|discriminate].
  destruct (has_id n node_id).
  - intros E. inversion E; subst. eapply lookup_lt_Some, Hn.
  - destruct (children n) as [cs|]; [|discriminate].
    induction cs as [|child cs IHcs]; [discriminate|].
    destruct (_search_node_recursive fuel h child node_id) as [[l'|]|e|] eqn:E;
      try discriminate.
    + intros E'. inversion E'; subst. eapply IH, E.
    + exact IHcs.
Qed.

Lemma find_node_valid (w : World) node_id l :
  find_node w node_id = Ok (Some l) -> (l < length (nodes w))%nat.
Proof.
  unfold find_node. destruct (root_node (tree w)); [|discriminate].
  apply _search_node_recursive_valid.
Qed.

Lemma on_nodes_run {A} (m : M heap A) (w : World) h' r :
  m (nodes w) = (h', r) -> on_nodes m w = ({| tree := tree w; nodes := h' |}, r).
Proof. intros E. unfold on_nodes. rewrite E. reflexivity. Qed.

Lemma construct_run_world {A} u a p (k : loc -> M World A) (w : World) :
  (let* child := on_nodes Node_new in
   on_nodes (setattr (set_message u) child) ;;;
   on_nodes (setattr (set_response a) child) ;;;
   on_nodes (setattr (set_parent p) child) ;;;
   k child) w
  = k (length (nodes w)) {| tree := tree w; nodes := nodes w ++ [fresh u a p] |}.
Proof.
  unfold bind, on_nodes, Node_new, setattr. simpl.
  rewrite !alter_fresh. reflexivity.
Qed.

Lemma add_child_node_run pid u a (w : World) p n :
  find_node w pid = Ok (Some p) ->
  nodes w !! p = Some n ->
  add_child_node pid u a w
  = match children n with
    | Some cs =>
        ({| tree := {| root_node := root_node (tree w);
                       node_count := (node_count (tree w) + 1)%Z |};
            nodes := <[p := set_children (cs ++ [length (nodes w)]) n]>
                       (nodes w ++ [fresh u a (Some p)]) |},
         Ok (Some (length (nodes w))))
    | None =>
        ({| tree := tree w; nodes := nodes w ++ [fresh u a (Some p)] |},
         Raise AttributeError)
    end.
Proof.
  intros Hf Hn. unfold add_child_node.
  rewrite (bind_ok _ _ _ _ _ (find_node_run _ _ _ Hf)).
  rewrite construct_run_world.
  assert (Hn' : (nodes w ++ [fresh u a (Some p)]) !! p = Some n)
    by (apply lookup_app_l_Some; exact Hn).
  set (w1 := {| tree := tree w; nodes := nodes w ++ [fresh u a (Some p)] |}).
  destruct (children n) as [cs|] eqn:Hcs.
  - rewrite (bind_ok _ _ _ _ _
               (on_nodes_run _ w1 _ _ (getattr_ok children _ _ _ _ Hn' Hcs))).
    rewrite (bind_ok _ _ _ _ _ (on_nodes_run _ w1 _ _ (setattr_ok _ _ _ _ Hn'))).
    reflexivity.
  - rewrite (bind_raise _ _ _ _ _
               (on_nodes_run _ w1 _ _ (getattr_missing children _ _ _ Hn' Hcs))).
    reflexivity.
Qed.

Lemma on_nodes_fst {A} (m : M heap A) (w : World) :
  fst (on_nodes m w) = {| tree := tree w; nodes := fst (m (nodes w)) |}.
Proof. unfold on_nodes. destruct (m (nodes w)). reflexivity. Qed.

Lemma exec_world_step c (w : World) : valid_call c w -> world_step w (exec c w).
Proof.
  destruct c as [u a|pid u a|pid i u a|self m r|self i m r|self|uuid self];
    simpl; intros Hv.
  - destruct (root_node (tree w)) as [r|] eqn:Hr.
    + rewrite (create_root_node_exists u a w r Hr). apply ws_nodes; [reflexivity | apply step_same].
    + rewrite (create_root_node_fresh u a w Hr). eapply ws_root; [exact Hr | reflexivity..].
  - destruct (find_node w pid) as [[p|]|e|] eqn:Hf.
    + pose proof (find_node_valid _ _ _ Hf) as Hp.
      destruct (lookup_lt_is_Some_2 _ _ Hp) as [n Hn].
      rewrite (add_child_node_run pid u a w p n Hf Hn).
      destruct (children n) as [cs|]; simpl; apply ws_nodes; simpl; try reflexivity.
      * rewrite insert_as_alter by (apply lookup_app_l_Some; exact Hn).
        apply step_new; [apply keeps_links_children | exact Hp].
      * apply step_append, Hp.
    + unfold add_child_node, bind, _find_node_by_id. rewrite Hf. simpl.
      apply ws_nodes; [reflexivity | apply step_same].
    + unfold add_child_node, bind, _find_node_by_id. rewrite Hf. simpl.
      apply ws_nodes; [reflexivity | apply step_same].
    + unfold add_child_node, bind, _find_node_by_id. rewrite Hf. simpl.
      apply ws_nodes; [reflexivity | apply step_same].
  - unfold Tree_add_segment_specific_child, bind at 1, _find_node_by_id.
    destruct (find_node w pid) as [[p|]|e|] eqn:Hf; simpl;
      try (apply ws_nodes; [reflexivity | apply step_same]).
    pose proof (find_node_valid _ _ _ Hf) as Hp.
    pose proof (add_segment_specific_child_step p i u a (nodes w) Hp) as Hstep.
    unfold try_except, bind, on_nodes, bump_node_count, read_tree, set_node_count, ret.
    destruct (add_segment_specific_child p i u a (nodes w)) as [h' [child|e|]];
      simpl in *; try (apply ws_nodes; [reflexivity | exact Hstep]).
    destruct e; simpl; apply ws_nodes; simpl; solve [reflexivity | exact Hstep].
  - rewrite on_nodes_fst. apply ws_nodes; [reflexivity|]. simpl. apply add_child_step, Hv.
  - rewrite on_nodes_fst. apply ws_nodes; [reflexivity|]. simpl.
    apply add_segment_specific_child_step, Hv.
  - rewrite on_nodes_fst. apply ws_nodes; [reflexivity|]. simpl.
    apply _segment_response_step.
  - rewrite on_nodes_fst. apply ws_nodes; [reflexivity|]. simpl.
    apply __post_init___step.
Qed.

Lemma lookup_alter_links (f : Node -> Node) o (h : heap) l n' :
  keeps_links f -> alter f o h !! l = Some n' ->
  exists n, h !! l = Some n /\ message n' = message n /\ response n' = response n
            /\ parent n' = parent n.
Proof.
  intros Hf. destruct (decide (o = l)) as [->|Hne].
  - rewrite list_lookup_alter_eq. destruct (h !! l) as [n|]; simpl; [|discriminate].
    intros E. inversion E; subst. exists n. split; [reflexivity | apply Hf].
  - rewrite list_lookup_alter_ne by exact Hne. intros E. exists n'. auto.
Qed.

Lemma lookup_snoc_cases (h : heap) x l n :
  (h ++ [x]) !! l = Some n -> h !! l = Some n \/ (l = length h /\ n = x).
Proof.
  intros E. apply lookup_app_Some in E. destruct E as [E|[Hle E]]; [left; exact E|].
  right. destruct (l - length h)%nat as [|k] eqn:Hk; simpl in E; [|destruct k; discriminate].
  inversion E; subst. split; [lia | reflexivity].
Qed.

Lemma node_step_links (h h' : heap) :
  node_step h h' ->
  forall l n', h' !! l = Some n' ->
    (exists n, h !! l = Some n /\ message n' = message n
               /\ response n' = response n /\ parent n' = parent n)
    \/ (l = length h /\ is_Some (message n') /\ is_Some (response n')
        /\ exists p, parent n' = Some p /\ (p < length h)%nat).
Proof.
  destruct 1 as [| f o Hf | f o msg rsp p Hf Hp]; intros l n' Hl.
  - left. eauto.
  - left. eapply lookup_alter_links; eassumption.
  - destruct (lookup_alter_links f o _ l n' Hf Hl) as (n & Hl' & Em & Er & Ep).
    destruct (lookup_snoc_cases _ _ _ _ Hl') as [Hold | [-> ->]].
    + left. eauto.
    + right. rewrite Em, Er, Ep. simpl. eauto 10.
Qed.

Lemma node_step_length (h h' : heap) :
  node_step h h' -> (length h <= length h')%nat.
Proof.
  destruct 1; rewrite ?length_alter, ?length_app; simpl; lia.
Qed.

Lemma world_step_invariant (w w' : World) :
  world_step w w' -> tree_invariant w -> tree_invariant w'.
Proof.
  intros Hstep (Horph & Hwf & Hroot).
  destruct Hstep as [Hr Hn | u a Hnone Hr Hn].
  - pose proof (node_step_links _ _ Hn) as Hlinks.
    pose proof (node_step_length _ _ Hn) as Hlen.
    split; [|split].
    + intros l n' Hl. rewrite Hr.
      destruct (Hlinks l n' Hl) as [(n & Hl' & _ & _ & ->) | (-> & _ & _ & p & -> & _)].
      * apply Horph. exact Hl'.
      * split; [discriminate|]. intros E. apply Hroot in E. lia.
    + intros l n' Hl.
      destruct (Hlinks l n' Hl) as [(n & Hl' & -> & -> & ->) | (-> & Hm & Hrs & p & -> & Hp)].
      * apply Hwf. exact Hl'.
      * split; [exact Hm|]. split; [exact Hrs|]. intros q E. inversion E; subst. exact Hp.
    + intros r E. rewrite Hr in E. apply Hroot in E. lia.
  - split; [|split].
    + intros l n Hl. rewrite Hr. rewrite Hn in Hl.
      destruct (lookup_snoc_cases _ _ _ _ Hl) as [Hold | [-> ->]].
      * pose proof (lookup_lt_Some _ _ _ Hold) as Hlt.
        split.
        -- intros E. apply (Horph l n Hold) in E. congruence.
        -- intros E. inversion E. lia.
      * simpl. split; reflexivity.
    + intros l n Hl. rewrite Hn in Hl.
      destruct (lookup_snoc_cases _ _ _ _ Hl) as [Hold | [-> ->]].
      * apply Hwf. exact Hold.
      * simpl. split; [eauto|]. split; [eauto|]. discriminate.
    + intros r E. rewrite Hr in E. inversion E. rewrite Hn, length_app. simpl. lia.
Qed.

Lemma reachable_invariant (w : World) : reachable w -> tree_invariant w.
Proof.
  induction 1 as [|w c _ IH Hv].
  - split; [|split].
    + intros l n Hl. destruct l; discriminate.
    + intros l n Hl. destruct l; discriminate.
    + intros r E. discriminate.
  - eapply world_step_invariant; [apply exec_world_step; exact Hv | exact IH].
Qed.

(** C8.  Root creation.  On a tree that has a root, [create_root_node]
    raises [ValueError] and the world is unchanged.  On a tree without a
    root it allocates one node, with the given message and response and no
    parent, makes it the root, sets the node count to one and returns it.
    In every world built by calls from the empty tree, a node has no parent
    exactly when it is the root, and the root is a node of the arena: so a
    tree with a root has exactly one node without a parent. *)
Theorem create_root_node_contract :
  (forall u a (w : World) r,
      root_node (tree w) = Some r ->
      create_root_node u a w = (w, Raise ValueError))
  /\ (forall u a (w : World),
        root_node (tree w) = None ->
        create_root_node u a w
        = ({| tree := {| root_node := Some (length (nodes w)); node_count := 1 |};
              nodes := nodes w ++ [fresh u a None] |},
           Ok (length (nodes w)))
        /\ parent (fresh u a None) = None)
  /\ (forall w : World,
        reachable w ->
        root_is_the_orphan w
        /\ forall r, root_node (tree w) = Some r ->
             exists n, nodes w !! r = Some n /\ parent n = None
                       /\ forall l n', nodes w !! l = Some n' -> parent n' = None -> l = r).
Proof.
  split; [|split].
  - apply create_root_node_exists.
  - intros u a w Hr. split; [apply create_root_node_fresh; exact Hr | reflexivity].
  - intros w Hw. destruct (reachable_invariant w Hw) as (Horph & _ & Hroot).
    split; [exact Horph|]. intros r Hr.
    destruct (lookup_lt_is_Some_2 _ _ (Hroot r Hr)) as [n Hn].
    exists n. split; [exact Hn|]. split; [apply (Horph r n Hn); exact Hr|].
    intros l n' Hl Hp. apply (Horph l n' Hl) in Hp. congruence.
Qed.

Lemma create_root_node_contract_witness :
  create_root_node "q" "a" init
    = ({| tree := {| root_node := Some 0%nat; node_count := 1 |};
          nodes := [fresh "q" "a" None] |}, Ok 0%nat)
  /\ create_root_node "again" "a" (exec (CreateRoot "q" "a") init)
     = (exec (CreateRoot "q" "a") init, Raise ValueError)
  /\ root_is_the_orphan (exec (CreateRoot "q" "a") init).
Proof.
  destruct create_root_node_contract as (Hexists & Hfresh & Hreach).
  split; [|split].
  - apply (Hfresh "q" "a" init). reflexivity.
  - apply (Hexists "again" "a" (exec (CreateRoot "q" "a") init) 0%nat). reflexivity.
  - apply Hreach. apply reachable_step; [apply reachable_init | exact I].
Defined.

(** ** Creation does not segment *)

(** C6.  The node a creating operation returns has a response and no
    segment list at all: the root made by [create_root_node], and the child
    made by [add_segment_specific_child] in the script of [main.py], whose
    responses segment into three lines and one line. *)
Theorem created_nodes_are_not_segmented :
  (forall u a (w : World),
      root_node (tree w) = None ->
      exists w' root n,
        create_root_node u a w = (w', Ok root)
        /\ nodes w' !! root = Some n
        /\ response n = Some a
        /\ response_segments n = None)
  /\ length (segments_for python_text) = 3%nat
  /\ attr_at main_heap 1 response
     = Some "Python's syntax is simple because it uses indentation..."
  /\ attr_at main_heap 1 response_segments = None
  /\ length (segments_for "Python's syntax is simple because it uses indentation...") = 1%nat.
Proof.
  split; [|repeat split; vm_compute; reflexivity].
  intros u a w Hr. rewrite (create_root_node_fresh u a w Hr).
  eexists _, _, (fresh u a None). split; [reflexivity|]. simpl.
  split; [|split; reflexivity].
  rewrite lookup_app_r by lia. rewrite Nat.sub_diag. reflexivity.
Qed.

(** ** Lookup by identifier *)

(** C9.  A node attached to a segment is a node of the tree (it is counted,
    its parent is the root, the second segment of the root lists it), yet
    the search by identifier does not find it and the listing leaves it
    out.  On the tree that [create_root_node] alone builds, the search
    raises [AttributeError], for any identifier. *)
Theorem segment_children_are_not_found :
  node_count (tree segment_child_world) = 2%Z
  /\ attr_at (nodes segment_child_world) 1 _id = Some "child"
  /\ parent_of (nodes segment_child_world) 1 = Some 0%nat
  /\ seg_children_at (nodes segment_child_world) 0 1 = Some [1%nat]
  /\ find_node segment_child_world "child" = Ok None
  /\ snd (get_all_nodes segment_child_world) = Ok [0%nat]
  /\ forall node_id,
       find_node (exec (CreateRoot "q" "a") init) node_id = Raise AttributeError.
Proof.
  repeat split; try (vm_compute; reflexivity).
Qed.

Lemma path_up_chain (h : heap) :
  well_formed h ->
  forall cur fuel acc,
    (cur < fuel)%nat -> (cur < length h)%nat -> linked h (cur :: acc) ->
    exists root pre front,
      path_up fuel h (Some cur) acc = Ok (root :: pre)
      /\ parent_of h root = None
      /\ linked h (root :: pre)
      /\ root :: pre = front ++ cur :: acc.
Proof.
  intros Hwf cur. induction cur as [cur IH] using lt_wf_ind.
  intros fuel acc Hfuel Hlt Hacc.
  destruct fuel as [|fuel]; [lia|]. cbn [path_up].
  destruct (parent_of h cur) as [p|] eqn:Hp.
  - assert (Hpc : (p < cur)%nat).
    { destruct (lookup_lt_is_Some_2 h cur Hlt) as [n Hn].
      unfold parent_of in Hp. rewrite Hn in Hp.
      destruct (Hwf cur n Hn) as (_ & _ & Hbelow). apply Hbelow. exact Hp. }
    destruct (IH p Hpc fuel (cur :: acc)) as (root & pre & front & E & Hroot & Hlink & Hfront);
      [lia | lia | apply linked_cons; assumption |].
    exists root, pre, (front ++ [p]). rewrite <- app_assoc. auto.
  - exists cur, acc, []. split; [destruct fuel; reflexivity | auto].
Qed.

(** The path query on an identifier that the search finds, in an arena
    where parents are allocated before their children: the path starts at a
    node without parent, ends at the node found, and each element is the
    parent of the next.  On an identifier that the search does not find, the
    path is empty. *)
Lemma get_conversation_path_found (w : World) node_id target :
  well_formed (nodes w) ->
  find_node w node_id = Ok (Some target) ->
  exists root pre front,
    get_conversation_path node_id w = (w, Ok (root :: pre))
    /\ parent_of (nodes w) root = None
    /\ linked (nodes w) (root :: pre)
    /\ root :: pre = front ++ [target].
Proof.
  intros Hwf Hf. pose proof (find_node_valid _ _ _ Hf) as Hlt.
  destruct (path_up_chain (nodes w) Hwf target (S (length (nodes w))) [])
    as (root & pre & front & E & Hroot & Hlink & Hfront);
    [lia | exact Hlt | apply linked_one |].
  exists root, pre, front. unfold get_conversation_path.
  rewrite (bind_ok _ _ _ _ _ (find_node_run _ _ _ Hf)). rewrite E. auto.
Qed.

Lemma get_conversation_path_absent (w : World) node_id :
  find_node w node_id = Ok None ->
  get_conversation_path node_id w = (w, Ok []).
Proof.
  intros Hf. unfold get_conversation_path.
  rewrite (bind_ok _ _ _ _ _ (find_node_run _ _ _ Hf)). reflexivity.
Qed.

(** C10.  On the tree that [create_root_node] alone builds, the path query
    raises [AttributeError] for an identifier that no node carries; and for
    the identifier of a node attached to a segment it returns the empty
    path, although that node and its parent link exist. *)
Theorem path_query_fails :
  snd (get_conversation_path "missing" (exec (CreateRoot "q" "a") init))
    = Raise AttributeError
  /\ attr_at (nodes segment_child_world) 1 _id = Some "child"
  /\ parent_of (nodes segment_child_world) 1 = Some 0%nat
  /\ snd (get_conversation_path "child" segment_child_world) = Ok []
  /\ snd (get_conversation_path "root" segment_child_world) = Ok [0%nat].
Proof.
  repeat split; vm_compute; reflexivity.
Qed.

(** ** The context builder *)

Lemma well_formed_from_spec (h : heap) :
  forall k, well_formed_from k h = true ->
    forall l n, h !! l = Some n -> node_ok (k + l) n = true.
Proof.
  induction h as [|x h IH]; intros k Hk l n Hl; [destruct l; discriminate|].
  simpl in Hk. apply andb_prop in Hk. destruct Hk as [Hx Hh].
  destruct l as [|l]; simpl in Hl.
  - inversion Hl; subst. rewrite Nat.add_0_r. exact Hx.
  - replace (k + S l)%nat with (S k + l)%nat by lia. eapply IH; eassumption.
Qed.

Lemma well_formed_check (h : heap) : well_formed_from 0 h = true -> well_formed h.
Proof.
  intros Hc l n Hl. pose proof (well_formed_from_spec h 0 Hc l n Hl) as Hok.
  simpl in Hok. unfold node_ok in Hok.
  destruct (message n); [|discriminate]. destruct (response n); [|discriminate].
  split; [eauto|]. split; [eauto|].
  intros p Hp. rewrite Hp in Hok. apply Nat.ltb_lt. exact Hok.
Qed.

Lemma reachable_well_formed (w : World) : reachable w -> well_formed (nodes w).
Proof. intros Hw. apply (reachable_invariant w Hw). Qed.

Section Walk.
Variable classifier : string -> bool -> bool.

Lemma head_not_user_app ctx more : head_not_user ctx -> head_not_user (ctx ++ more).
Proof. intros (e & rest & -> & He). exists e, (rest ++ more). auto. Qed.

Lemma classify_unit_flag_set ctx idx :
  head_not_user ctx ->
  classify_unit classifier ctx idx = ctx ++ [unit_entry classifier idx].
Proof.
  intros (e & rest & -> & He). unfold classify_unit, unit_entry. rewrite He.
  destruct (classifier idx true); reflexivity.
Qed.

Lemma fold_classify_units (us : list string) :
  forall ctx, head_not_user ctx ->
    fold_left (classify_unit classifier) us ctx
    = ctx ++ List.map (unit_entry classifier) us.
Proof.
  induction us as [|u us IH]; intros ctx Hctx; simpl.
  - rewrite app_nil_r. reflexivity.
  - rewrite (classify_unit_flag_set ctx u Hctx).
    rewrite IH by (apply head_not_user_app; exact Hctx).
    rewrite <- app_assoc. reflexivity.
Qed.

Lemma head_not_user_assistant ctx rsp :
  ctx = [] \/ head_not_user ctx -> head_not_user (ctx ++ [entry "assistant" rsp]).
Proof.
  intros [-> | H]; [|apply head_not_user_app; exact H].
  exists (entry "assistant" rsp), []. split; reflexivity.
Qed.

Lemma collect_walk_out (h : heap) current out :
  walk_out classifier h current out ->
  well_formed h ->
  forall fuel ctx,
    (forall c, current = Some c -> (c < fuel)%nat) ->
    ctx = [] \/ head_not_user ctx ->
    collect classifier fuel h current ctx = Ok (ctx ++ out).
Proof.
  intros Hwalk Hwf. induction Hwalk as [|cur n rsp msg out Hn Hr Hm Hwalk IH];
    intros fuel ctx Hfuel Hctx.
  - destruct fuel; simpl; rewrite app_nil_r; reflexivity.
  - destruct fuel as [|fuel]; [specialize (Hfuel cur eq_refl); lia|].
    simpl. rewrite Hn. simpl. rewrite Hr, Hm.
    pose proof (head_not_user_assistant ctx rsp Hctx) as Hhead.
    fold (units msg).
    rewrite (fold_classify_units _ _ Hhead).
    unfold parent_of. rewrite Hn.
    rewrite IH.
    + rewrite <- !app_assoc. reflexivity.
    + intros c Hc. destruct (Hwf cur n Hn) as (_ & _ & Hp).
      specialize (Hp c Hc). specialize (Hfuel cur eq_refl). lia.
    + right. apply head_not_user_app. exact Hhead.
Qed.

Lemma walk_out_exists (h : heap) :
  well_formed h ->
  forall cur, (cur < length h)%nat -> exists out, walk_out classifier h (Some cur) out.
Proof.
  intros Hwf cur. induction cur as [cur IH] using lt_wf_ind. intros Hlt.
  destruct (lookup_lt_is_Some_2 h cur Hlt) as [n Hn].
  destruct (Hwf cur n Hn) as ([msg Hm] & [rsp Hr] & Hp).
  destruct (parent n) as [p|] eqn:Ep.
  - destruct (IH p (Hp p eq_refl)) as [out Hout]; [specialize (Hp p eq_refl); lia|].
    eexists. eapply walk_node; try eassumption. rewrite Ep. exact Hout.
  - eexists. eapply walk_node; try eassumption. rewrite Ep. apply walk_done.
Qed.

Lemma get_context_with_walk_out (h : heap) self out :
  well_formed h ->
  walk_out classifier h (Some self) out ->
  (self < length h)%nat ->
  collect classifier (S (length h)) h (Some self) [] = Ok out
  /\ get_context_with classifier h self = Ok (rev out).
Proof.
  intros Hwf Hwalk Hlt.
  assert (E : collect classifier (S (length h)) h (Some self) [] = Ok out).
  { rewrite (collect_walk_out h (Some self) out Hwalk Hwf);
      [reflexivity | intros c Hc; inversion Hc; subst; lia | left; reflexivity]. }
  split; [exact E|]. unfold get_context_with. rewrite E. reflexivity.
Qed.

(** Whatever the arena, the classifier is only ever asked with the flag
    set: two classifiers that agree there build the same context. *)
Lemma collect_flag_set (other : string -> bool -> bool) :
  (forall t, classifier t true = other t true) ->
  forall fuel (h : heap) current ctx,
    ctx = [] \/ head_not_user ctx ->
    collect classifier fuel h current ctx = collect other fuel h current ctx.
Proof.
  intros Hagree fuel h. induction fuel as [|fuel IH]; intros current ctx Hctx;
    destruct current as [cur|]; simpl; try reflexivity.
  destruct (h !! cur ≫= response) as [rsp|]; [|reflexivity].
  destruct (h !! cur ≫= message) as [msg|]; [|reflexivity].
  pose proof (head_not_user_assistant ctx rsp Hctx) as Hhead.
  assert (E : forall us c, head_not_user c ->
            fold_left (classify_unit classifier) us c
            = fold_left (classify_unit other) us c /\
            head_not_user (fold_left (classify_unit classifier) us c)).
  { induction us as [|u us IHus]; intros c Hc; simpl; [auto|].
    destruct Hc as (e & rest & -> & He).
    assert (E1 : classify_unit classifier (e :: rest) u = classify_unit other (e :: rest) u)
      by (unfold classify_unit; rewrite He, Hagree; reflexivity).
    rewrite <- E1. apply IHus.
    rewrite classify_unit_flag_set by (exists e, rest; auto).
    exists e, (rest ++ [unit_entry classifier u]). auto. }
  destruct (E (rev (re_split false sentence_boundary msg)) _ Hhead) as [E1 E2].
  rewrite <- E1. apply IH. right. exact E2.
Qed.
End Walk.





(** C1.  The flag handed to the classifier is not a running boolean: it is
    set at every call.  Two classifiers that agree when the flag is set
    yield the same context on every arena.  In the script of [main.py] the
    walk from the child classifies "What makes Python's syntax simple?" as
    user, and later classifies the sentence of the root as system, which
    the classifier does only with the flag set. *)
Theorem flag_is_always_set :
  (forall (f g : string -> bool -> bool),
      (forall t, f t true = g t true) ->
      forall (h : heap) self, get_context_with f h self = get_context_with g h self)
  /\ get_context main_heap 1
     = Ok [ entry "system" "Tell me about Python programming.";
            entry "assistant" python_text;
            entry "system" "You are an assistant.";
            entry "user" "What makes Python's syntax simple?";
            entry "assistant" "Python's syntax is simple because it uses indentation..." ]
  /\ is_probable_system_heuristic "Tell me about Python programming." true = true
  /\ is_probable_system_heuristic "Tell me about Python programming." false = false.
Proof.
  split; [|repeat split; vm_compute; reflexivity].
  intros f g Hagree h self. unfold get_context_with.
  rewrite (collect_flag_set f g Hagree) by (left; reflexivity). reflexivity.
Qed.

(** ** The role classifier on blank text *)

Lemma whitespace_has_no_semicolon s : whitespace_only s = true -> contains ";" s = false.
Proof.
  induction s as [|c s IH]; simpl; [reflexivity|].
  intros H. apply andb_prop in H. destruct H as [Hc Hs]. rewrite (IH Hs), orb_false_r.
  destruct (Ascii.eqb_spec c ";") as [->|]; [discriminate Hc | reflexivity].
Qed.

Lemma count_nonneg c s : (0 <= count c s)%Z.
Proof. induction s as [|d s IH]; simpl; [lia | destruct (Ascii.eqb d c); lia]. Qed.

Lemma contains_count c s : contains c s = true -> (1 <=? count c s)%Z = true.
Proof.
  induction s as [|d s IH]; simpl; [discriminate|].
  pose proof (count_nonneg c s). destruct (Ascii.eqb d c); simpl; intros Hc.
  - apply Z.leb_le. lia.
  - apply Z.leb_le. apply IH in Hc. apply Z.leb_le in Hc. lia.
Qed.

(** The line-break test of rule 4, [("\n" in text and text.count("\n") >= 1)],
    is the membership test alone. *)
Lemma line_break_test text :
  contains NL text && (1 <=? count NL text)%Z = contains NL text.
Proof.
  destruct (contains NL text) eqn:E; [|reflexivity].
  rewrite (contains_count _ _ E). reflexivity.
Qed.

(** C4 (as amended).  On empty or whitespace-only text rules 1, 2 and 3 do
    not match and the text holds no semicolon; the result is SYSTEM when the
    text contains a line break (rule 4) or the flag is set (rule 5), and
    USER otherwise. *)
Theorem blank_text_classification (text : string) (flag : bool) :
  whitespace_only text = true ->
  re_search true _system_regex (strip text) = false
  /\ re_match true _META_TAGS (strip text) = false
  /\ str_in (first_word_of (strip text)) _IMPERATIVE_VERBS = false
  /\ contains ";" text = false
  /\ is_probable_system_heuristic text flag = contains NL text || flag.
Proof.
  intros Hw. pose proof (strip_whitespace_only text Hw) as Hs.
  pose proof (whitespace_has_no_semicolon text Hw) as Hsemi.
  unfold is_probable_system_heuristic. rewrite Hs, Hsemi, line_break_test.
  repeat split; try reflexivity.
  destruct (contains NL text), flag; reflexivity.
Qed.

Lemma blank_text_classification_witness :
  is_probable_system_heuristic (String " " (String "009" EmptyString)) true = true
  /\ is_probable_system_heuristic (String " " (String "009" EmptyString)) false = false
  /\ is_probable_system_heuristic (String " " (String NL EmptyString)) false = true.
Proof.
  split; [|split].
  - apply (blank_text_classification (String " " (String "009" EmptyString)) true eq_refl).
  - apply (blank_text_classification (String " " (String "009" EmptyString)) false eq_refl).
  - apply (blank_text_classification (String " " (String NL EmptyString)) false eq_refl).
Defined.

(** C4 as the specification states it fails on the text made of one line
    break: it is SYSTEM although the flag is not set. *)
Lemma line_break_is_system :
  whitespace_only (String NL EmptyString) = true
  /\ ~ follows_flag_alone (String NL EmptyString).
Proof.
  split; [reflexivity|]. intros H. specialize (H false). vm_compute in H. discriminate.
Qed.

(** ** The role classifier, rule by rule *)

Lemma append_cons c a b : String c a +:+ b = String c (a +:+ b).
Proof. reflexivity. Qed.

Lemma append_nil_l s : EmptyString +:+ s = s.
Proof. reflexivity. Qed.

Lemma append_nil_r s : s +:+ EmptyString = s.
Proof.
  induction s as [|c s IH]; [reflexivity|]. rewrite append_cons, IH. reflexivity.
Qed.

Lemma append_assoc a b c : (a +:+ b) +:+ c = a +:+ (b +:+ c).
Proof.
  induction a as [|x a IH]; [reflexivity|]. rewrite !append_cons, IH. reflexivity.
Qed.

Lemma str_lower_app a b : str_lower (a +:+ b) = str_lower a +:+ str_lower b.
Proof.
  induction a as [|x a IH]; [reflexivity|]. rewrite append_cons. simpl.
  rewrite IH. reflexivity.
Qed.

Lemma str_lower_length a b : str_lower a = str_lower b -> String.length a = String.length b.
Proof.
  revert b. induction a as [|x a IH]; intros [|y b]; simpl; try discriminate; [reflexivity|].
  intros E. inversion E. f_equal. apply IH. assumption.
Qed.

Lemma rmatch_lit {A} ic w :
  forall (k : option ascii -> string -> option A) prev s,
    rmatch ic (lit w) k prev s
    = match eat ic w prev s with
      | Some (p', rest) => k p' rest
      | None => None
      end.
Proof.
  induction w as [|p w IH]; intros k prev s; simpl; [reflexivity|].
  destruct s as [|c s]; [reflexivity|].
  destruct (chr_eq ic p c); [apply IH | reflexivity].
Qed.

Lemma after_cons c p prev : after (String c p) prev = after p (Some c).
Proof. unfold after. simpl. destruct (last_char p); reflexivity. Qed.

Lemma eat_spec w :
  forall prev s p' rest,
    eat true w prev s = Some (p', rest)
    <-> exists p, s = p +:+ rest /\ str_lower p = str_lower w /\ p' = after p prev.
Proof.
  induction w as [|x w IH]; intros prev s p' rest; simpl.
  - split.
    + intros E. inversion E; subst. exists EmptyString. auto.
    + intros (p & -> & Hp & ->). destruct p; [reflexivity | discriminate].
  - destruct s as [|c s].
    + split; [discriminate|]. intros (p & Hs & Hp & _).
      destruct p; simpl in *; discriminate.
    + unfold chr_eq. destruct (Ascii.eqb_spec (lower x) (lower c)) as [Hx|Hx].
      * rewrite IH. split.
        -- intros (p & -> & Hp & ->). exists (String c p). simpl.
           rewrite Hp, Hx, after_cons. auto.
        -- intros (p & Hs & Hp & ->). destruct p as [|d p]; [discriminate|].
           simpl in Hs, Hp. inversion Hs; subst. inversion Hp.
           exists p. rewrite after_cons. auto.
      * split; [discriminate|]. intros (p & Hs & Hp & _).
        destruct p as [|d p]; [discriminate|]. simpl in Hs, Hp.
        inversion Hs; subst. inversion Hp. congruence.
Qed.

(** A character whose lower case is an ASCII letter is a word character. *)
Lemma lower_letter_isword c :
  between 97 122 (code (lower c)) = true -> isword c = true.
Proof.
  destruct c as [[] [] [] [] [] [] [] []]; vm_compute; intros H;
    first [reflexivity | discriminate H].
Qed.

Lemma last_char_lower_eq p w :
  str_lower p = str_lower w -> letter_opt (last_char w) = true ->
  isword_opt (last_char p) = true.
Proof.
  revert w. induction p as [|c p IH]; intros [|x w]; simpl; try discriminate.
  intros E Hw. inversion E as [[Hc Hp]].
  destruct (last_char w) as [lw|] eqn:Ew.
  - specialize (IH w Hp). rewrite Ew in IH. specialize (IH Hw).
    destruct (last_char p); [exact IH | discriminate IH].
  - destruct w; [|simpl in Ew; destruct (last_char w); discriminate].
    destruct p; [|discriminate]. simpl. simpl in Hw. rewrite <- Hc in Hw.
    apply lower_letter_isword. exact Hw.
Qed.

Lemma first_char_lower_eq p w :
  str_lower p = str_lower w -> letter_opt (first_char w) = true ->
  isword_opt (first_char p) = true.
Proof.
  destruct p as [|c p], w as [|x w]; simpl; try discriminate.
  intros E Hw. inversion E as [[Hc Hp]]. rewrite <- Hc in Hw.
  apply lower_letter_isword. exact Hw.
Qed.

Lemma first_char_app p rest :
  p <> EmptyString -> first_char (p +:+ rest) = first_char p.
Proof. destruct p; [contradiction | reflexivity]. Qed.

Lemma after_nonempty p prev : p <> EmptyString -> after p prev = last_char p.
Proof.
  unfold after. destruct p as [|c p]; [contradiction|]. intros _.
  simpl. destruct (last_char p); reflexivity.
Qed.

Lemma lower_nonempty p w : str_lower p = str_lower w -> w <> EmptyString -> p <> EmptyString.
Proof. destruct p, w; simpl; congruence. Qed.

Lemma append_same_length p :
  forall q rest rest',
    p +:+ rest = q +:+ rest' -> String.length q = String.length p ->
    rest' = rest /\ q = p.
Proof.
  induction p as [|c p IH]; intros [|d q] rest rest' Hs Hlen; simpl in *; try discriminate.
  - auto.
  - inversion Hs; subst. inversion Hlen as [Hl].
    destruct (IH q rest rest') as [-> ->]; auto.
Qed.

Lemma matches_at_alt ic r1 r2 prev s :
  matches_at ic (Alt r1 r2) prev s = matches_at ic r1 prev s || matches_at ic r2 prev s.
Proof.
  unfold matches_at. simpl.
  destruct (rmatch ic r1 _ prev s); reflexivity.
Qed.

Lemma matches_at_bol_later ic r c s : matches_at ic (Seq Bol r) (Some c) s = false.
Proof. reflexivity. Qed.

(** [^w\b] at the start of the subject. *)
Lemma matches_anchored_phrase w s :
  letter_opt (last_char w) = true ->
  matches_at true (Seq Bol (Seq (lit w) WordB)) None s = true <-> phrase_at_start w s.
Proof.
  intros Hw.
  assert (Hne : w <> EmptyString) by (intros ->; discriminate Hw).
  unfold matches_at, phrase_at_start. simpl. rewrite rmatch_lit.
  destruct (eat true w None s) as [[p' rest]|] eqn:E.
  - apply eat_spec in E. destruct E as (p & -> & Hp & ->).
    pose proof (lower_nonempty p w Hp Hne) as Hpne.
    rewrite (after_nonempty p None Hpne). simpl.
    rewrite (last_char_lower_eq p w Hp Hw). simpl.
    destruct (isword_opt (first_char rest)) eqn:Hr; simpl.
    + split; [discriminate|]. intros (q & rest' & Hs & Hq & Hr').
      assert (Hlen : String.length q = String.length p)
        by (apply str_lower_length; congruence).
      destruct (append_same_length p q rest rest' Hs Hlen) as [-> ->].
      congruence.
    + split; [|reflexivity]. intros _. exists p, rest. auto.
  - split; [discriminate|]. intros (q & rest' & Hs & Hq & Hr').
    assert (Some (after q None, rest') = None); [|discriminate].
    rewrite <- E. symmetry. apply eat_spec. exists q. auto.
Qed.

(** [\bw\b] at a given position. *)
Lemma matches_bounded_phrase w prev s :
  letter_opt (first_char w) = true ->
  letter_opt (last_char w) = true ->
  matches_at true (Seq WordB (Seq (lit w) WordB)) prev s = true
  <-> exists p rest, s = p +:+ rest /\ str_lower p = str_lower w
                     /\ isword_opt prev = false
                     /\ isword_opt (first_char rest) = false.
Proof.
  intros Hf Hl.
  assert (Hne : w <> EmptyString) by (intros ->; discriminate Hl).
  unfold matches_at. simpl. rewrite rmatch_lit.
  destruct (eat true w prev s) as [[p' rest]|] eqn:E.
  - apply eat_spec in E. destruct E as (p & -> & Hp & ->).
    pose proof (lower_nonempty p w Hp Hne) as Hpne.
    rewrite (first_char_app p rest Hpne), (first_char_lower_eq p w Hp Hf).
    rewrite (after_nonempty p prev Hpne). simpl.
    rewrite (last_char_lower_eq p w Hp Hl). simpl.
    destruct (isword_opt prev) eqn:Hprev; simpl.
    + split; [discriminate|]. intros (q & rest' & _ & _ & Habs & _). discriminate.
    + destruct (isword_opt (first_char rest)) eqn:Hr; simpl.
      * split; [discriminate|]. intros (q & rest' & Hs & Hq & _ & Hr').
        assert (Hlen : String.length q = String.length p)
          by (apply str_lower_length; congruence).
        destruct (append_same_length p q rest rest' Hs Hlen) as [-> ->].
        congruence.
      * split; [|reflexivity]. intros _. exists p, rest. auto.
  - destruct (xorb (isword_opt prev) (isword_opt (first_char s)));
      (split; [discriminate|]); intros (q & rest' & Hs & Hq & _ & _);
      (assert (Some (after q prev, rest') = None); [|discriminate]);
      rewrite <- E; symmetry; apply eat_spec; exists q; auto.
Qed.

Lemma search_bounded_phrase w :
  letter_opt (first_char w) = true ->
  letter_opt (last_char w) = true ->
  forall s prev,
    search_from true (Seq WordB (Seq (lit w) WordB)) prev s = true
    <-> exists pre p rest, s = pre +:+ p +:+ rest /\ str_lower p = str_lower w
                           /\ isword_opt (after pre prev) = false
                           /\ isword_opt (first_char rest) = false.
Proof.
  intros Hf Hl. induction s as [|c s IH]; intros prev.
  - simpl search_from. rewrite orb_false_r, (matches_bounded_phrase w prev _ Hf Hl).
    split.
    + intros (p & rest & Hs & Hp & Hprev & Hr). exists EmptyString, p, rest. auto.
    + intros (pre & p & rest & Hs & Hp & Hprev & Hr).
      destruct pre; [|discriminate]. exists p, rest. auto.
  - simpl search_from. rewrite orb_true_iff, (matches_bounded_phrase w prev _ Hf Hl), IH.
    split.
    + intros [(p & rest & Hs & Hp & Hprev & Hr) | (pre & p & rest & Hs & Hp & Hprev & Hr)].
      * exists EmptyString, p, rest. auto.
      * exists (String c pre), p, rest. rewrite after_cons, append_cons, Hs. auto.
    + intros (pre & p & rest & Hs & Hp & Hprev & Hr). destruct pre as [|d pre].
      * left. exists p, rest. auto.
      * right. rewrite append_cons in Hs. inversion Hs; subst.
        exists pre, p, rest. rewrite after_cons in Hprev. auto.
Qed.

Lemma search_from_nil ic r prev :
  search_from ic r prev EmptyString = matches_at ic r prev EmptyString.
Proof. simpl. apply orb_false_r. Qed.

Lemma search_from_cons ic r prev c s :
  search_from ic r prev (String c s)
  = matches_at ic r prev (String c s) || search_from ic r (Some c) s.
Proof. reflexivity. Qed.

Lemma search_anchored_later r5 r1 r2 r3 r4 c s :
  search_from true
    (Alt (Seq Bol r1) (Alt (Seq Bol r2) (Alt (Seq Bol r3) (Alt (Seq Bol r4) r5))))
    (Some c) s
  = search_from true r5 (Some c) s.
Proof.
  revert c. induction s as [|d s IH]; intros c.
  - rewrite !search_from_nil, !matches_at_alt, !matches_at_bol_later. reflexivity.
  - rewrite !search_from_cons, !matches_at_alt, !matches_at_bol_later, IH. reflexivity.
Qed.

(** Rule 1: the search of the joined patterns in the trimmed text. *)
Lemma system_regex_rule s : re_search true _system_regex s = true <-> rule_phrase s.
Proof.
  unfold re_search, _system_regex, _SYSTEM_PATTERNS, alternation, rule_phrase.
  assert (E : search_from true
            (Alt (Seq Bol (Seq (lit "you are") WordB))
               (Alt (Seq Bol (Seq (lit "you should") WordB))
                  (Alt (Seq Bol (Seq (lit "always") WordB))
                     (Alt (Seq Bol (Seq (lit "never") WordB))
                        (Seq WordB (Seq (lit "make sure") WordB)))))) None s
          = matches_at true (Seq Bol (Seq (lit "you are") WordB)) None s
            || matches_at true (Seq Bol (Seq (lit "you should") WordB)) None s
            || matches_at true (Seq Bol (Seq (lit "always") WordB)) None s
            || matches_at true (Seq Bol (Seq (lit "never") WordB)) None s
            || search_from true (Seq WordB (Seq (lit "make sure") WordB)) None s).
  { destruct s as [|c s].
    - rewrite !search_from_nil, !matches_at_alt, !orb_assoc. reflexivity.
    - rewrite !search_from_cons, !matches_at_alt, search_anchored_later, !orb_assoc.
      reflexivity. }
  rewrite E, !orb_true_iff.
  rewrite !matches_anchored_phrase by reflexivity.
  rewrite (search_bounded_phrase "make sure") by reflexivity.
  unfold phrase_inside.
  assert (A : forall pre, after pre None = last_char pre)
    by (intros pre; unfold after; destruct (last_char pre); reflexivity).
  split.
  - intros [[[[H|H]|H]|H]|(pre & p & rest & Hs & Hp & Hpre & Hr)]; auto.
    do 4 right. exists pre, p, rest. rewrite <- A. auto.
  - intros [H|[H|[H|[H|(pre & p & rest & Hs & Hp & Hpre & Hr)]]]]; auto.
    right. exists pre, p, rest. rewrite A. auto.
Qed.

Lemma strip_shape text :
  strip text = EmptyString \/ exists c r, strip text = String c r /\ isspace c = false.
Proof.
  unfold strip. destruct (lstrip_shape text) as [-> | (c & r & -> & Hc)]; [left; reflexivity|].
  right. destruct (rstrip_head c r Hc) as [r' ->]. eauto.
Qed.

Lemma matches_prefix w prev s : matches_at true (lit w) prev s = true <-> prefix_ci w s.
Proof.
  unfold matches_at, prefix_ci. rewrite rmatch_lit.
  destruct (eat true w prev s) as [[p' rest]|] eqn:E.
  - apply eat_spec in E. destruct E as (p & -> & Hp & _).
    split; [|reflexivity]. intros _. exists p, rest. auto.
  - split; [discriminate|]. intros (q & rest' & Hs & Hq).
    assert (Some (after q prev, rest') = None); [|discriminate].
    rewrite <- E. symmetry. apply eat_spec. exists q. auto.
Qed.

(** Rule 2: the meta-tag pattern matched at the start of the trimmed text. *)
Lemma meta_tags_rule text :
  re_match true _META_TAGS (strip text) = true <-> rule_meta_tag (strip text).
Proof.
  assert (E : re_match true _META_TAGS (strip text)
              = matches_at true
                  (Alt (lit "[SYSTEM]") (Alt (lit "##SYSTEM##") (lit "(system)")))
                  None (strip text)).
  { unfold re_match, matches_at, _META_TAGS.
    destruct (strip_shape text) as [-> | (c & r & -> & Hc)]; [reflexivity|].
    cbn [rmatch star]. rewrite Hc. reflexivity. }
  rewrite E, !matches_at_alt, !orb_true_iff, !matches_prefix.
  unfold rule_meta_tag. tauto.
Qed.

Lemma contains_head c w : contains c (String c w) = true.
Proof. simpl. rewrite Ascii.eqb_refl. reflexivity. Qed.

Lemma token_prefix_unique s : forall w w', token_prefix w s -> token_prefix w' s -> w = w'.
Proof.
  induction s as [|x s IH]; intros w w' (rest & Hs & Hw & Hrest) (rest' & Hs' & Hw' & Hrest').
  - destruct w, w'; try discriminate. reflexivity.
  - destruct (isspace x) eqn:Hx.
    + destruct w as [|a w].
      * destruct w' as [|b w']; [reflexivity|]. rewrite append_cons in Hs'.
        inversion Hs'; subst. rewrite (Hw' b (contains_head b w')) in Hx. discriminate.
      * rewrite append_cons in Hs. inversion Hs; subst.
        rewrite (Hw a (contains_head a w)) in Hx. discriminate.
    + destruct w as [|a w].
      * rewrite append_nil_l in Hs. subst rest.
        destruct Hrest as [|(c & r & E & Hc)]; [discriminate|].
        inversion E; subst. congruence.
      * destruct w' as [|b w'].
        -- rewrite append_nil_l in Hs'. subst rest'.
           destruct Hrest' as [|(c & r & E & Hc)]; [discriminate|].
           inversion E; subst. congruence.
        -- rewrite append_cons in Hs, Hs'. inversion Hs; inversion Hs'; subst. f_equal.
           apply IH.
           ++ exists rest. split; [reflexivity|]. split; [|exact Hrest].
              intros c Hc. apply Hw. simpl. rewrite Hc. apply orb_true_r.
           ++ exists rest'. split; [assumption|]. split; [|exact Hrest'].
              intros c Hc. apply Hw'. simpl. rewrite Hc. apply orb_true_r.
Qed.

Lemma first_token_prefix w s : first_token w s -> token_prefix w s.
Proof. intros (rest & Hs & _ & Hw & Hrest). exists rest. auto. Qed.

Lemma split_first_token s :
  forall c, isspace c = false ->
    exists w ws, split (String c s) = w :: ws /\ first_token w (String c s).
Proof.
  induction s as [|d s IH]; intros c Hc.
  - exists (String c EmptyString), []. simpl. rewrite Hc. split; [reflexivity|].
    exists EmptyString. split; [reflexivity|]. split; [discriminate|]. split; [|auto].
    intros x Hx. simpl in Hx. rewrite orb_false_r in Hx.
    apply Ascii.eqb_eq in Hx. subst. exact Hc.
  - destruct (isspace d) eqn:Hd.
    + exists (String c EmptyString), (split (String d s)).
      split; [simpl; rewrite Hc, Hd; reflexivity|].
      exists (String d s). split; [reflexivity|]. split; [discriminate|]. split.
      * intros x Hx. simpl in Hx. rewrite orb_false_r in Hx.
        apply Ascii.eqb_eq in Hx. subst. exact Hc.
      * right. eauto.
    + destruct (IH d Hd) as (w & ws & Hsplit & rest & Hs & Hne & Hw & Hrest).
      exists (String c w), ws. split.
      * change (split (String c (String d s)))
          with (if isspace c then split (String d s)
                else if isspace d then String c EmptyString :: split (String d s)
                     else push c (split (String d s))).
        rewrite Hc, Hd, Hsplit. reflexivity.
      * exists rest. rewrite append_cons, <- Hs. split; [reflexivity|].
        split; [discriminate|]. split; [|exact Hrest].
        intros x Hx. simpl in Hx. apply orb_prop in Hx. destruct Hx as [Hx|Hx].
        -- apply Ascii.eqb_eq in Hx. subst. exact Hc.
        -- apply Hw. exact Hx.
Qed.

(** The index [0] of [stripped.split()] is in range when [stripped] is not empty. *)
Lemma split_strip_nonempty text : strip text <> EmptyString -> split (strip text) <> [].
Proof.
  intros Hne. destruct (strip_shape text) as [E | (c & r & E & Hc)]; [contradiction|].
  rewrite E. destruct (split_first_token r c Hc) as (w & ws & -> & _). discriminate.
Qed.

(** Rule 3: the first token of the trimmed text, lowered, is a listed verb. *)
Lemma imperative_rule text :
  str_in (first_word_of (strip text)) _IMPERATIVE_VERBS = true
  <-> rule_imperative (strip text).
Proof.
  unfold rule_imperative.
  destruct (strip_shape text) as [E | (c & r & E & Hc)]; rewrite E.
  - split; [discriminate|]. intros (w & (rest & Hs & Hne & _) & _).
    destruct w; [contradiction | discriminate].
  - destruct (split_first_token r c Hc) as (w & ws & Hsplit & Htok).
    unfold first_word_of, str_in. rewrite Hsplit. simpl nth.
    rewrite existsb_exists. split.
    + intros (v & Hin & Hv). apply String.eqb_eq in Hv. exists w. rewrite Hv. auto.
    + intros (w' & Htok' & Hin).
      rewrite (token_prefix_unique _ w w' (first_token_prefix _ _ Htok)
                 (first_token_prefix _ _ Htok')).
      exists (str_lower w'). split; [exact Hin | apply String.eqb_refl].
Qed.

(** Rule 4: membership of a character. *)
Lemma contains_occurs c s : contains c s = true <-> occurs c s.
Proof.
  unfold occurs. induction s as [|d s IH]; simpl.
  - split; [discriminate|]. intros (pre & rest & E). destruct pre; discriminate.
  - rewrite orb_true_iff, IH, Ascii.eqb_eq. split.
    + intros [-> | (pre & rest & ->)].
      * exists EmptyString, s. reflexivity.
      * exists (String d pre), rest. reflexivity.
    + intros (pre & rest & E). destruct pre as [|x pre].
      * rewrite append_nil_l in E. inversion E. auto.
      * rewrite append_cons in E. inversion E. right. eauto.
Qed.

(** Rule 5: the question mark at the end, the greeting at the start. *)
Lemma endswith_question s : endswith "?" s = true <-> exists p, s = p +:+ "?".
Proof.
  induction s as [|c s IH].
  - simpl. split; [discriminate|]. intros (p & E). destruct p; discriminate.
  - change (endswith "?" (String c s))
      with (String.eqb (String c s) "?" || endswith "?" s).
    rewrite orb_true_iff, IH, String.eqb_eq. split.
    + intros [E | (p & ->)].
      * exists EmptyString. exact E.
      * exists (String c p). reflexivity.
    + intros (p & E). destruct p as [|d p].
      * left. exact E.
      * right. rewrite append_cons in E. inversion E. eauto.
Qed.

Lemma startswith_lower w :
  forall s, startswith w (str_lower s) = true
            <-> exists p rest, s = p +:+ rest /\ str_lower p = w.
Proof.
  induction w as [|a w IH]; intros s.
  - simpl. split; [|reflexivity]. intros _. exists EmptyString, s. auto.
  - destruct s as [|c s]; simpl.
    + split; [discriminate|]. intros (p & rest & E & Hp). destruct p; discriminate.
    + rewrite andb_true_iff, IH, Ascii.eqb_eq. split.
      * intros (-> & p & rest & -> & <-). exists (String c p), rest. auto.
      * intros (p & rest & E & Hp). destruct p as [|d p]; [discriminate|].
        rewrite append_cons in E. inversion E; subst. simpl in Hp. inversion Hp.
        split; [reflexivity|]. eauto.
Qed.

Lemma greeting_rule s :
  startswith_any ["hi"; "hello"; "hey"] (str_lower s) = true
  <-> prefix_ci "hi" s \/ prefix_ci "hello" s \/ prefix_ci "hey" s.
Proof.
  unfold startswith_any. cbn [existsb].
  rewrite orb_false_r, !orb_true_iff, !startswith_lower. unfold prefix_ci.
  change (str_lower "hi") with "hi". change (str_lower "hello") with "hello".
  change (str_lower "hey") with "hey".
  tauto.
Qed.

(** The cascade of [is_probable_system_heuristic] as one disjunction. *)
Lemma classifier_disjunction text flag :
  is_probable_system_heuristic text flag
  = re_search true _system_regex (strip text)
    || re_match true _META_TAGS (strip text)
    || str_in (first_word_of (strip text)) _IMPERATIVE_VERBS
    || (contains NL text || contains ";" text)
    || (flag && (negb (endswith "?" (strip text))
                 && negb (startswith_any ["hi"; "hello"; "hey"] (str_lower (strip text))))).
Proof.
  unfold is_probable_system_heuristic. rewrite line_break_test.
  destruct (re_search true _system_regex (strip text)); [reflexivity|].
  destruct (re_match true _META_TAGS (strip text)); [reflexivity|].
  destruct (str_in (first_word_of (strip text)) _IMPERATIVE_VERBS); [reflexivity|].
  destruct (contains NL text || contains ";" text); [reflexivity|].
  destruct flag; [|reflexivity].
  destruct (negb _ && negb _); reflexivity.
Qed.

(** C3 (as amended).  The classifier returns SYSTEM exactly when one of
    five rules holds, and USER otherwise: (1) the trimmed text begins with
    "you are", "you should", "always" or "never" ending at a word boundary,
    or contains "make sure" between word boundaries, whatever the case;
    (2) the trimmed text begins with "[SYSTEM]", "##SYSTEM##" or "(system)",
    whatever the case, a colon not being required; (3) its first
    whitespace-delimited token, lowered, is one of the fourteen verbs;
    (4) the text contains a line feed or a semicolon; (5) the flag is set
    and the trimmed text neither ends with "?" nor begins with the letters
    "hi", "hello" or "hey", whatever the case.  The four scenarios of the
    specification come out as stated, for either value of the flag. *)
Theorem classifier_rules (text : string) (flag : bool) :
  (is_probable_system_heuristic text flag = true
   <-> rule_phrase (strip text)
       \/ rule_meta_tag (strip text)
       \/ rule_imperative (strip text)
       \/ rule_structure text
       \/ (flag = true /\ rule_position (strip text)))
  /\ is_probable_system_heuristic "You are a helpful assistant." flag = true
  /\ is_probable_system_heuristic "Hi, how are you?" flag = false
  /\ is_probable_system_heuristic "Validate the input." flag = true
  /\ is_probable_system_heuristic "What's the weather; is it raining?" flag = true.
Proof.
  split; [|destruct flag; repeat split; vm_compute; reflexivity].
  rewrite classifier_disjunction, !orb_true_iff, !andb_true_iff, !negb_true_iff.
  rewrite system_regex_rule, meta_tags_rule, imperative_rule, !contains_occurs.
  unfold rule_structure, rule_position.
  rewrite <- !not_true_iff_false, endswith_question, greeting_rule.
  tauto.
Qed.

(** The classifier as C3 words it agrees with the program on the four
    scenarios of the specification. *)
Example classify_as_claimed_scenarios :
  classify_as_claimed "You are a helpful assistant." false = true
  /\ classify_as_claimed "Hi, how are you?" true = false
  /\ classify_as_claimed "Validate the input." false = true
  /\ classify_as_claimed "What's the weather; is it raining?" false = true.
Proof. repeat split; vm_compute; reflexivity. Qed.

(** C3 as the specification states it fails on two texts.  "[SYSTEM] hi?"
    carries the tag without the colon: the program says SYSTEM, the
    specification USER.  "Nevertheless, is it ok?" begins with "never"
    inside a longer word: the specification says SYSTEM, the program USER. *)
Lemma classifier_differs_from_claim :
  is_probable_system_heuristic "[SYSTEM] hi?" false = true
  /\ classify_as_claimed "[SYSTEM] hi?" false = false
  /\ is_probable_system_heuristic "Nevertheless, is it ok?" false = false
  /\ classify_as_claimed "Nevertheless, is it ok?" false = true.
Proof. repeat split; vm_compute; reflexivity. Qed.

(** * Further properties *)

(** ** What the calls never do *)

Lemma writes_keeps f n :
  writes f ->
  children (f n) = children n /\ message (f n) = message n
  /\ response (f n) = response n /\ parent (f n) = parent n.
Proof.
  intros Hf. revert n. induction Hf as [| v | v | f g _ IHf _ IHg]; intros n; auto.
  unfold compose. destruct (IHf (g n)) as (-> & -> & -> & ->). apply IHg.
Qed.

Lemma append_segment_writes self segment (h : heap) :
  exists f, writes f /\ fst (append_segment self segment h) = alter f self h.
Proof.
  unfold append_segment, bind, getattr, setattr.
  destruct (h !! self) as [n|]; [destruct (response_segments n) as [segs|]|]; simpl.
  - eexists. split; [apply writes_segments | reflexivity].
  - exists (fun n => n). split; [apply writes_nothing|].
    rewrite list_alter_id by reflexivity. reflexivity.
  - exists (fun n => n). split; [apply writes_nothing|].
    rewrite list_alter_id by reflexivity. reflexivity.
Qed.

Lemma for_each_writes self (l : list (Z * string)) :
  forall h : heap,
    exists f, writes f /\
      fst (for_each l (fun '(idx, text) =>
             append_segment self
               {| seg_content := text; seg_index := idx; seg_children := [] |}) h)
      = alter f self h.
Proof.
  induction l as [|[idx text] l IH]; intros h; simpl.
  - exists (fun n => n). split; [apply writes_nothing|].
    rewrite list_alter_id by reflexivity. reflexivity.
  - unfold bind at 1.
    destruct (append_segment_writes self
                {| seg_content := text; seg_index := idx; seg_children := [] |} h)
      as (g & Hg & E).
    destruct (append_segment self _ h) as [h' [[]|e|]]; simpl in E; subst h'.
    + destruct (IH (alter g self h)) as (f & Hf & E). rewrite E.
      exists (f ∘ g). split; [apply writes_both; assumption|].
      rewrite list_alter_alter_eq. reflexivity.
    + exists g. split; [exact Hg | reflexivity].
    + exists g. split; [exact Hg | reflexivity].
Qed.

Lemma _segment_response_writes self (h : heap) :
  exists f, writes f /\ fst (_segment_response self h) = alter f self h.
Proof.
  unfold _segment_response. unfold bind at 1. unfold setattr at 1.
  unfold bind at 1. unfold getattr at 1.
  destruct (alter (set_response_segments []) self h !! self) as [n|] eqn:Hn.
  - destruct (response n) as [rsp|].
    + destruct (for_each_writes self (enumerate (stripped_lines rsp))
                  (alter (set_response_segments []) self h)) as (f & Hf & E).
      exists (f ∘ set_response_segments []).
      split; [apply writes_both; [exact Hf | apply writes_segments]|].
      rewrite E, list_alter_alter_eq. reflexivity.
    + exists (set_response_segments []). split; [apply writes_segments | reflexivity].
  - exists (set_response_segments []). split; [apply writes_segments | reflexivity].
Qed.

Lemma __post_init___writes uuid self (h : heap) :
  exists f, writes f /\ fst (__post_init__ uuid self h) = alter f self h.
Proof.
  unfold __post_init__. unfold bind at 1. unfold setattr at 1.
  destruct (_segment_response_writes self (alter (set__id uuid) self h)) as (f & Hf & E).
  exists (f ∘ set__id uuid). split; [apply writes_both; [exact Hf | apply writes_id]|].
  rewrite <- list_alter_alter_eq, <- E.
  destruct (_segment_response self (alter (set__id uuid) self h)) as [h' [|e|]]; reflexivity.
Qed.

Lemma effect_unchanged (w : World) : call_effect w w.
Proof.
  apply (effect_nodes w w (fun n => n) 0%nat []); [apply writes_nothing | | auto | reflexivity].
  rewrite app_nil_r, list_alter_id by reflexivity. reflexivity.
Qed.

Lemma effect_appended (w : World) m r p :
  (p < length (nodes w))%nat ->
  call_effect w {| tree := tree w; nodes := nodes w ++ [fresh m r (Some p)] |}.
Proof.
  intros Hp.
  apply (effect_nodes _ _ (fun n => n) 0%nat [fresh m r (Some p)]);
    [apply writes_nothing | | eauto 6 | reflexivity].
  simpl. rewrite list_alter_id by reflexivity. reflexivity.
Qed.

Lemma effect_written (w : World) f o :
  writes f -> call_effect w {| tree := tree w; nodes := alter f o (nodes w) |}.
Proof.
  intros Hf. apply (effect_nodes _ _ f o []); [exact Hf | | auto | reflexivity].
  simpl. rewrite app_nil_r. reflexivity.
Qed.

Lemma world_eta' (w : World) : {| tree := tree w; nodes := nodes w |} = w.
Proof. destruct w; reflexivity. Qed.

Lemma find_node_has_root (w : World) node_id l :
  find_node w node_id = Ok (Some l) -> exists root, root_node (tree w) = Some root.
Proof. unfold find_node. destruct (root_node (tree w)); [eauto | discriminate]. Qed.

Lemma exec_effect c (w : World) :
  never_indexed (nodes w) -> valid_call c w -> call_effect w (exec c w).
Proof.
  intros Hnone.
  destruct c as [u a|pid u a|pid i u a|self m r|self i m r|self|uuid self];
    simpl; intros Hv.
  - destruct (root_node (tree w)) as [root|] eqn:Hr.
    + rewrite (create_root_node_exists u a w root Hr). apply effect_unchanged.
    + rewrite (create_root_node_fresh u a w Hr). eapply effect_root; simpl; eauto.
  - destruct (find_node w pid) as [[p|]|e|] eqn:Hf.
    + pose proof (find_node_valid _ _ _ Hf) as Hp.
      destruct (lookup_lt_is_Some_2 _ _ Hp) as [n Hn].
      rewrite (add_child_node_run pid u a w p n Hf Hn), (Hnone p n Hn).
      apply effect_appended, Hp.
    + unfold add_child_node, bind, _find_node_by_id. rewrite Hf. apply effect_unchanged.
    + unfold add_child_node, bind, _find_node_by_id. rewrite Hf. apply effect_unchanged.
    + unfold add_child_node, bind, _find_node_by_id. rewrite Hf. apply effect_unchanged.
  - unfold Tree_add_segment_specific_child, bind at 1, _find_node_by_id.
    destruct (find_node w pid) as [[p|]|e|] eqn:Hf; simpl; try apply effect_unchanged.
    pose proof (find_node_valid _ _ _ Hf) as Hp.
    destruct (find_node_has_root _ _ _ Hf) as [root Hroot].
    destruct (lookup_lt_is_Some_2 _ _ Hp) as [n Hn].
    unfold try_except, bind, on_nodes, bump_node_count, read_tree, set_node_count, ret.
    destruct (response_segments n) as [segs|] eqn:Hsegs.
    + destruct (Z_lt_dec i 0) as [Hneg|Hnn];
        [rewrite (add_segment_specific_child_out_of_range _ p n segs i u a Hn Hsegs)
           by (left; exact Hneg); simpl; rewrite world_eta'; apply effect_unchanged|].
      destruct (Z_le_dec (Z.of_nat (length segs)) i) as [Hbig|Hsmall];
        [rewrite (add_segment_specific_child_out_of_range _ p n segs i u a Hn Hsegs)
           by (right; exact Hbig); simpl; rewrite world_eta'; apply effect_unchanged|].
      destruct (add_segment_specific_child_in_range _ p n segs i u a Hn Hsegs)
        as (seg & _ & ->); [lia|]. simpl.
      eapply effect_count; simpl; [apply writes_segments | | exact Hroot | reflexivity].
      apply insert_as_alter. apply lookup_app_l_Some. exact Hn.
    + rewrite (add_segment_specific_child_missing p i u a _ n Hn Hsegs).
      destruct (0 <=? i)%Z; simpl; rewrite world_eta'; apply effect_unchanged.
  - rewrite on_nodes_fst.
    destruct (lookup_lt_is_Some_2 _ _ Hv) as [n Hn].
    rewrite (add_child_run self m r _ n Hn), (Hnone self n Hn). apply effect_appended, Hv.
  - rewrite on_nodes_fst.
    destruct (lookup_lt_is_Some_2 _ _ Hv) as [n Hn].
    destruct (response_segments n) as [segs|] eqn:Hsegs.
    + destruct (Z_lt_dec i 0) as [Hneg|Hnn];
        [rewrite (add_segment_specific_child_out_of_range _ self n segs i m r Hn Hsegs)
           by (left; exact Hneg); simpl; rewrite world_eta'; apply effect_unchanged|].
      destruct (Z_le_dec (Z.of_nat (length segs)) i) as [Hbig|Hsmall];
        [rewrite (add_segment_specific_child_out_of_range _ self n segs i m r Hn Hsegs)
           by (right; exact Hbig); simpl; rewrite world_eta'; apply effect_unchanged|].
      destruct (add_segment_specific_child_in_range _ self n segs i m r Hn Hsegs)
        as (seg & _ & ->); [lia|]. simpl.
      eapply (effect_nodes _ _ _ self [fresh m r (Some self)]);
        [apply writes_segments | | eauto 6 | reflexivity].
      apply insert_as_alter. apply lookup_app_l_Some. exact Hn.
    + rewrite (add_segment_specific_child_missing self i m r _ n Hn Hsegs).
      simpl. rewrite world_eta'. apply effect_unchanged.
  - rewrite on_nodes_fst.
    destruct (_segment_response_writes self (nodes w)) as (f & Hf & ->).
    apply effect_written, Hf.
  - rewrite on_nodes_fst.
    destruct (__post_init___writes uuid self (nodes w)) as (f & Hf & ->).
    apply effect_written, Hf.
Qed.

Lemma never_indexed_effect (h : heap) f o extra :
  writes f -> never_indexed h -> Forall (fun x => children x = None) extra ->
  never_indexed (alter f o (h ++ extra)).
Proof.
  intros Hf Hh Hextra l n' Hl.
  assert (Hbase : forall n, (h ++ extra) !! l = Some n -> children n = None).
  { intros n Hn. apply lookup_app_Some in Hn. destruct Hn as [Hn | [_ Hn]].
    - eapply Hh, Hn.
    - rewrite List.Forall_forall in Hextra. apply Hextra.
      apply list_elem_of_In. eapply list_elem_of_lookup_2, Hn. }
  destruct (decide (o = l)) as [->|Hne].
  - rewrite list_lookup_alter_eq in Hl.
    destruct ((h ++ extra) !! l) as [n|] eqn:Hn; [|discriminate].
    simpl in Hl. inversion Hl; subst.
    destruct (writes_keeps f n Hf) as (-> & _). apply Hbase. reflexivity.
  - rewrite list_lookup_alter_ne in Hl by exact Hne. apply Hbase. exact Hl.
Qed.

Lemma effect_invariant (w w' : World) :
  call_effect w w' ->
  never_indexed (nodes w) /\ count_in_bounds w ->
  never_indexed (nodes w') /\ count_in_bounds w'.
Proof.
  intros Heff [Hnone Hcount]. unfold count_in_bounds in *.
  destruct Heff as [f o extra Hf Hn Hextra Ht | f o m r p root Hf Hn Hroot Ht
                   | m r Hn Hroot Ht].
  - split.
    + rewrite Hn. apply never_indexed_effect; [exact Hf | exact Hnone |].
      destruct Hextra as [-> | (m & r & p & -> & _)]; repeat constructor.
    + rewrite Ht. destruct (root_node (tree w)) as [root|].
      * destruct Hcount as [-> Hc]. split; [reflexivity|].
        rewrite Hn, length_alter, length_app. lia.
      * destruct Hcount as [Hempty Hc]. split; [|exact Hc].
        rewrite Hn, Hempty.
        destruct Hextra as [-> | (m & r & p & -> & Hp)]; [destruct o; reflexivity|].
        rewrite Hempty in Hp. simpl in Hp. lia.
  - split.
    + rewrite Hn. apply never_indexed_effect; [exact Hf | exact Hnone |].
      repeat constructor.
    + rewrite Ht. simpl. rewrite Hroot in *. destruct Hcount as [-> Hc].
      split; [reflexivity|]. rewrite Hn, length_alter, length_app. simpl. lia.
  - split.
    + rewrite Hn. rewrite <- (list_alter_id (fun n => n) _ 0) by reflexivity.
      apply never_indexed_effect; [apply writes_nothing | exact Hnone |].
      repeat constructor.
    + rewrite Ht. simpl. rewrite Hroot in Hcount. destruct Hcount as [Hempty Hc].
      rewrite Hn, Hempty. simpl. split; [reflexivity | lia].
Qed.

Lemma reachable_built (w : World) :
  reachable w -> never_indexed (nodes w) /\ count_in_bounds w.
Proof.
  induction 1 as [|w c _ IH Hv].
  - split; [intros l n Hl; destruct l; discriminate | split; reflexivity].
  - eapply effect_invariant; [apply exec_effect; [apply IH | exact Hv] | exact IH].
Qed.

Lemma built_root (w : World) root :
  reachable w -> root_node (tree w) = Some root ->
  exists n, nodes w !! root = Some n /\ children n = None.
Proof.
  intros Hw Hr. destruct (reachable_built w Hw) as [Hnone Hcount].
  unfold count_in_bounds in Hcount. rewrite Hr in Hcount. destruct Hcount as [-> Hc].
  destruct (lookup_lt_is_Some_2 (nodes w) 0) as [n Hn]; [lia|].
  exists n. split; [exact Hn | eapply Hnone, Hn].
Qed.

Lemma find_node_unindexed_root (w : World) root n node_id :
  root_node (tree w) = Some root -> nodes w !! root = Some n -> children n = None ->
  find_node w node_id = if has_id n node_id then Ok (Some root) else Raise AttributeError.
Proof.
  intros Hr Hn Hc. unfold find_node. rewrite Hr.
  destruct (frames_below_S 3 eq_refl) as [f ->]. simpl. rewrite Hn, Hc.
  destruct (has_id n node_id); reflexivity.
Qed.

(** X1.  The node count of a tree built by calls: without a root the arena
    is empty and the count is zero; with a root, the root is the first node
    allocated and the count is at least one and at most the number of
    nodes. *)
Theorem node_count_bounds (w : World) :
  reachable w ->
  match root_node (tree w) with
  | None => nodes w = [] /\ node_count (tree w) = 0%Z
  | Some root =>
      root = 0%nat /\ (1 <= node_count (tree w) <= Z.of_nat (length (nodes w)))%Z
  end.
Proof. intros Hw. apply (reachable_built w Hw). Qed.

Lemma node_count_bounds_witness :
  match root_node (tree (exec (NodeAddSegmentChild 0 0 "q2" "a2")
                           (exec (SegmentResponse 0) (exec (CreateRoot "q" "a") init)))) with
  | None => False
  | Some root =>
      root = 0%nat
      /\ (1 <= 1 <= Z.of_nat (length (nodes
               (exec (NodeAddSegmentChild 0 0 "q2" "a2")
                  (exec (SegmentResponse 0) (exec (CreateRoot "q" "a") init))))))%Z
  end.
Proof.
  apply (node_count_bounds
           (exec (NodeAddSegmentChild 0 0 "q2" "a2")
              (exec (SegmentResponse 0) (exec (CreateRoot "q" "a") init)))).
  apply reachable_step;
    [apply reachable_step; [apply reachable_step; [apply reachable_init | exact I]|]|];
    vm_compute; lia.
Defined.

(** X2.  In a tree built by calls no node ever gets a list of children, so
    [Node.add_child] raises [AttributeError] on every node: the child it has
    built stays unattached, and no existing node is changed. *)
Theorem add_child_always_raises (w : World) (self : loc) (msg rsp : string) :
  reachable w ->
  (self < length (nodes w))%nat ->
  never_indexed (nodes w)
  /\ add_child self msg rsp (nodes w)
     = (nodes w ++ [fresh msg rsp (Some self)], Raise AttributeError)
  /\ never_indexed (nodes (exec (NodeAddChild self msg rsp) w)).
Proof.
  intros Hw Hs. destruct (reachable_built w Hw) as [Hnone _].
  destruct (lookup_lt_is_Some_2 _ _ Hs) as [n Hn].
  split; [exact Hnone|]. split.
  - rewrite (add_child_run self msg rsp _ n Hn), (Hnone self n Hn). reflexivity.
  - apply reachable_built. apply reachable_step; [exact Hw | exact Hs].
Qed.

Lemma add_child_always_raises_witness :
  never_indexed (nodes (exec (CreateRoot "q" "a") init))
  /\ add_child 0 "again?" "yes" (nodes (exec (CreateRoot "q" "a") init))
     = (nodes (exec (CreateRoot "q" "a") init) ++ [fresh "again?" "yes" (Some 0%nat)],
        Raise AttributeError)
  /\ never_indexed (nodes (exec (NodeAddChild 0 "again?" "yes")
                             (exec (CreateRoot "q" "a") init))).
Proof.
  apply (add_child_always_raises (exec (CreateRoot "q" "a") init) 0 "again?" "yes").
  - apply reachable_step; [apply reachable_init | exact I].
  - vm_compute. lia.
Defined.

(** X3.  The lookup by identifier on a tree built by calls, through
    [_find_node_by_id], [get_node] or [get_subtree]: on a tree without root
    it returns nothing; on a tree with a root it returns the root when the
    root carries the identifier, and raises [AttributeError] otherwise.  It
    never returns another node and leaves the tree as it was. *)
Theorem lookup_on_built_tree (w : World) (node_id : string) :
  reachable w ->
  _find_node_by_id node_id w = (w, lookup_at_root w node_id)
  /\ get_node node_id w = (w, lookup_at_root w node_id)
  /\ get_subtree node_id w = (w, lookup_at_root w node_id).
Proof.
  intros Hw.
  assert (Hf : find_node w node_id = lookup_at_root w node_id).
  { unfold find_node, lookup_at_root. destruct (root_node (tree w)) as [root|] eqn:Hr;
      [|reflexivity].
    destruct (built_root w root Hw Hr) as (n & Hn & Hc).
    destruct (frames_below_S 3 eq_refl) as [f ->]. cbn [_search_node_recursive].
    unfold has_id, attr_at. rewrite Hn, Hc.
    destruct (_id n) as [i|]; [|reflexivity].
    destruct (String.eqb i node_id); reflexivity. }
  unfold get_node, get_subtree, _find_node_by_id. rewrite Hf. auto.
Qed.

Lemma lookup_on_built_tree_witness :
  get_node "root" (exec (PostInit "root" 0) (exec (CreateRoot "q" "a") init))
  = (exec (PostInit "root" 0) (exec (CreateRoot "q" "a") init), Ok (Some 0%nat))
  /\ get_node "other" (exec (PostInit "root" 0) (exec (CreateRoot "q" "a") init))
     = (exec (PostInit "root" 0) (exec (CreateRoot "q" "a") init), Raise AttributeError).
Proof.
  assert (Hw : reachable (exec (PostInit "root" 0) (exec (CreateRoot "q" "a") init))).
  { apply reachable_step; [apply reachable_step; [apply reachable_init | exact I]|].
    vm_compute. lia. }
  split.
  - apply (lookup_on_built_tree _ "root" Hw).
  - apply (lookup_on_built_tree _ "other" Hw).
Defined.

(** X4.  [Tree.add_child_node] on a tree built by calls never attaches a
    node and never changes the tree's fields: without a root it returns
    nothing and changes nothing; with a root it raises [AttributeError],
    whether the parent identifier is found or not. *)
Theorem add_child_node_on_built_tree (w : World) (pid u a : string) :
  reachable w ->
  tree (fst (add_child_node pid u a w)) = tree w
  /\ match root_node (tree w) with
     | None => add_child_node pid u a w = (w, Ok None)
     | Some _ => snd (add_child_node pid u a w) = Raise AttributeError
     end.
Proof.
  intros Hw. destruct (root_node (tree w)) as [root|] eqn:Hr.
  - destruct (built_root w root Hw Hr) as (n & Hn & Hc).
    pose proof (find_node_unindexed_root w root n pid Hr Hn Hc) as Hf.
    destruct (has_id n pid).
    + rewrite (add_child_node_run pid u a w root n Hf Hn), Hc. split; reflexivity.
    + unfold add_child_node, bind, _find_node_by_id. rewrite Hf. split; reflexivity.
  - unfold add_child_node, bind, _find_node_by_id, find_node. rewrite Hr. split; reflexivity.
Qed.

Lemma add_child_node_on_built_tree_witness :
  tree (fst (add_child_node "root" "q1" "a1"
               (exec (PostInit "root" 0) (exec (CreateRoot "q" "a") init))))
  = tree (exec (PostInit "root" 0) (exec (CreateRoot "q" "a") init))
  /\ snd (add_child_node "root" "q1" "a1"
            (exec (PostInit "root" 0) (exec (CreateRoot "q" "a") init)))
     = Raise AttributeError.
Proof.
  apply (add_child_node_on_built_tree
           (exec (PostInit "root" 0) (exec (CreateRoot "q" "a") init)) "root" "q1" "a1").
  apply reachable_step; [apply reachable_step; [apply reachable_init | exact I]|].
  vm_compute. lia.
Defined.

(** X5.  The listing, the depth and the statistics of a tree built by
    calls: without a root the listing is empty and the depth is zero; with a
    root each of the three raises [AttributeError]. *)
Theorem listing_and_depth_on_built_tree (w : World) :
  reachable w ->
  match root_node (tree w) with
  | None =>
      get_all_nodes w = (w, Ok [])
      /\ get_tree_stats w
         = (w, Ok {| stats_node_count := 0; stats_has_root := false; stats_max_depth := 0 |})
  | Some _ =>
      get_all_nodes w = (w, Raise AttributeError)
      /\ _calculate_max_depth w = (w, Raise AttributeError)
      /\ get_tree_stats w = (w, Raise AttributeError)
  end.
Proof.
  intros Hw. pose proof (reachable_built w Hw) as [_ Hcount].
  unfold count_in_bounds in Hcount.
  destruct (root_node (tree w)) as [root|] eqn:Hr.
  - destruct (built_root w root Hw Hr) as (n & Hn & Hc).
    assert (Hd : max_depth_of w = Raise AttributeError).
    { unfold max_depth_of. rewrite Hr. destruct (frames_below_S 3 eq_refl) as [f ->].
      simpl. rewrite Hn. simpl. rewrite Hc. reflexivity. }
    split; [|split].
    + unfold get_all_nodes. rewrite Hr. destruct (frames_below_S 2 eq_refl) as [f ->].
      simpl. rewrite Hn. simpl. rewrite Hc. reflexivity.
    + unfold _calculate_max_depth. rewrite Hd. reflexivity.
    + unfold get_tree_stats, bind, read_tree, _calculate_max_depth. rewrite Hd. reflexivity.
  - destruct Hcount as [_ Hc]. split.
    + unfold get_all_nodes. rewrite Hr. reflexivity.
    + unfold get_tree_stats, bind, read_tree, _calculate_max_depth, max_depth_of, ret.
      rewrite Hr, Hc. reflexivity.
Qed.

Lemma listing_and_depth_on_built_tree_witness :
  get_all_nodes (exec (CreateRoot "q" "a") init)
    = (exec (CreateRoot "q" "a") init, Raise AttributeError)
  /\ _calculate_max_depth (exec (CreateRoot "q" "a") init)
     = (exec (CreateRoot "q" "a") init, Raise AttributeError)
  /\ get_tree_stats (exec (CreateRoot "q" "a") init)
     = (exec (CreateRoot "q" "a") init, Raise AttributeError).
Proof.
  apply (listing_and_depth_on_built_tree (exec (CreateRoot "q" "a") init)).
  apply reachable_step; [apply reachable_init | exact I].
Defined.

(** X6.  The export of a tree built by calls: without a root it is the
    mapping with no root node; with a root it raises [AttributeError]. *)
Theorem export_on_built_tree (w : World) :
  reachable w ->
  match root_node (tree w) with
  | None => to_dict w = (w, Ok {| dict_node_count := 0; dict_root_node := None |})
  | Some _ => to_dict w = (w, Raise AttributeError)
  end.
Proof.
  intros Hw. pose proof (reachable_built w Hw) as [_ Hcount].
  unfold count_in_bounds in Hcount.
  destruct (root_node (tree w)) as [root|] eqn:Hr.
  - destruct (built_root w root Hw Hr) as (n & Hn & Hc).
    unfold to_dict. rewrite Hr. destruct (frames_below_S 2 eq_refl) as [f ->].
    simpl. rewrite Hn. simpl.
    destruct (message n); [|reflexivity]. destruct (response n); [|reflexivity].
    rewrite Hc. reflexivity.
  - destruct Hcount as [_ Hc]. unfold to_dict. rewrite Hr, Hc. reflexivity.
Qed.

Lemma export_on_built_tree_witness :
  to_dict (exec (CreateRoot "q" "a") init)
  = (exec (CreateRoot "q" "a") init, Raise AttributeError).
Proof.
  apply (export_on_built_tree (exec (CreateRoot "q" "a") init)).
  apply reachable_step; [apply reachable_init | exact I].
Defined.

(** ** The index of a tree whose nodes have their lists of children *)

Lemma indexed_from_spec (h : heap) :
  forall k len, indexed_from k len h = true ->
    forall l n, h !! l = Some n ->
      exists cs, children n = Some cs /\ Forall (fun c => (k + l < c < len)%nat) cs.
Proof.
  induction h as [|x h IH]; intros k len Hk l n Hl; [destruct l; discriminate|].
  simpl in Hk. apply andb_prop in Hk. destruct Hk as [Hx Hh].
  destruct l as [|l]; simpl in Hl.
  - inversion Hl; subst. destruct (children n) as [cs|]; [|discriminate].
    exists cs. split; [reflexivity|]. apply List.Forall_forall. intros c Hc.
    rewrite forallb_forall in Hx. specialize (Hx c Hc).
    apply andb_prop in Hx. destruct Hx as [H1 H2].
    apply Nat.ltb_lt in H1. apply Nat.ltb_lt in H2. lia.
  - destruct (IH (S k) len Hh l n Hl) as (cs & Hcs & Hall). exists cs. split; [exact Hcs|].
    eapply List.Forall_impl; [|exact Hall]. simpl. intros c Hc. lia.
Qed.

Lemma indexed_check (h : heap) : indexed_from 0 (length h) h = true -> indexed h.
Proof. intros Hc l n Hl. apply (indexed_from_spec h 0 (length h) Hc l n Hl). Qed.

Lemma _search_unfold fuel (h : heap) node node_id :
  _search_node_recursive (S fuel) h node node_id
  = match h !! node with
    | None => Raise AttributeError
    | Some n =>
        if has_id n node_id then Ok (Some node)
        else match children n with
             | None => Raise AttributeError
             | Some cs => search_over (fun c => _search_node_recursive fuel h c node_id) cs
             end
    end.
Proof. reflexivity. Qed.

Lemma _collect_unfold fuel (h : heap) node acc :
  _collect_nodes_recursive (S fuel) h node acc
  = match h !! node ≫= children with
    | None => Raise AttributeError
    | Some cs => collect_over (_collect_nodes_recursive fuel h) cs (acc ++ [node])
    end.
Proof. reflexivity. Qed.

Lemma _depth_unfold fuel (h : heap) node d :
  _calculate_depth_recursive (S fuel) h node d
  = match h !! node ≫= children with
    | None => Raise AttributeError
    | Some [] => Ok d
    | Some cs =>
        depth_over (fun c => _calculate_depth_recursive fuel h c (d + 1)) cs d
    end.
Proof. reflexivity. Qed.

Lemma first_with_id_app (h : heap) node_id l1 l2 :
  first_with_id h node_id (l1 ++ l2)
  = match first_with_id h node_id l1 with
    | Some o => Some o
    | None => first_with_id h node_id l2
    end.
Proof.
  unfold first_with_id. induction l1 as [|x l1 IH]; simpl; [reflexivity|].
  destruct (match h !! x with Some n => has_id n node_id | None => false end);
    [reflexivity | exact IH].
Qed.

(** One traversal order for the three helpers: on an indexed arena the
    listing from a node, the search from it and the depth below it all
    follow the same list of descendants, whatever the number of frames left,
    as long as it exceeds the number of nodes allocated from the node on. *)
Lemma index_walk (h : heap) :
  indexed h ->
  forall m node,
    (length h - node <= m)%nat -> (node < length h)%nat ->
    exists listing,
      Forall (fun o => (node < o < length h)%nat) listing
      /\ forall fuel, (length h < fuel + node)%nat ->
           (forall acc, _collect_nodes_recursive fuel h node acc = Ok (acc ++ node :: listing))
           /\ (forall node_id,
                 _search_node_recursive fuel h node node_id
                 = Ok (first_with_id h node_id (node :: listing)))
           /\ (forall d, exists d',
                 _calculate_depth_recursive fuel h node d = Ok d'
                 /\ (d <= d' <= d + Z.of_nat (length listing))%Z
                 /\ (d' = d <-> attr_at h node children = Some [])).
Proof.
  intros Hidx. induction m as [|m IH]; intros node Hm Hlt; [lia|].
  destruct (lookup_lt_is_Some_2 h node Hlt) as [n Hn].
  destruct (Hidx node n Hn) as (cs & Hcs & Hall).
  assert (Inner : exists listing,
    Forall (fun o => (node < o < length h)%nat) listing
    /\ (cs = [] -> listing = [])
    /\ forall fuel, (length h < S fuel + node)%nat ->
         (forall acc, collect_over (_collect_nodes_recursive fuel h) cs acc
                      = Ok (acc ++ listing))
         /\ (forall node_id,
               search_over (fun c => _search_node_recursive fuel h c node_id) cs
               = Ok (first_with_id h node_id listing))
         /\ (forall d mx, exists m',
               depth_over (fun c => _calculate_depth_recursive fuel h c (d + 1)) cs mx = Ok m'
               /\ (mx <= m' <= Z.max mx (d + Z.of_nat (length listing)))%Z
               /\ (cs <> [] -> (d + 1 <= m')%Z))).
  { clear Hcs. induction cs as [|c cs IHcs].
    - exists []. split; [constructor|]. split; [reflexivity|]. intros fuel _.
      split; [intros acc; simpl; rewrite app_nil_r; reflexivity|].
      split; [reflexivity|].
      intros d mx. exists mx. simpl. split; [reflexivity|]. split; [lia | contradiction].
    - inversion Hall as [|? ? Hc Hcs']; subst.
      destruct (IH c) as (lc & Flc & Wc); [lia | lia |].
      destruct (IHcs Hcs') as (ls & Fls & _ & Ws).
      exists (c :: lc ++ ls). split; [|split; [discriminate|]].
      + constructor; [lia|]. apply List.Forall_app. split; [|exact Fls].
        eapply List.Forall_impl; [|exact Flc]. simpl. intros o Ho. lia.
      + intros fuel Hfuel.
        destruct (Wc fuel ltac:(lia)) as (Clc & Slc & Dlc).
        destruct (Ws fuel Hfuel) as (Cls & Sls & Dls).
        split; [|split].
        * intros acc. simpl. rewrite Clc, Cls, <- app_assoc. reflexivity.
        * intros node_id. simpl search_over. rewrite Slc.
          change (c :: lc ++ ls) with ((c :: lc) ++ ls). rewrite first_with_id_app.
          destruct (first_with_id h node_id (c :: lc)); [reflexivity | apply Sls].
        * intros d mx. simpl depth_over.
          destruct (Dlc (d + 1)%Z) as (dc & -> & Hdc & _).
          destruct (Dls d (Z.max mx dc)) as (m' & -> & Hm' & _).
          exists m'. split; [reflexivity|]. simpl length. rewrite length_app.
          split; [lia | intros _; lia]. }
  destruct Inner as (listing & Fl & Hnil & W).
  exists listing. split; [exact Fl|]. intros fuel Hfuel.
  destruct fuel as [|fuel]; [lia|]. destruct (W fuel Hfuel) as (Cl & Sl & Dl).
  split; [|split].
  - intros acc. rewrite _collect_unfold, Hn. simpl. rewrite Hcs, Cl, <- app_assoc.
    reflexivity.
  - intros node_id. rewrite _search_unfold, Hn, Hcs. unfold first_with_id at 1.
    simpl List.find. rewrite Hn. destruct (has_id n node_id); [reflexivity | apply Sl].
  - intros d. rewrite _depth_unfold, Hn. simpl. rewrite Hcs. unfold attr_at. rewrite Hn, Hcs.
    destruct cs as [|c cs].
    + exists d. rewrite (Hnil eq_refl). simpl. split; [reflexivity|]. split; [lia|].
      split; reflexivity.
    + destruct (Dl d d) as (m' & -> & Hm' & Hne). exists m'. split; [reflexivity|].
      specialize (Hne ltac:(discriminate)). split; [lia|].
      split; [lia | discriminate].
Qed.

Lemma frames_below_le (a b : nat) : (a <= b)%nat -> (frames_below b <= frames_below a)%nat.
Proof. unfold frames_below. lia. Qed.

(** X7. On a tree whose nodes all have their list of children (members
    allocated after their parent) and that has fewer nodes than the search
    has frames left, [get_all_nodes] returns a listing that starts with the
    root, and [_find_node_by_id] returns the first node of that listing that
    carries the identifier, whatever the identifier: among nodes with the
    same identifier the lookup answers the one that comes first in
    pre-order, and [None] exactly when no listed node has it.  Neither call
    changes the tree. *)
Theorem lookup_is_first_listed (w : World) (root : loc) :
  indexed (nodes w) ->
  root_node (tree w) = Some root ->
  (root < length (nodes w))%nat ->
  (length (nodes w) < frames_below 3)%nat ->
  exists listing,
    get_all_nodes w = (w, Ok (root :: listing))
    /\ forall node_id,
         _find_node_by_id node_id w
         = (w, Ok (first_with_id (nodes w) node_id (root :: listing))).
Proof.
  intros Hidx Hroot Hlt Hframes.
  pose proof (frames_below_le 2 3 ltac:(lia)) as Hle.
  destruct (index_walk (nodes w) Hidx (length (nodes w)) root ltac:(lia) Hlt)
    as (listing & _ & W).
  exists listing. split.
  - destruct (W (frames_below 2) ltac:(lia)) as (Hc & _).
    unfold get_all_nodes. rewrite Hroot, Hc. reflexivity.
  - destruct (W (frames_below 3) ltac:(lia)) as (_ & Hs & _).
    intros node_id. unfold _find_node_by_id, find_node. rewrite Hroot, Hs. reflexivity.
Qed.

Lemma lookup_is_first_listed_witness :
  exists listing,
    get_all_nodes family_world = (family_world, Ok (0%nat :: listing))
    /\ forall node_id,
         _find_node_by_id node_id family_world
         = (family_world,
            Ok (first_with_id (nodes family_world) node_id (0%nat :: listing))).
Proof.
  apply (lookup_is_first_listed family_world 0%nat);
    [apply indexed_check; vm_compute; reflexivity | reflexivity | vm_compute; lia
    | apply Nat.ltb_lt; vm_compute; reflexivity].
Defined.

(** The helpers raise [RecursionError] when they run out of frames: a chain
    of three nodes with two frames left. *)
Example recursion_limit_example :
  let chain := [set_children [1%nat] (fresh "q0" "a0" None);
                set_children [2%nat] (fresh "q1" "a1" (Some 0%nat));
                set_children [] (fresh "q2" "a2" (Some 1%nat))] in
  _collect_nodes_recursive 2 chain 0 [] = Raise RecursionError
  /\ _search_node_recursive 2 chain 0 "absent" = Raise RecursionError
  /\ _calculate_depth_recursive 2 chain 0 1 = Raise RecursionError
  /\ _collect_nodes_recursive 3 chain 0 [] = Ok [0; 1; 2]%nat
  /\ _search_node_recursive 3 chain 0 "absent" = Ok None
  /\ _calculate_depth_recursive 3 chain 0 1 = Ok 3%Z
  /\ _node_to_dict 5 chain 0 = Raise RecursionError
  /\ _node_to_dict 6 chain 0
     = Ok (node_dict "q0" "a0" [node_dict "q1" "a1" [node_dict "q2" "a2" [] []] []] []).
Proof. repeat split; vm_compute; reflexivity. Qed.

(** X8. On such a tree [_calculate_max_depth] returns a depth between 1 and
    the length of the listing of [get_all_nodes]; it is 1 exactly when the
    root has no children; and [get_tree_stats] reports that depth, a root,
    and the counter [node_count] as it stands. *)
Theorem max_depth_bounds (w : World) (root : loc) :
  indexed (nodes w) ->
  root_node (tree w) = Some root ->
  (root < length (nodes w))%nat ->
  (length (nodes w) < frames_below 3)%nat ->
  exists d listing,
    _calculate_max_depth w = (w, Ok d)
    /\ get_all_nodes w = (w, Ok listing)
    /\ (1 <= d <= Z.of_nat (length listing))%Z
    /\ (d = 1%Z <-> attr_at (nodes w) root children = Some [])
    /\ get_tree_stats w
       = (w, Ok {| stats_node_count := node_count (tree w);
                   stats_has_root := true;
                   stats_max_depth := d |}).
Proof.
  intros Hidx Hroot Hlt Hframes.
  pose proof (frames_below_le 2 3 ltac:(lia)) as Hle.
  destruct (index_walk (nodes w) Hidx (length (nodes w)) root ltac:(lia) Hlt)
    as (listing & _ & W).
  destruct (W (frames_below 2) ltac:(lia)) as (Hc & _).
  destruct (W (frames_below 3) ltac:(lia)) as (_ & _ & Hd).
  destruct (Hd 1%Z) as (d & Hdepth & Hbounds & Hone).
  assert (Hmax : _calculate_max_depth w = (w, Ok d)).
  { unfold _calculate_max_depth, max_depth_of. rewrite Hroot, Hdepth. reflexivity. }
  exists d, (root :: listing). split; [exact Hmax|]. split; [|split; [|split]].
  - unfold get_all_nodes. rewrite Hroot, Hc. reflexivity.
  - simpl length. lia.
  - exact Hone.
  - unfold get_tree_stats, bind, read_tree, ret. rewrite Hmax, Hroot. reflexivity.
Qed.

Lemma max_depth_bounds_witness :
  exists d listing,
    _calculate_max_depth family_world = (family_world, Ok d)
    /\ get_all_nodes family_world = (family_world, Ok listing)
    /\ (1 <= d <= Z.of_nat (length listing))%Z
    /\ (d = 1%Z <-> attr_at (nodes family_world) 0%nat children = Some [])
    /\ get_tree_stats family_world
       = (family_world, Ok {| stats_node_count := node_count (tree family_world);
                              stats_has_root := true;
                              stats_max_depth := d |}).
Proof.
  apply (max_depth_bounds family_world 0%nat);
    [apply indexed_check; vm_compute; reflexivity | reflexivity | vm_compute; lia
    | apply Nat.ltb_lt; vm_compute; reflexivity].
Defined.

(** ** Transcripts and paths *)

Lemma walk_out_path (h : heap) current out :
  walk_out is_probable_system_heuristic h current out ->
  well_formed h ->
  forall fuel acc,
    (forall c, current = Some c -> (c < fuel)%nat) ->
    exists path,
      path_up fuel h current acc = Ok (path ++ acc)
      /\ rev out = concat (List.map (turn h) path).
Proof.
  intros Hwalk Hwf. induction Hwalk as [|cur n rsp msg out Hn Hr Hm Hwalk IH];
    intros fuel acc Hfuel.
  - exists []. split; [destruct fuel; reflexivity | reflexivity].
  - destruct fuel as [|fuel]; [specialize (Hfuel cur eq_refl); lia|].
    cbn [path_up]. unfold parent_of. rewrite Hn.
    destruct (IH fuel (cur :: acc)) as (path & Hpath & Hout).
    { intros c Hc. destruct (Hwf cur n Hn) as (_ & _ & Hp).
      specialize (Hp c Hc). specialize (Hfuel cur eq_refl). lia. }
    exists (path ++ [cur]). split; [rewrite <- app_assoc; exact Hpath|].
    rewrite List.map_app, concat_app. simpl. rewrite app_nil_r.
    rewrite rev_app_distr, <- Hout, <- List.map_rev, rev_involutive.
    unfold turn, attr_at. rewrite Hn, Hm, Hr, <- app_assoc. reflexivity.
Qed.

Lemma world_step_keeps (w w' : World) :
  world_step w w' ->
  forall l n, nodes w !! l = Some n ->
    exists n', nodes w' !! l = Some n' /\ message n' = message n
               /\ response n' = response n /\ parent n' = parent n.
Proof.
  intros [Hr Hn | u a Hnone Hr Hn] l n Hl.
  - pose proof (lookup_lt_Some _ _ _ Hl) as Hlt.
    pose proof (node_step_length _ _ Hn) as Hlen.
    destruct (lookup_lt_is_Some_2 (nodes w') l ltac:(lia)) as [n' Hl'].
    exists n'. split; [exact Hl'|].
    destruct (node_step_links _ _ Hn l n' Hl') as [(n0 & Hl0 & E) | (Hnew & _)]; [|lia].
    rewrite Hl in Hl0. inversion Hl0; subst. exact E.
  - exists n. rewrite Hn. split; [apply lookup_app_l_Some; exact Hl | auto].
Qed.

Lemma walk_out_keeps classifier (h h' : heap) current out :
  (forall l n, h !! l = Some n ->
     exists n', h' !! l = Some n' /\ message n' = message n
                /\ response n' = response n /\ parent n' = parent n) ->
  walk_out classifier h current out -> walk_out classifier h' current out.
Proof.
  intros Hkeep. induction 1 as [|cur n rsp msg out Hn Hr Hm Hwalk IH]; [constructor|].
  destruct (Hkeep cur n Hn) as (n' & Hn' & Em & Er & Ep).
  apply walk_node with (n := n'); [exact Hn' | congruence | congruence |].
  rewrite Ep. exact IH.
Qed.

(** X9. In an arena where every node has its message and response and was
    allocated after its parent, when the lookup finds a node for an
    identifier, [get_conversation_path] returns a path and [get_context] on
    the node found returns the turns of the nodes of that path, in the order
    of the path: for each node the sentences of its message, then its
    response as the assistant entry. *)
Theorem transcript_along_path (w : World) (node_id : string) (target : loc) :
  well_formed (nodes w) ->
  find_node w node_id = Ok (Some target) ->
  exists path,
    get_conversation_path node_id w = (w, Ok path)
    /\ get_context (nodes w) target = Ok (concat (List.map (turn (nodes w)) path)).
Proof.
  intros Hwf Hf. pose proof (find_node_valid _ _ _ Hf) as Hlt.
  destruct (walk_out_exists is_probable_system_heuristic _ Hwf target Hlt) as [out Hwalk].
  destruct (walk_out_path _ _ _ Hwalk Hwf (S (length (nodes w))) [])
    as (path & Hpath & Hout); [intros c Hc; inversion Hc; subst; lia|].
  rewrite app_nil_r in Hpath. exists path. split.
  - unfold get_conversation_path.
    rewrite (bind_ok _ _ _ _ _ (find_node_run _ _ _ Hf)). rewrite Hpath. reflexivity.
  - destruct (get_context_with_walk_out _ _ _ _ Hwf Hwalk Hlt) as [_ E].
    unfold get_context. rewrite E, Hout. reflexivity.
Qed.

Lemma transcript_along_path_witness :
  exists path,
    get_conversation_path "grandkid" family_world = (family_world, Ok path)
    /\ get_context (nodes family_world) 2%nat
       = Ok (concat (List.map (turn (nodes family_world)) path)).
Proof.
  apply (transcript_along_path family_world "grandkid" 2%nat);
    [apply well_formed_check; vm_compute; reflexivity | vm_compute; reflexivity].
Defined.

(** X10. No call changes a transcript: in a tree built by calls, whatever
    call is made next (whether it returns or raises), [get_context] on a
    node that existed before the call returns the same entries after it as
    before it. *)
Theorem transcript_is_stable (w : World) (c : call) (o : loc) :
  reachable w -> valid_call c w -> (o < length (nodes w))%nat ->
  exists ctx,
    get_context (nodes w) o = Ok ctx
    /\ get_context (nodes (exec c w)) o = Ok ctx.
Proof.
  intros Hw Hc Hlt.
  pose proof (reachable_well_formed w Hw) as Hwf.
  pose proof (reachable_well_formed _ (reachable_step w c Hw Hc)) as Hwf'.
  pose proof (exec_world_step c w Hc) as Hstep.
  destruct (walk_out_exists is_probable_system_heuristic _ Hwf o Hlt) as [out Hwalk].
  exists (rev out). split.
  - apply (get_context_with_walk_out _ _ _ _ Hwf Hwalk Hlt).
  - pose proof (walk_out_keeps _ _ _ _ _ (world_step_keeps _ _ Hstep) Hwalk) as Hwalk'.
    destruct (lookup_lt_is_Some_2 _ o Hlt) as [n Hn].
    destruct (world_step_keeps _ _ Hstep o n Hn) as (n' & Hn' & _).
    apply (get_context_with_walk_out _ _ _ _ Hwf' Hwalk' (lookup_lt_Some _ _ _ Hn')).
Qed.

Lemma transcript_is_stable_witness :
  exists ctx,
    get_context (nodes (exec (CreateRoot "Hi. What is Python?" python_text) init)) 0%nat
    = Ok ctx
    /\ get_context
         (nodes (exec (NodeAddSegmentChild 0%nat 1 "Why?" "Because.")
                   (exec (CreateRoot "Hi. What is Python?" python_text) init))) 0%nat
       = Ok ctx.
Proof.
  apply (transcript_is_stable
           (exec (CreateRoot "Hi. What is Python?" python_text) init)
           (NodeAddSegmentChild 0%nat 1 "Why?" "Because.") 0%nat);
    [apply reachable_step; [apply reachable_init | exact I]
    | vm_compute; lia | vm_compute; lia].
Defined.

(** The transcripts after a node was appended below [self], whose record
    was replaced by one with the same message, response and parent. *)
Lemma attach_transcript (h : heap) (self : loc) (n n2 : Node) (msg rsp : string) :
  well_formed h ->
  h !! self = Some n ->
  message n2 = message n -> response n2 = response n -> parent n2 = parent n ->
  exists ctx,
    get_context h self = Ok ctx
    /\ get_context (<[self := n2]> (h ++ [fresh msg rsp (Some self)])) self = Ok ctx
    /\ get_context (<[self := n2]> (h ++ [fresh msg rsp (Some self)])) (length h)
       = Ok (ctx ++ List.map (unit_entry is_probable_system_heuristic) (units msg)
                 ++ [entry "assistant" rsp]).
Proof.
  intros Hwf Hn Em Er Ep. pose proof (lookup_lt_Some _ _ _ Hn) as Hlt.
  remember (<[self := n2]> (h ++ [fresh msg rsp (Some self)])) as h' eqn:Eh'.
  assert (Hlen : length h' = S (length h))
    by (subst h'; rewrite length_insert, length_app; simpl; lia).
  assert (Hkeep : forall l n0, h !! l = Some n0 ->
            exists n', h' !! l = Some n' /\ message n' = message n0
                       /\ response n' = response n0 /\ parent n' = parent n0).
  { intros l n0 Hl. destruct (decide (l = self)) as [->|Hne].
    - rewrite Hn in Hl. inversion Hl; subst n0. exists n2. split; [|auto].
      rewrite Eh'. apply list_lookup_insert_eq. rewrite length_app. simpl. lia.
    - exists n0. split; [|auto]. rewrite Eh'.
      rewrite list_lookup_insert_ne by (intros ->; apply Hne; reflexivity).
      apply lookup_app_l_Some. exact Hl. }
  assert (Hnew : h' !! length h = Some (fresh msg rsp (Some self))).
  { rewrite Eh'. rewrite list_lookup_insert_ne by lia.
    rewrite lookup_app_r by lia. rewrite Nat.sub_diag. reflexivity. }
  assert (Hwf' : well_formed h').
  { intros l n' Hl. pose proof (lookup_lt_Some _ _ _ Hl) as Hl'.
    destruct (decide (l < length h)%nat) as [Hold|Hfresh].
    - destruct (lookup_lt_is_Some_2 h l Hold) as [n0 Hn0].
      destruct (Hkeep l n0 Hn0) as (n'' & Hn'' & Em' & Er' & Ep').
      rewrite Hl in Hn''. inversion Hn''; subst n''.
      rewrite Em', Er', Ep'. apply (Hwf l n0 Hn0).
    - assert (l = length h) by lia. subst l. rewrite Hnew in Hl. inversion Hl; subst n'.
      simpl. split; [eauto|]. split; [eauto|]. intros p Hp. inversion Hp; subst. exact Hlt. }
  destruct (walk_out_exists is_probable_system_heuristic h Hwf self Hlt) as [out Hwalk].
  pose proof (walk_out_keeps _ _ _ _ _ Hkeep Hwalk) as Hwalk'.
  assert (Hchild : walk_out is_probable_system_heuristic h' (Some (length h))
            (entry "assistant" rsp
             :: List.map (unit_entry is_probable_system_heuristic) (rev (units msg)) ++ out)).
  { apply walk_node with (n := fresh msg rsp (Some self));
      [exact Hnew | reflexivity | reflexivity | exact Hwalk']. }
  exists (rev out). split; [|split].
  - apply (get_context_with_walk_out _ _ _ _ Hwf Hwalk Hlt).
  - apply (get_context_with_walk_out _ _ _ _ Hwf' Hwalk'). lia.
  - destruct (get_context_with_walk_out _ _ _ _ Hwf' Hchild ltac:(lia)) as [_ Eget].
    unfold get_context. rewrite Eget. f_equal.
    simpl. rewrite rev_app_distr, <- List.map_rev, rev_involutive, <- app_assoc.
    reflexivity.
Qed.

(** X11. Attaching a child to a segment extends the transcript: in an arena
    where every node has its message and response and was allocated after
    its parent, a successful [add_segment_specific_child] leaves the
    transcript of the parent as it was, and the transcript of the new child
    is that transcript followed by the sentences of the child's message and
    the child's response. *)
Theorem segment_child_transcript (h : heap) (self : loc) (n : Node)
    (segs : list ResponseSegment) (i : Z) (msg rsp : string) :
  well_formed h ->
  h !! self = Some n ->
  response_segments n = Some segs ->
  (0 <= i < Z.of_nat (length segs))%Z ->
  exists h' ctx,
    add_segment_specific_child self i msg rsp h = (h', Ok (length h))
    /\ get_context h self = Ok ctx
    /\ get_context h' self = Ok ctx
    /\ get_context h' (length h)
       = Ok (ctx ++ List.map (unit_entry is_probable_system_heuristic) (units msg)
                 ++ [entry "assistant" rsp]).
Proof.
  intros Hwf Hn Hs Hi.
  destruct (add_segment_specific_child_in_range h self n segs i msg rsp Hn Hs Hi)
    as (seg & Hseg & E).
  destruct (attach_transcript h self n
              (set_response_segments
                 (<[Z.to_nat i := append_seg_child (length h) seg]> segs) n)
              msg rsp Hwf Hn eq_refl eq_refl eq_refl) as (ctx & H1 & H2 & H3).
  eexists _, ctx. split; [exact E|]. split; [exact H1|]. split; [exact H2 | exact H3].
Qed.

Lemma segment_child_transcript_witness :
  exists h' ctx,
    add_segment_specific_child 0 1 "Hi. Why is it simple?" "Indentation." [demo_root]
    = (h', Ok (length [demo_root]))
    /\ get_context [demo_root] 0 = Ok ctx
    /\ get_context h' 0 = Ok ctx
    /\ get_context h' (length [demo_root])
       = Ok (ctx ++ List.map (unit_entry is_probable_system_heuristic)
                     (units "Hi. Why is it simple?")
                 ++ [entry "assistant" "Indentation."]).
Proof.
  apply (segment_child_transcript [demo_root] 0%nat demo_root (segments_for python_text) 1
           "Hi. Why is it simple?" "Indentation.");
    [apply well_formed_check; vm_compute; reflexivity
    | reflexivity | reflexivity | vm_compute; split; [discriminate | reflexivity]].
Defined.

(** X20. [Node.add_child] on a node that has its list of children, in an
    arena where every node has its message and response and was allocated
    after its parent: the call returns the next node allocated, which holds
    the message and response given and the node as parent; the node's list
    of children gets it appended and no other node changes; the transcript
    of the node is as before, and the transcript of the child is that
    transcript followed by the sentences of its message and its response. *)
Theorem add_child_contract (h : heap) (self : loc) (n : Node) (cs : list loc)
    (msg rsp : string) :
  well_formed h ->
  h !! self = Some n ->
  children n = Some cs ->
  exists h' ctx,
    add_child self msg rsp h = (h', Ok (length h))
    /\ h' !! length h = Some (fresh msg rsp (Some self))
    /\ h' !! self = Some (set_children (cs ++ [length h]) n)
    /\ (forall l, l <> self -> (l < length h)%nat -> h' !! l = h !! l)
    /\ length h' = S (length h)
    /\ get_context h self = Ok ctx
    /\ get_context h' self = Ok ctx
    /\ get_context h' (length h)
       = Ok (ctx ++ List.map (unit_entry is_probable_system_heuristic) (units msg)
                 ++ [entry "assistant" rsp]).
Proof.
  intros Hwf Hn Hcs. pose proof (lookup_lt_Some _ _ _ Hn) as Hlt.
  pose proof (add_child_run self msg rsp h n Hn) as Hrun. rewrite Hcs in Hrun.
  destruct (attach_transcript h self n (set_children (cs ++ [length h]) n)
              msg rsp Hwf Hn eq_refl eq_refl eq_refl) as (ctx & H1 & H2 & H3).
  eexists _, ctx. split; [exact Hrun|].
  split; [rewrite list_lookup_insert_ne by lia; rewrite lookup_app_r by lia;
          rewrite Nat.sub_diag; reflexivity|].
  split; [apply list_lookup_insert_eq; rewrite length_app; simpl; lia|].
  split; [intros l Hne Hl; rewrite list_lookup_insert_ne by
            (intros E; apply Hne; symmetry; exact E); apply lookup_app_l; exact Hl|].
  split; [rewrite length_insert, length_app; simpl; lia|].
  split; [exact H1|]. split; [exact H2 | exact H3].
Qed.

Lemma add_child_contract_witness :
  exists h' ctx,
    add_child 1 "Hi. And then?" "Nothing." (nodes family_world)
    = (h', Ok (length (nodes family_world)))
    /\ h' !! length (nodes family_world) = Some (fresh "Hi. And then?" "Nothing." (Some 1%nat))
    /\ get_context (nodes family_world) 1 = Ok ctx
    /\ get_context h' 1 = Ok ctx
    /\ get_context h' (length (nodes family_world))
       = Ok (ctx ++ List.map (unit_entry is_probable_system_heuristic)
                     (units "Hi. And then?")
                 ++ [entry "assistant" "Nothing."]).
Proof.
  destruct (add_child_contract (nodes family_world) 1%nat
              (set_children [2%nat]
                 (set_response_segments (segments_for "Fast enough.")
                    (set__id "kid" (fresh "Is it fast?" "Fast enough." (Some 0%nat)))))
              [2%nat] "Hi. And then?" "Nothing.")
    as (h' & ctx & Hrun & Hnew & _ & _ & _ & H1 & H2 & H3);
    [apply well_formed_check; vm_compute; reflexivity
    | vm_compute; reflexivity | reflexivity |].
  exists h', ctx. auto.
Defined.

(** X21. The path query on a tree built by calls never leads below the
    root: [get_conversation_path] returns the empty path when the tree has
    no root, the path made of the root alone when the root carries the
    identifier, and raises [AttributeError] otherwise; the tree is left as
    it was, and the root is the first node allocated. *)
Theorem path_on_built_tree (w : World) (node_id : string) :
  reachable w ->
  get_conversation_path node_id w = (w, path_at_root w node_id)
  /\ forall root, root_node (tree w) = Some root -> root = 0%nat.
Proof.
  intros Hw. split.
  - assert (Hf : find_node w node_id = lookup_at_root w node_id).
    { unfold find_node, lookup_at_root. destruct (root_node (tree w)) as [root|] eqn:Hr;
        [|reflexivity].
      destruct (built_root w root Hw Hr) as (n & Hn & Hc).
      destruct (frames_below_S 3 eq_refl) as [f ->]. cbn [_search_node_recursive].
      unfold has_id, attr_at. rewrite Hn, Hc.
      destruct (_id n) as [i|]; [|reflexivity].
      destruct (String.eqb i node_id); reflexivity. }
    unfold get_conversation_path, path_at_root.
    destruct (lookup_at_root w node_id) as [[root|]|e|] eqn:El.
    + rewrite (bind_ok _ _ _ _ _ (find_node_run _ _ _ Hf)).
      assert (Hr : root_node (tree w) = Some root).
      { unfold lookup_at_root in El. destruct (root_node (tree w)) as [r|]; [|discriminate].
        destruct (attr_at (nodes w) r _id) as [i|]; [|discriminate].
        destruct (String.eqb i node_id); [congruence | discriminate]. }
      destruct (built_root w root Hw Hr) as (n & Hn & _).
      destruct (reachable_invariant w Hw) as (Horph & _ & _).
      assert (Hp : parent_of (nodes w) root = None).
      { unfold parent_of. rewrite Hn. apply (Horph root n Hn). exact Hr. }
      cbn [path_up]. rewrite Hp.
      destruct (length (nodes w)); reflexivity.
    + rewrite (bind_ok _ _ _ _ _ (find_node_run _ _ _ Hf)). reflexivity.
    + rewrite (bind_raise _ _ _ _ _ (find_node_run _ _ _ Hf)). reflexivity.
    + exfalso. unfold lookup_at_root in El.
      destruct (root_node (tree w)) as [r|]; [|discriminate].
      destruct (attr_at (nodes w) r _id) as [i|]; [|discriminate].
      destruct (String.eqb i node_id); discriminate.
  - intros root Hr. destruct (reachable_built w Hw) as [_ Hcount].
    unfold count_in_bounds in Hcount. rewrite Hr in Hcount. apply Hcount.
Qed.

Lemma path_on_built_tree_witness :
  get_conversation_path "root"
    (exec (NodeAddSegmentChild 0 0 "Why?" "Because.")
       (exec (PostInit "root" 0) (exec (CreateRoot "q" "a") init)))
  = (exec (NodeAddSegmentChild 0 0 "Why?" "Because.")
       (exec (PostInit "root" 0) (exec (CreateRoot "q" "a") init)), Ok [0%nat])
  /\ get_conversation_path "other"
       (exec (NodeAddSegmentChild 0 0 "Why?" "Because.")
          (exec (PostInit "root" 0) (exec (CreateRoot "q" "a") init)))
     = (exec (NodeAddSegmentChild 0 0 "Why?" "Because.")
          (exec (PostInit "root" 0) (exec (CreateRoot "q" "a") init)),
        Raise AttributeError).
Proof.
  assert (Hw : reachable (exec (NodeAddSegmentChild 0 0 "Why?" "Because.")
                            (exec (PostInit "root" 0) (exec (CreateRoot "q" "a") init)))).
  { apply reachable_step;
      [apply reachable_step; [apply reachable_step; [apply reachable_init | exact I]|]|];
      vm_compute; lia. }
  split.
  - apply (path_on_built_tree _ "root" Hw).
  - apply (path_on_built_tree _ "other" Hw).
Defined.

(** ** Segmentation: failure, lines and round trip *)

(** X12. A failed segmentation is not free of effects.  On a node that has
    no [response] attribute, [_segment_response] raises [AttributeError]
    after it has reset the node's segments to the empty list, and
    [__post_init__] raises after it has also assigned the identifier. *)
Theorem segmentation_without_response (h : heap) (self : loc) (n : Node) (uuid : string) :
  h !! self = Some n ->
  response n = None ->
  _segment_response self h
  = (<[self := set_response_segments [] n]> h, Raise AttributeError)
  /\ __post_init__ uuid self h
     = (<[self := set_response_segments [] (set__id uuid n)]> h, Raise AttributeError).
Proof.
  intros Hn Hr. pose proof (lookup_lt_Some _ _ _ Hn) as Hlt.
  assert (Hseg : forall (h0 : heap) m, h0 !! self = Some m -> response m = None ->
            _segment_response self h0
            = (<[self := set_response_segments [] m]> h0, Raise AttributeError)).
  { intros h0 m Hm Hrm. unfold _segment_response.
    rewrite (bind_ok _ _ _ _ _ (setattr_ok _ _ _ _ Hm)).
    apply bind_raise.
    apply getattr_missing with (n := set_response_segments [] m); [|exact Hrm].
    apply list_lookup_insert_eq. apply (lookup_lt_Some _ _ _ Hm). }
  split; [apply Hseg; assumption|].
  unfold __post_init__.
  rewrite (bind_ok _ _ _ _ _ (setattr_ok _ _ _ _ Hn)).
  rewrite (Hseg _ (set__id uuid n));
    [rewrite list_insert_insert_eq; reflexivity
    | apply list_lookup_insert_eq; exact Hlt | exact Hr].
Qed.

Lemma segmentation_without_response_witness :
  _segment_response 0 [blank]
  = (<[0%nat := set_response_segments [] blank]> [blank], Raise AttributeError)
  /\ __post_init__ "id" 0 [blank]
     = (<[0%nat := set_response_segments [] (set__id "id" blank)]> [blank],
        Raise AttributeError).
Proof.
  apply (segmentation_without_response [blank] 0%nat blank "id"); reflexivity.
Defined.

Lemma contains_lstrip x s : contains x (lstrip s) = true -> contains x s = true.
Proof.
  induction s as [|c s IH]; simpl; [auto|].
  destruct (isspace c); [|auto]. intros H. rewrite (IH H). apply orb_true_r.
Qed.

Lemma contains_rstrip x s : contains x (rstrip s) = true -> contains x s = true.
Proof.
  induction s as [|c s IH]; simpl; [auto|].
  destruct (rstrip s) as [|d r].
  - destruct (isspace c); simpl; [discriminate|].
    rewrite orb_false_r. intros ->. reflexivity.
  - simpl in *. intros H. apply orb_prop in H. destruct H as [-> | H]; [reflexivity|].
    rewrite (IH H). apply orb_true_r.
Qed.

Lemma contains_strip x s : contains x s = false -> contains x (strip s) = false.
Proof.
  intros H. destruct (contains x (strip s)) eqn:E; [|reflexivity].
  unfold strip in E. apply contains_rstrip, contains_lstrip in E. congruence.
Qed.

Lemma segments_for_lines rsp : List.map seg_content (segments_for rsp) = stripped_lines rsp.
Proof.
  unfold segments_for, enumerate. rewrite List.map_map.
  rewrite (List.map_ext (fun p => seg_content (mkseg p)) snd) by reflexivity.
  apply map_snd_enumerate_from.
Qed.

Lemma stripped_lines_shape rsp :
  Forall (fun c => c <> EmptyString /\ strip c = c /\ contains NL c = false)
         (stripped_lines rsp).
Proof.
  unfold stripped_lines. apply List.Forall_forall. intros c Hc.
  apply List.in_map_iff in Hc. destruct Hc as (l & <- & Hl).
  apply List.filter_In in Hl. destruct Hl as [Hin Hne].
  split; [intros E; rewrite E in Hne; discriminate|]. split; [apply strip_idem|].
  apply contains_strip.
  pose proof (split_on_no_sep NL rsp) as Hno. rewrite List.Forall_forall in Hno.
  apply Hno. exact Hin.
Qed.

Lemma push_length c (l : list string) : l <> [] -> length (push c l) = length l.
Proof. destruct l; [contradiction | reflexivity]. Qed.

Lemma split_on_length sep s :
  Z.of_nat (length (split_on sep s)) = (1 + count sep s)%Z.
Proof.
  induction s as [|c s IH]; [reflexivity|]. simpl split_on. cbn [count].
  destruct (Ascii.eqb c sep).
  - simpl length. lia.
  - rewrite push_length by apply split_on_nonempty. lia.
Qed.

Lemma split_on_plain sep p : contains sep p = false -> split_on sep p = [p].
Proof.
  induction p as [|c p IH]; [reflexivity|]. simpl. intros H.
  apply orb_false_elim in H. destruct H as [Hc Hp]. rewrite Hc, (IH Hp). reflexivity.
Qed.

Lemma split_on_app sep p rest :
  contains sep p = false ->
  split_on sep (p +:+ String sep rest) = p :: split_on sep rest.
Proof.
  induction p as [|c p IH]; intros H.
  - rewrite append_nil_l. simpl. rewrite Ascii.eqb_refl. reflexivity.
  - simpl in H. apply orb_false_elim in H. destruct H as [Hc Hp].
    rewrite append_cons. simpl split_on. rewrite Hc, (IH Hp). reflexivity.
Qed.

Lemma split_on_join sep (cs : list string) :
  cs <> [] -> Forall (fun c => contains sep c = false) cs ->
  split_on sep (join sep cs) = cs.
Proof.
  induction cs as [|c cs IH]; [contradiction|]. intros _ Hall.
  inversion Hall as [|? ? Hc Hcs]; subst.
  destruct cs as [|d cs]; [apply split_on_plain; exact Hc|].
  change (join sep (c :: d :: cs)) with (c +:+ String sep (join sep (d :: cs))).
  rewrite (split_on_app _ _ _ Hc), IH; [reflexivity | discriminate | exact Hcs].
Qed.

Lemma stripped_lines_join (cs : list string) :
  Forall (fun c => c <> EmptyString /\ strip c = c /\ contains NL c = false) cs ->
  stripped_lines (join NL cs) = cs.
Proof.
  intros Hall. destruct cs as [|c0 cs0] eqn:Ecs; [reflexivity|]. rewrite <- Ecs in *.
  unfold stripped_lines. rewrite split_on_join;
    [| rewrite Ecs; discriminate
     | eapply List.Forall_impl; [|exact Hall]; simpl; intros a (_ & _ & Ha); exact Ha].
  clear Ecs. induction Hall as [|c cs (Hne & Hstrip & _) _ IH]; [reflexivity|].
  simpl. rewrite Hstrip. destruct c as [|x c]; [contradiction|]. simpl.
  rewrite Hstrip, IH. reflexivity.
Qed.

(** X13. Segments are lines.  No segment that [_segment_response] stores
    contains a line feed; there are at most as many segments as the response
    has lines (one more than its line feeds); and a response without a line
    feed gives one segment, the trimmed response, or none when it is
    blank. *)
Theorem segments_are_lines (h : heap) (self : loc) (n : Node) (rsp : string) :
  h !! self = Some n ->
  response n = Some rsp ->
  exists segs,
    _segment_response self h = (<[self := set_response_segments segs n]> h, Ok tt)
    /\ Forall (fun seg => contains NL (seg_content seg) = false) segs
    /\ (Z.of_nat (length segs) <= 1 + count NL rsp)%Z
    /\ (contains NL rsp = false ->
        segs = if nonempty (strip rsp)
               then [{| seg_content := strip rsp; seg_index := 0; seg_children := [] |}]
               else []).
Proof.
  intros Hn Hr. exists (segments_for rsp).
  split; [apply _segment_response_run; assumption|]. split; [|split].
  - rewrite <- List.Forall_map with (f := seg_content) (P := fun c => contains NL c = false).
    rewrite segments_for_lines.
    eapply List.Forall_impl; [|apply stripped_lines_shape].
    simpl. intros a (_ & _ & Ha). exact Ha.
  - rewrite <- (List.length_map seg_content), segments_for_lines.
    unfold stripped_lines. rewrite List.length_map, <- split_on_length.
    apply inj_le, List.filter_length_le.
  - intros Hno. unfold segments_for, stripped_lines.
    rewrite (split_on_plain _ _ Hno). simpl.
    destruct (nonempty (strip rsp)); reflexivity.
Qed.

Lemma segments_are_lines_witness :
  exists segs,
    _segment_response 0 [python_root]
    = (<[0%nat := set_response_segments segs python_root]> [python_root], Ok tt)
    /\ Forall (fun seg => contains NL (seg_content seg) = false) segs
    /\ (Z.of_nat (length segs) <= 1 + count NL python_text)%Z
    /\ (contains NL python_text = false ->
        segs = if nonempty (strip python_text)
               then [{| seg_content := strip python_text; seg_index := 0;
                        seg_children := [] |}]
               else []).
Proof.
  apply (segments_are_lines [python_root] 0%nat python_root python_text); reflexivity.
Defined.

(** X14. Round trip of the segmentation.  Joining the contents of the
    segments of a response with line feeds gives a text whose segmentation,
    on any node that has it as response, is the same list of segments:
    contents, indices and empty children. *)
Theorem segments_round_trip (h : heap) (self : loc) (n : Node) (rsp : string) :
  h !! self = Some n ->
  response n = Some rsp ->
  exists segs,
    _segment_response self h = (<[self := set_response_segments segs n]> h, Ok tt)
    /\ forall (h2 : heap) (o : loc) (m : Node),
         h2 !! o = Some m ->
         response m = Some (join NL (List.map seg_content segs)) ->
         _segment_response o h2 = (<[o := set_response_segments segs m]> h2, Ok tt).
Proof.
  intros Hn Hr. exists (segments_for rsp).
  split; [apply _segment_response_run; assumption|].
  intros h2 o m Hm Hrm. rewrite (_segment_response_run o h2 m _ Hm Hrm).
  rewrite segments_for_lines. unfold segments_for at 1.
  rewrite stripped_lines_join by apply stripped_lines_shape. reflexivity.
Qed.

Lemma segments_round_trip_witness :
  exists segs,
    _segment_response 0 [python_root]
    = (<[0%nat := set_response_segments segs python_root]> [python_root], Ok tt)
    /\ forall (h2 : heap) (o : loc) (m : Node),
         h2 !! o = Some m ->
         response m = Some (join NL (List.map seg_content segs)) ->
         _segment_response o h2 = (<[o := set_response_segments segs m]> h2, Ok tt).
Proof.
  apply (segments_round_trip [python_root] 0%nat python_root python_text); reflexivity.
Defined.

(** ** The sentences of a message *)

Lemma star_drop_spaces (prev : option ascii) (s : string) :
  star (fun c => Ascii.eqb c " ") (fun p rest => Some (p, rest)) prev s
  = Some (match s with
          | String c _ => if Ascii.eqb c " " then Some " "%char else prev
          | EmptyString => prev
          end, drop_spaces s).
Proof.
  revert prev. induction s as [|c s IH]; intros prev; [reflexivity|].
  simpl. destruct (Ascii.eqb_spec c " ") as [->|Hne]; [|reflexivity].
  rewrite IH. destruct s as [|d s]; [reflexivity|].
  destruct (Ascii.eqb d " "); reflexivity.
Qed.

Lemma drop_spaces_length s : (String.length (drop_spaces s) <= String.length s)%nat.
Proof.
  induction s as [|c s IH]; simpl; [lia|].
  destruct (Ascii.eqb c " "); simpl; lia.
Qed.

Lemma drop_spaces_head s : first_char (drop_spaces s) <> Some " "%char.
Proof.
  induction s as [|c s IH]; simpl; [discriminate|].
  destruct (Ascii.eqb_spec c " ") as [->|Hne]; [exact IH|].
  simpl. intros E. inversion E. contradiction.
Qed.

Lemma drop_spaces_without s : without_spaces (drop_spaces s) = without_spaces s.
Proof.
  induction s as [|c s IH]; simpl; [reflexivity|].
  destruct (Ascii.eqb c " ") eqn:E; [exact IH|]. simpl. rewrite E. reflexivity.
Qed.

(** Where [sentence_boundary] matches and where its match ends. *)
Lemma match_end_boundary (prev : option ascii) (s : string) :
  match_end false sentence_boundary prev s
  = match s with
    | String c s' =>
        if ends_sentence_opt prev && Ascii.eqb c " "
        then Some (Some " "%char, drop_spaces s')
        else None
    | EmptyString => None
    end.
Proof.
  unfold match_end, sentence_boundary. cbn [rmatch].
  destruct prev as [p|]; [|destruct s; reflexivity].
  change (Ascii.eqb p "." || Ascii.eqb p "!" || Ascii.eqb p "?") with (ends_sentence p).
  cbn [ends_sentence_opt]. destruct (ends_sentence p); [|destruct s; reflexivity].
  destruct s as [|c s]; [reflexivity|]. cbn [andb].
  destruct (Ascii.eqb_spec c " ") as [->|Hne]; [|reflexivity].
  rewrite star_drop_spaces.
  replace (Nat.ltb (String.length (drop_spaces s)) (String.length (String " " s))) with true.
  - destruct s as [|d s]; [reflexivity|]. destruct (Ascii.eqb d " "); reflexivity.
  - symmetry. apply Nat.ltb_lt. pose proof (drop_spaces_length s). simpl. lia.
Qed.

Lemma flatten_push c (l : list string) : l <> [] -> flatten (push c l) = String c (flatten l).
Proof. destruct l; [contradiction | reflexivity]. Qed.

Lemma split_from_nonempty fuel ic r prev s : split_from fuel ic r prev s <> [].
Proof.
  destruct fuel; simpl; [discriminate|].
  destruct (match_end ic r prev s) as [[p rest]|]; [discriminate|].
  destruct s; [discriminate|]. unfold push. destruct (split_from _ _ _ _ _); discriminate.
Qed.

Lemma boundary_free_prev p1 p2 s :
  ends_sentence_opt p1 = false -> ends_sentence_opt p2 = false ->
  boundary_free p1 s = boundary_free p2 s.
Proof. intros H1 H2. destruct s; simpl; [reflexivity|]. rewrite H1, H2. reflexivity. Qed.

(** The pieces of a split started in the middle of a text, after the
    character [prev]. *)
Lemma split_from_pieces (fuel : nat) :
  forall prev s,
    exists p0 ps,
      split_from fuel false sentence_boundary prev s = p0 :: ps
      /\ without_spaces (flatten (p0 :: ps)) = without_spaces s
      /\ (ps <> [] -> ends_sentence_opt (after p0 prev) = true)
      /\ Forall (fun q => ends_sentence_opt (last_char q) = true) (removelast ps)
      /\ (ends_sentence_opt prev = false -> first_char p0 = first_char s)
      /\ Forall (fun q => first_char q <> Some " "%char) ps
      /\ ((String.length s < fuel)%nat ->
          boundary_free prev p0 = true /\ Forall (fun q => boundary_free None q = true) ps).
Proof.
  induction fuel as [|fuel IH]; intros prev s.
  - exists s, []. simpl. rewrite append_nil_r.
    repeat split; try constructor; try contradiction; lia.
  - cbn [split_from]. rewrite match_end_boundary.
    destruct s as [|c s].
    { exists EmptyString, []. repeat split; try constructor; contradiction. }
    destruct (ends_sentence_opt prev && Ascii.eqb c " ") eqn:Ecut.
    + apply andb_prop in Ecut. destruct Ecut as [Hprev Hc].
      destruct (IH (Some " "%char) (drop_spaces s))
        as (q0 & qs & -> & Hflat & Hend & Hmid & Hhead & Htail & Hfree).
      exists EmptyString, (q0 :: qs). split; [reflexivity|].
      split; [|split; [|split; [|split; [|split]]]].
      * change (flatten (EmptyString :: q0 :: qs)) with (flatten (q0 :: qs)).
        rewrite Hflat, drop_spaces_without. simpl. rewrite Hc. reflexivity.
      * intros _. exact Hprev.
      * destruct qs as [|q1 qs]; [constructor|].
        change (removelast (q0 :: q1 :: qs)) with (q0 :: removelast (q1 :: qs)).
        constructor; [|exact Hmid].
        specialize (Hend ltac:(discriminate)). unfold after in Hend.
        destruct (last_char q0); [exact Hend | discriminate Hend].
      * intros Hp. rewrite Hp in Hprev. discriminate.
      * constructor; [|exact Htail].
        rewrite (Hhead eq_refl). apply drop_spaces_head.
      * intros Hfuel. split; [reflexivity|].
        destruct Hfree as [F0 Fs];
          [pose proof (drop_spaces_length s); simpl in Hfuel; lia|].
        constructor; [|exact Fs].
        rewrite (boundary_free_prev None (Some " "%char)); [exact F0 | reflexivity..].
    + destruct (IH (Some c) s)
        as (q0 & qs & -> & Hflat & Hend & Hmid & Hhead & Htail & Hfree).
      exists (String c q0), qs. split; [reflexivity|].
      split; [|split; [|split; [|split; [|split]]]].
      * change (flatten (String c q0 :: qs)) with (String c (flatten (q0 :: qs))).
        cbn [without_spaces]. rewrite Hflat. reflexivity.
      * intros Hne. rewrite after_cons. apply Hend. exact Hne.
      * exact Hmid.
      * reflexivity.
      * exact Htail.
      * intros Hfuel. destruct Hfree as [F0 Fs]; [simpl in Hfuel; lia|].
        split; [|exact Fs]. simpl. rewrite Ecut, F0. reflexivity.
Qed.

(** X15. The sentences of a message, as [get_context] cuts them with
    [re.split(r'(?<=[.!?]) +', message)].  There is always at least one;
    put end to end they are the message up to spaces; every sentence but the
    last ends with a full stop, an exclamation mark or a question mark; no
    sentence after the first begins with a space; inside a sentence no space
    follows such a mark; and a message without a space is one sentence. *)
Theorem units_shape (msg : string) :
  units msg <> []
  /\ without_spaces (flatten (units msg)) = without_spaces msg
  /\ Forall (fun u => ends_sentence_opt (last_char u) = true) (removelast (units msg))
  /\ Forall (fun u => first_char u <> Some " "%char) (tail (units msg))
  /\ Forall (fun u => boundary_free None u = true) (units msg)
  /\ (contains " " msg = false -> units msg = [msg]).
Proof.
  unfold units, re_split.
  destruct (split_from_pieces (S (String.length msg)) None msg)
    as (p0 & ps & E & Hflat & Hend & Hmid & _ & Htail & Hfree).
  destruct (Hfree ltac:(lia)) as [F0 Fs].
  split; [apply split_from_nonempty|]. rewrite E.
  split; [exact Hflat|]. split; [|split; [exact Htail|split; [constructor; assumption|]]].
  - destruct ps as [|p1 ps]; [constructor|].
    change (removelast (p0 :: p1 :: ps)) with (p0 :: removelast (p1 :: ps)).
    constructor; [|exact Hmid].
    specialize (Hend ltac:(discriminate)). unfold after in Hend.
    destruct (last_char p0); [exact Hend | discriminate Hend].
  - rewrite <- E. clear.
    assert (G : forall fuel prev s, contains " " s = false ->
              split_from fuel false sentence_boundary prev s = [s]).
    { induction fuel as [|fuel IH]; intros prev s Hs; [reflexivity|].
      cbn [split_from]. rewrite match_end_boundary.
      destruct s as [|c s]; [reflexivity|].
      simpl in Hs. apply orb_false_elim in Hs. destruct Hs as [Hc Hs].
      rewrite Hc, andb_false_r, (IH _ _ Hs). reflexivity. }
    apply G.
Qed.

Lemma units_shape_witness :
  units "Thanks!" = ["Thanks!"]
  /\ Forall (fun u => ends_sentence_opt (last_char u) = true)
            (removelast (units "Hi there.  You are an assistant. What is Python?")).
Proof.
  destruct (units_shape "Thanks!") as (_ & _ & _ & _ & _ & Hone).
  destruct (units_shape "Hi there.  You are an assistant. What is Python?")
    as (_ & _ & Hends & _).
  split; [apply Hone; reflexivity | exact Hends].
Defined.

(** ** Branches attached through the tree *)

(** X16. In a tree built by calls, [Tree.add_segment_specific_child] can
    only attach to the root.  When it returns a node, the root carries the
    identifier asked for, the node is the next one allocated, it holds the
    message and response given and the root as parent, and the node count
    has grown by one.  When it returns [None] or raises, the tree and its
    nodes are as before; it raises nothing but [AttributeError]. *)
Theorem tree_branches_hang_off_the_root (w : World) (pid : string) (i : Z) (u a : string) :
  reachable w ->
  match Tree_add_segment_specific_child pid i u a w with
  | (w', Ok (Some child)) =>
      root_node (tree w) = Some 0%nat
      /\ attr_at (nodes w) 0%nat _id = Some pid
      /\ child = length (nodes w)
      /\ nodes w' !! child = Some (fresh u a (Some 0%nat))
      /\ length (nodes w') = S (length (nodes w))
      /\ tree w' = {| root_node := Some 0%nat; node_count := (node_count (tree w) + 1)%Z |}
  | (w', Ok None) => w' = w
  | (w', Raise e) => w' = w /\ e = AttributeError
  | (_, OutOfFuel) => False
  end.
Proof.
  intros Hw. unfold Tree_add_segment_specific_child.
  destruct (root_node (tree w)) as [root|] eqn:Hr.
  - destruct (reachable_built w Hw) as [_ Hcount].
    unfold count_in_bounds in Hcount. rewrite Hr in Hcount. destruct Hcount as [-> _].
    destruct (built_root w 0%nat Hw Hr) as (n & Hn & Hc).
    pose proof (find_node_unindexed_root w 0%nat n pid Hr Hn Hc) as Hf.
    destruct (has_id n pid) eqn:Hid.
    + rewrite (bind_ok _ _ _ _ _ (find_node_run _ _ _ Hf)).
      assert (Hpid : attr_at (nodes w) 0%nat _id = Some pid).
      { unfold attr_at. rewrite Hn. unfold has_id in Hid.
        destruct (_id n) as [x|]; [|discriminate].
        apply String.eqb_eq in Hid. subst. reflexivity. }
      unfold try_except, bind, on_nodes.
      destruct (response_segments n) as [segs|] eqn:Hs.
      * destruct (Z_lt_dec i 0) as [Hneg|Hnn];
          [rewrite (add_segment_specific_child_out_of_range _ _ n segs i u a Hn Hs)
             by (left; exact Hneg); simpl; apply world_eta'|].
        destruct (Z_le_dec (Z.of_nat (length segs)) i) as [Hbig|Hsmall];
          [rewrite (add_segment_specific_child_out_of_range _ _ n segs i u a Hn Hs)
             by (right; exact Hbig); simpl; apply world_eta'|].
        destruct (add_segment_specific_child_in_range _ _ n segs i u a Hn Hs ltac:(lia))
          as (seg & Hseg & ->).
        pose proof (lookup_lt_Some _ _ _ Hn) as Hlt.
        simpl. split; [reflexivity|]. split; [exact Hpid|]. split; [reflexivity|].
        split; [|split].
        -- rewrite list_lookup_insert_ne by lia.
           rewrite lookup_app_r by lia. rewrite Nat.sub_diag. reflexivity.
        -- rewrite length_insert, length_app. simpl. lia.
        -- rewrite Hr. reflexivity.
      * rewrite (add_segment_specific_child_missing 0%nat i u a _ n Hn Hs).
        destruct (0 <=? i)%Z; simpl; [split; [apply world_eta' | reflexivity]|].
        apply world_eta'.
    + rewrite (bind_raise _ _ _ _ _ (find_node_run _ _ _ Hf)). split; reflexivity.
  - assert (Hf : find_node w pid = Ok None) by (unfold find_node; rewrite Hr; reflexivity).
    rewrite (bind_ok _ _ _ _ _ (find_node_run _ _ _ Hf)). reflexivity.
Qed.

Lemma tree_branches_hang_off_the_root_witness :
  match Tree_add_segment_specific_child "root" 1 "Why?" "Because."
          (exec (PostInit "root" 0) (exec (CreateRoot "What is Python?" python_text) init))
  with
  | (w', Ok (Some child)) =>
      child = 1%nat
      /\ nodes w' !! child = Some (fresh "Why?" "Because." (Some 0%nat))
      /\ tree w' = {| root_node := Some 0%nat; node_count := 2 |}
  | _ => False
  end.
Proof.
  pose proof (tree_branches_hang_off_the_root
                (exec (PostInit "root" 0)
                   (exec (CreateRoot "What is Python?" python_text) init))
                "root" 1 "Why?" "Because.") as H.
  destruct H as (_ & _ & Hchild & Hnode & _ & Htree).
  { apply reachable_step; [apply reachable_step; [apply reachable_init | exact I]|].
    vm_compute. lia. }
  split; [exact Hchild|]. split; [exact Hnode | exact Htree].
Defined.

(** ** The classifier and the blanks around a text *)

Lemma contains_lstrip_eq c s :
  isspace c = false -> contains c (lstrip s) = contains c s.
Proof.
  intros Hc. induction s as [|d s IH]; simpl; [reflexivity|].
  destruct (isspace d) eqn:Hd; [|reflexivity].
  rewrite IH. destruct (Ascii.eqb_spec d c) as [->|Hne]; [congruence | reflexivity].
Qed.

Lemma contains_rstrip_eq c s :
  isspace c = false -> contains c (rstrip s) = contains c s.
Proof.
  intros Hc. induction s as [|d s IH]; simpl; [reflexivity|].
  destruct (rstrip s) as [|e r].
  - simpl in IH. rewrite <- IH. destruct (isspace d) eqn:Hd; simpl; [|reflexivity].
    destruct (Ascii.eqb_spec d c) as [->|Hne]; [congruence | reflexivity].
  - cbn [contains] in *. rewrite IH. reflexivity.
Qed.

Lemma contains_strip_eq c s : isspace c = false -> contains c (strip s) = contains c s.
Proof.
  intros Hc. unfold strip. rewrite contains_rstrip_eq, contains_lstrip_eq by exact Hc.
  reflexivity.
Qed.

(** X17. Blanks around a text and the flag can only add to the verdict of
    the classifier.  A text is SYSTEM whenever its trimmed form is; the two
    verdicts are the same when the text holds no line feed; and a text that
    is SYSTEM with the flag unset is SYSTEM with the flag set. *)
Theorem classifier_padding_and_flag (text : string) (flag : bool) :
  (is_probable_system_heuristic (strip text) flag = true ->
   is_probable_system_heuristic text flag = true)
  /\ (contains NL text = false ->
      is_probable_system_heuristic text flag
      = is_probable_system_heuristic (strip text) flag)
  /\ (is_probable_system_heuristic text false = true ->
      is_probable_system_heuristic text true = true).
Proof.
  rewrite !classifier_disjunction, strip_idem.
  rewrite (contains_strip_eq ";" text) by reflexivity.
  split; [|split].
  - destruct (contains NL (strip text)) eqn:E.
    + unfold strip in E. apply contains_rstrip, contains_lstrip in E. rewrite E.
      intros _. rewrite !orb_true_r. reflexivity.
    + destruct (contains NL text); [|auto].
      intros _. rewrite !orb_true_r. reflexivity.
  - intros Hno. rewrite Hno, (contains_strip _ _ Hno). reflexivity.
  - simpl. rewrite !orb_false_r. intros ->. reflexivity.
Qed.

Lemma classifier_padding_and_flag_witness :
  is_probable_system_heuristic "  Validate the input. " false = true
  /\ is_probable_system_heuristic "  What is Python? " true
     = is_probable_system_heuristic (strip "  What is Python? ") true
  /\ is_probable_system_heuristic "a; b" true = true.
Proof.
  destruct (classifier_padding_and_flag "  Validate the input. " false) as (Hpad & _ & _).
  destruct (classifier_padding_and_flag "  What is Python? " true) as (_ & Hsame & _).
  destruct (classifier_padding_and_flag "a; b" true) as (_ & _ & Hflag).
  split; [apply Hpad; vm_compute; reflexivity|].
  split; [apply Hsame; vm_compute; reflexivity | apply Hflag; vm_compute; reflexivity].
Defined.

(** ** The export of an initialised tree *)

Lemma exportable_from_spec (h : heap) :
  forall k len, exportable_from k len h = true ->
    forall l n, h !! l = Some n ->
      is_Some (message n) /\ is_Some (response n)
      /\ (exists cs, children n = Some cs /\ Forall (fun c => (k + l < c < len)%nat) cs)
      /\ forall segs, response_segments n = Some segs ->
           Forall (fun seg => Forall (fun c => (k + l < c < len)%nat) (seg_children seg)) segs.
Proof.
  assert (R : forall k len cs,
            forallb (fun c => Nat.ltb k c && Nat.ltb c len) cs = true ->
            Forall (fun c => (k < c < len)%nat) cs).
  { intros k len cs Hx. apply List.Forall_forall. intros c Hc.
    rewrite forallb_forall in Hx. specialize (Hx c Hc).
    apply andb_prop in Hx. destruct Hx as [H1 H2].
    apply Nat.ltb_lt in H1. apply Nat.ltb_lt in H2. lia. }
  induction h as [|x h IH]; intros k len Hk l n Hl; [destruct l; discriminate|].
  simpl in Hk. apply andb_prop in Hk. destruct Hk as [Hx Hh].
  destruct l as [|l]; simpl in Hl.
  - inversion Hl; subst. rewrite Nat.add_0_r.
    destruct (message n) as [msg|]; [|discriminate].
    destruct (response n) as [rsp|]; [|discriminate].
    destruct (children n) as [cs|]; [|discriminate].
    apply andb_prop in Hx. destruct Hx as [Hcs Hsegs].
    split; [eauto|]. split; [eauto|]. split; [exists cs; split; [reflexivity | apply R, Hcs]|].
    intros segs Es. rewrite Es in Hsegs. apply List.Forall_forall. intros seg Hseg.
    rewrite forallb_forall in Hsegs. apply R, Hsegs, Hseg.
  - destruct (IH (S k) len Hh l n Hl) as (Hm & Hr & (cs & Hcs & Hall) & Hsegs).
    replace (k + S l)%nat with (S k + l)%nat by lia. eauto 10.
Qed.

Lemma exportable_check (h : heap) : exportable_from 0 (length h) h = true -> exportable h.
Proof. intros Hc l n Hl. apply (exportable_from_spec h 0 (length h) Hc l n Hl). Qed.

Lemma comprehension_Forall2 {A B} (f : A -> result B) (R : A -> B -> Prop) (l : list A) :
  Forall (fun x => exists y, f x = Ok y /\ R x y) l ->
  exists ys, comprehension f l = Ok ys /\ Forall2 R l ys.
Proof.
  induction 1 as [|x l (y & Hy & Hxy) _ (ys & Hys & Hall)].
  - exists []. split; [reflexivity | constructor].
  - exists (y :: ys). simpl. rewrite Hy, Hys. split; [reflexivity | constructor; assumption].
Qed.

Lemma _node_to_dict_unfold fuel (h : heap) node n msg rsp cs :
  h !! node = Some n -> message n = Some msg -> response n = Some rsp ->
  children n = Some cs ->
  _node_to_dict (S (S (S fuel))) h node
  = match comprehension (_node_to_dict (S fuel) h) cs with
    | Ok kids =>
        match response_segments n with
        | None => Ok (node_dict msg rsp kids [])
        | Some segs =>
            match comprehension
                    (fun seg =>
                       match comprehension (_node_to_dict fuel h) (seg_children seg) with
                       | Ok seg_kids =>
                           Ok (segment_dict (seg_content seg) (seg_index seg) seg_kids)
                       | Raise e => Raise e
                       | OutOfFuel => OutOfFuel
                       end) segs with
            | Ok seg_dicts => Ok (node_dict msg rsp kids seg_dicts)
            | Raise e => Raise e
            | OutOfFuel => OutOfFuel
            end
        end
    | Raise e => Raise e
    | OutOfFuel => OutOfFuel
    end.
Proof.
  intros Hn Hm Hr Hc. cbn [_node_to_dict]. rewrite Hn. cbn [mbind option_bind].
  rewrite Hm, Hr, Hc. reflexivity.
Qed.

(** Each level of the tree takes at most three frames of the export: the
    call of the helper, the comprehension over the segments and the one
    over the children of a segment. *)
Lemma _node_to_dict_mirrors (h : heap) :
  exportable h ->
  forall fuel node,
    (node < length h)%nat -> (3 * (length h - node) <= fuel)%nat ->
    exists d, _node_to_dict fuel h node = Ok d /\ mirrors h node d.
Proof.
  intros Hex fuel. induction fuel as [fuel IH] using lt_wf_ind. intros node Hlt Hfuel.
  destruct fuel as [|[|[|fuel]]]; [lia..|].
  destruct (lookup_lt_is_Some_2 h node Hlt) as [n Hn].
  destruct (Hex node n Hn) as ([msg Hm] & [rsp Hr] & (cs & Hc & Hall) & Hsegs).
  assert (Kids : forall f l, (fuel <= f < S (S (S fuel)))%nat ->
            Forall (fun c => (node < c < length h)%nat) l ->
            exists ds, comprehension (_node_to_dict f h) l = Ok ds
                       /\ Forall2 (mirrors h) l ds).
  { intros f l Hf Hl. apply comprehension_Forall2.
    eapply List.Forall_impl; [|exact Hl]. simpl. intros c Hc'. apply IH; lia. }
  rewrite (_node_to_dict_unfold fuel h node n msg rsp cs Hn Hm Hr Hc).
  destruct (Kids (S fuel) cs ltac:(lia) Hall) as (kids & -> & Hkids).
  destruct (response_segments n) as [segs|] eqn:Es.
  - destruct (comprehension_Forall2
                (fun seg =>
                   match comprehension (_node_to_dict fuel h) (seg_children seg) with
                   | Ok seg_kids =>
                       Ok (segment_dict (seg_content seg) (seg_index seg) seg_kids)
                   | Raise e => Raise e
                   | OutOfFuel => OutOfFuel
                   end) (mirrors_segment h) segs) as (seg_dicts & -> & Hsd).
    { eapply List.Forall_impl; [|exact (Hsegs segs eq_refl)]. simpl. intros seg Hseg.
      destruct (Kids fuel _ ltac:(lia) Hseg) as (seg_kids & -> & Hsk).
      eexists. split; [reflexivity | constructor; exact Hsk]. }
    eexists. split; [reflexivity|]. eapply mirrors_segmented; eassumption.
  - eexists. split; [reflexivity|]. eapply mirrors_plain; eassumption.
Qed.

(** X18. The export of an initialised tree.  When every node has its
    message, its response and its list of children, children (of nodes and
    of segments) are allocated after their parent, and the export has three
    frames left for every node of the tree, [to_dict] returns, leaves the
    tree as it was, reports the counter [node_count], and its root entry
    mirrors the root: message, response, one mapping per child, and per
    segment its content, index and one mapping per segment child. *)
Theorem export_of_initialised_tree (w : World) (root : loc) :
  exportable (nodes w) ->
  root_node (tree w) = Some root ->
  (root < length (nodes w))%nat ->
  (3 * length (nodes w) <= frames_below 2)%nat ->
  exists d,
    to_dict w = (w, Ok {| dict_node_count := node_count (tree w);
                          dict_root_node := Some d |})
    /\ mirrors (nodes w) root d.
Proof.
  intros Hex Hroot Hlt Hframes.
  destruct (_node_to_dict_mirrors _ Hex (frames_below 2) root Hlt ltac:(lia))
    as (d & Hd & Hmir).
  exists d. split; [|exact Hmir].
  unfold to_dict. rewrite Hroot, Hd. reflexivity.
Qed.

Lemma export_of_initialised_tree_witness :
  exists d,
    to_dict segment_child_world
    = (segment_child_world,
       Ok {| dict_node_count := node_count (tree segment_child_world);
             dict_root_node := Some d |})
    /\ mirrors (nodes segment_child_world) 0%nat d.
Proof.
  apply (export_of_initialised_tree segment_child_world 0%nat);
    [apply exportable_check; vm_compute; reflexivity | reflexivity | vm_compute; lia
    | apply Nat.leb_le; vm_compute; reflexivity].
Defined.

(** ** A child added through the tree *)

Lemma collect_over_app rec (l1 l2 : list loc) acc :
  collect_over rec (l1 ++ l2) acc
  = match collect_over rec l1 acc with
    | Ok acc' => collect_over rec l2 acc'
    | other => other
    end.
Proof.
  revert acc. induction l1 as [|c l1 IH]; intros acc; simpl; [reflexivity|].
  destruct (rec c acc); [apply IH | reflexivity..].
Qed.

Lemma _collect_step fuel (h : heap) node n cs acc :
  h !! node = Some n -> children n = Some cs ->
  _collect_nodes_recursive (S fuel) h node acc
  = collect_over (_collect_nodes_recursive fuel h) cs (acc ++ [node]).
Proof. intros Hn Hc. rewrite _collect_unfold, Hn. simpl. rewrite Hc. reflexivity. Qed.

Lemma _collect_no_children fuel (h : heap) node n acc :
  h !! node = Some n -> children n = None ->
  _collect_nodes_recursive (S fuel) h node acc = Raise AttributeError.
Proof. intros Hn Hc. rewrite _collect_unfold, Hn. simpl. rewrite Hc. reflexivity. Qed.

(** The listing from a node, before and after a child without a list of
    children has been appended to the children of [p]. *)
Lemma collect_after_append (h : heap) p n cs msg rsp :
  indexed h -> h !! p = Some n -> children n = Some cs ->
  forall m node,
    (length h - node <= m)%nat -> (node < length h)%nat ->
    exists listing,
      Forall (fun o => (node < o)%nat) listing
      /\ forall fuel, (S (length h) < fuel + node)%nat ->
           (forall acc, _collect_nodes_recursive fuel h node acc = Ok (acc ++ node :: listing))
           /\ (In p (node :: listing) ->
               forall acc,
                 _collect_nodes_recursive fuel
                   (<[p := set_children (cs ++ [length h]) n]>
                      (h ++ [fresh msg rsp (Some p)]))
                   node acc = Raise AttributeError)
           /\ (~ In p (node :: listing) ->
               forall acc,
                 _collect_nodes_recursive fuel
                   (<[p := set_children (cs ++ [length h]) n]>
                      (h ++ [fresh msg rsp (Some p)]))
                   node acc = Ok (acc ++ node :: listing)).
Proof.
  intros Hidx Hp Hcs.
  pose proof (lookup_lt_Some _ _ _ Hp) as Hplt.
  set (h' := <[p := set_children (cs ++ [length h]) n]> (h ++ [fresh msg rsp (Some p)])).
  assert (Hp' : h' !! p = Some (set_children (cs ++ [length h]) n)).
  { unfold h'. apply list_lookup_insert_eq. rewrite length_app. simpl. lia. }
  assert (Hother : forall l, l <> p -> (l < length h)%nat -> h' !! l = h !! l).
  { intros l Hne Hl. unfold h'.
    rewrite list_lookup_insert_ne by (intros E; apply Hne; symmetry; exact E).
    apply lookup_app_l. exact Hl. }
  assert (Hchild : h' !! length h = Some (fresh msg rsp (Some p))).
  { unfold h'. rewrite list_lookup_insert_ne by lia.
    rewrite lookup_app_r by lia. rewrite Nat.sub_diag. reflexivity. }
  induction m as [|m IH]; intros node Hm Hlt; [lia|].
  destruct (lookup_lt_is_Some_2 h node Hlt) as [n0 Hn0].
  destruct (Hidx node n0 Hn0) as (cs0 & Hcs0 & Hall).
  assert (Inner : forall l, Forall (fun c => (node < c < length h)%nat) l ->
    exists listing,
      Forall (fun o => (node < o)%nat) listing
      /\ forall fuel, (S (length h) < S fuel + node)%nat ->
           (forall acc, collect_over (_collect_nodes_recursive fuel h) l acc
                        = Ok (acc ++ listing))
           /\ (In p listing ->
               forall acc, collect_over (_collect_nodes_recursive fuel h') l acc
                           = Raise AttributeError)
           /\ (~ In p listing ->
               forall acc, collect_over (_collect_nodes_recursive fuel h') l acc
                           = Ok (acc ++ listing))).
  { induction 1 as [|c l Hc _ (ls & Fls & Ws)].
    - exists []. split; [constructor|]. intros fuel _.
      split; [intros acc; simpl; rewrite app_nil_r; reflexivity|].
      split; [contradiction|].
      intros _ acc. simpl. rewrite app_nil_r. reflexivity.
    - destruct (IH c) as (lc & Flc & Wc); [lia | lia |].
      exists ((c :: lc) ++ ls). split.
      + apply List.Forall_app. split; [|exact Fls]. constructor; [lia|].
        eapply List.Forall_impl; [|exact Flc]. simpl. intros o Ho. lia.
      + intros fuel Hfuel.
        destruct (Wc fuel ltac:(lia)) as (Clc & Rlc & Klc).
        destruct (Ws fuel Hfuel) as (Cls & Rls & Kls).
        split; [|split].
        * intros acc. simpl. rewrite Clc, Cls, <- app_assoc. reflexivity.
        * intros Hin acc. cbn [collect_over].
          destruct (In_dec Nat.eq_dec p (c :: lc)) as [Hyes|Hno].
          -- rewrite (Rlc Hyes). reflexivity.
          -- rewrite (Klc Hno). apply Rls.
             apply List.in_app_or in Hin.
             destruct Hin as [Hin|Hin]; [contradiction | exact Hin].
        * intros Hno acc. cbn [collect_over].
          rewrite Klc by (intros Hin; apply Hno, List.in_or_app; left; exact Hin).
          rewrite Kls by (intros Hin; apply Hno, List.in_or_app; right; exact Hin).
          rewrite <- app_assoc. reflexivity. }
  destruct (Inner cs0 Hall) as (listing & Fl & W).
  exists listing. split; [exact Fl|]. intros fuel Hfuel.
  destruct fuel as [|fuel]; [lia|]. destruct (W fuel Hfuel) as (Cl & Rl & Kl).
  split.
  { intros acc. rewrite (_collect_step _ _ _ _ _ _ Hn0 Hcs0), Cl, <- app_assoc.
    reflexivity. }
  destruct (decide (node = p)) as [->|Hne].
  - rewrite Hp in Hn0. inversion Hn0; subst n0. rewrite Hcs in Hcs0. inversion Hcs0; subst cs0.
    assert (Hnotin : ~ In p listing).
    { intros Hin. rewrite List.Forall_forall in Fl. specialize (Fl p Hin). lia. }
    split; [|intros Hno; exfalso; apply Hno; left; reflexivity].
    intros _ acc.
    rewrite (_collect_step _ _ _ _ (cs ++ [length h]) _ Hp' eq_refl).
    rewrite collect_over_app, (Kl Hnotin). cbn [collect_over].
    destruct fuel as [|fuel]; [lia|].
    rewrite (_collect_no_children _ _ _ _ _ Hchild eq_refl). reflexivity.
  - assert (Hn0' : h' !! node = Some n0) by (rewrite Hother; assumption).
    split.
    + intros [Heq|Hin] acc; [exfalso; apply Hne; exact Heq|].
      rewrite (_collect_step _ _ _ _ _ _ Hn0' Hcs0). apply Rl. exact Hin.
    + intros Hno acc. rewrite (_collect_step _ _ _ _ _ _ Hn0' Hcs0), Kl, <- app_assoc;
        [reflexivity | intros Hin; apply Hno; right; exact Hin].
Qed.

(** X19. A child added through the tree makes the tree unlistable.  On a
    tree whose nodes all have their list of children, with fewer nodes than
    the traversals have frames left after the new one, when the lookup finds
    the parent, [Tree.add_child_node] returns the new node, appended to the
    parent's children, and adds one to the node count; but the new node has
    no list of children of its own: [get_all_nodes], which returned a
    listing before the call, raises [AttributeError] after it. *)
Theorem add_child_node_breaks_listing (w : World) (pid u a : string) (p : loc) :
  indexed (nodes w) ->
  (S (length (nodes w)) < frames_below 3)%nat ->
  find_node w pid = Ok (Some p) ->
  exists w' cs,
    add_child_node pid u a w = (w', Ok (Some (length (nodes w))))
    /\ attr_at (nodes w) p children = Some cs
    /\ attr_at (nodes w') p children = Some (cs ++ [length (nodes w)])
    /\ nodes w' !! length (nodes w) = Some (fresh u a (Some p))
    /\ tree w' = {| root_node := root_node (tree w);
                    node_count := (node_count (tree w) + 1)%Z |}
    /\ (exists listing, get_all_nodes w = (w, Ok listing))
    /\ get_all_nodes w' = (w', Raise AttributeError).
Proof.
  intros Hidx Hframes Hf. pose proof (find_node_valid _ _ _ Hf) as Hplt.
  pose proof (frames_below_le 2 3 ltac:(lia)) as Hle.
  destruct (lookup_lt_is_Some_2 _ p Hplt) as [n Hn].
  destruct (Hidx p n Hn) as (cs & Hcs & _).
  destruct (find_node_has_root _ _ _ Hf) as [root Hroot].
  assert (Hrlt : (root < length (nodes w))%nat).
  { unfold find_node in Hf. rewrite Hroot in Hf.
    destruct (frames_below_S 3 eq_refl) as [f Ef]. rewrite Ef, _search_unfold in Hf.
    destruct (nodes w !! root) eqn:E; [|discriminate Hf]. apply (lookup_lt_Some _ _ _ E). }
  pose proof (add_child_node_run pid u a w p n Hf Hn) as Hrun. rewrite Hcs in Hrun.
  eexists _, cs. split; [exact Hrun|]. cbn [nodes tree].
  split; [unfold attr_at; rewrite Hn; exact Hcs|]. split; [|split; [|split; [reflexivity|]]].
  - unfold attr_at. rewrite list_lookup_insert_eq by (rewrite length_app; simpl; lia).
    reflexivity.
  - rewrite list_lookup_insert_ne by lia.
    rewrite lookup_app_r by lia. rewrite Nat.sub_diag. reflexivity.
  - destruct (collect_after_append (nodes w) p n cs u a Hidx Hn Hcs
                (length (nodes w)) root ltac:(lia) Hrlt)
      as (listing & _ & W).
    destruct (W (frames_below 2) ltac:(lia)) as (Hc & Hraise & _).
    split; [exists (root :: listing); unfold get_all_nodes; rewrite Hroot, Hc;
            reflexivity|].
    assert (Hin : In p (root :: listing)).
    { destruct (index_walk (nodes w) Hidx (length (nodes w)) root ltac:(lia) Hrlt)
        as (listing0 & _ & W0).
      destruct (W0 (frames_below 2) ltac:(lia)) as (Hc0 & _).
      destruct (W0 (frames_below 3) ltac:(lia)) as (_ & Hs0 & _).
      pose proof (Hc []) as E. rewrite (Hc0 []) in E. simpl in E. inversion E; subst listing0.
      unfold find_node in Hf. rewrite Hroot, Hs0 in Hf.
      assert (Hfirst : first_with_id (nodes w) pid (root :: listing) = Some p)
        by congruence.
      apply (List.find_some _ _ Hfirst). }
    unfold get_all_nodes. cbn [nodes tree root_node]. rewrite Hroot.
    rewrite (Hraise Hin). reflexivity.
Qed.

Lemma add_child_node_breaks_listing_witness :
  exists w' cs,
    add_child_node "kid" "More?" "Yes." family_world
    = (w', Ok (Some (length (nodes family_world))))
    /\ attr_at (nodes family_world) 1%nat children = Some cs
    /\ attr_at (nodes w') 1%nat children = Some (cs ++ [length (nodes family_world)])
    /\ nodes w' !! length (nodes family_world) = Some (fresh "More?" "Yes." (Some 1%nat))
    /\ tree w' = {| root_node := root_node (tree family_world);
                    node_count := (node_count (tree family_world) + 1)%Z |}
    /\ (exists listing, get_all_nodes family_world = (family_world, Ok listing))
    /\ get_all_nodes w' = (w', Raise AttributeError).
Proof.
  apply (add_child_node_breaks_listing family_world "kid" "More?" "Yes." 1%nat);
    [apply indexed_check; vm_compute; reflexivity
    | apply Nat.ltb_lt; vm_compute; reflexivity | vm_compute; reflexivity].
Defined.
